(** * poached: SQL introspection functions for DuckDB

    A shallow embedding of the analysis code of the extension
    (src/parser.cpp, src/parser.c, src/tokenizer.cpp) together with the
    properties its specification states about it.

    The full SQL grammar, the lexer and the catalogue of logical types belong
    to DuckDB.  They appear here as data (the syntax trees the parser hands
    over) or as section variables (the parser and the lexer themselves). *)

From Stdlib Require Import List String Ascii Bool Arith Lia ZArith NArith.
From Stdlib Require Import DecimalString.
Import ListNotations.

Local Open Scope string_scope.
#[local] Set Warnings "-register-all".

(* ======================================================================= *)
(** * Comment stripper *)
(* ======================================================================= *)

Module Strip.

(** The scanner keeps three flags, [in_line_comment], [in_block_comment] and
    [in_string], plus [string_char].  At most one flag is ever set and the
    loop tests them in that order, so the flags are one of four states. *)
Inductive LexState : Type :=
| Normal
| InLineComment
| InBlockComment
| InString (string_char : ascii).

Definition newline : ascii := "010"%char.
Definition squote : ascii := "'"%char.
Definition dquote : ascii := "034"%char.
Definition dash : ascii := "-"%char.
Definition slash : ascii := "/"%char.
Definition star : ascii := "*"%char.

(** [input[i + 1]] when [i + 1 < input.size()], else [0]. *)
Definition next_char (rest : string) : ascii :=
  match rest with
  | String n _ => n
  | EmptyString => zero
  end.

(** [i + 1 < len && sql[i + 1] == x]. *)
Definition next_is (rest : string) (x : ascii) : bool :=
  match rest with
  | String n _ => (n =? x)%char
  | EmptyString => false
  end.

(** [i + 1 >= input.size()]. *)
Definition at_end (rest : string) : bool :=
  match rest with
  | String _ _ => false
  | EmptyString => true
  end.

(** The extra [i++] taken when a two-character lexeme is consumed. *)
Definition skip (rest : string) : string :=
  match rest with
  | String _ r => r
  | EmptyString => rest
  end.

(** ** parser.cpp, [SqlStripCommentsFunc]: the loop body, one character at a
    time; [st] is the state on entry, the result is what is appended to
    [output] from this position on. *)
Fixpoint cpp_scan (st : LexState) (input : string) {struct input} : string :=
  match input with
  | EmptyString => EmptyString
  | String c rest =>
      let next := next_char rest in
      match st with
      | InLineComment =>
          if (c =? newline)%char
          then String c (cpp_scan Normal rest)
          else cpp_scan InLineComment rest
      | InBlockComment =>
          if (c =? star)%char && (next =? slash)%char
          then cpp_scan Normal (skip rest)
          else cpp_scan InBlockComment rest
      | InString q =>
          if (c =? q)%char && (at_end rest || negb (next_char rest =? q)%char)
          then String c (cpp_scan Normal rest)
          else if (c =? q)%char
               then String c (String (next_char rest)
                                     (cpp_scan (InString q) (skip rest)))
               else String c (cpp_scan (InString q) rest)
      | Normal =>
          if (c =? dash)%char && (next =? dash)%char
          then cpp_scan InLineComment (skip rest)
          else if (c =? slash)%char && (next =? star)%char
               then cpp_scan InBlockComment (skip rest)
               else if (c =? squote)%char || (c =? dquote)%char
                    then String c (cpp_scan (InString c) rest)
                    else String c (cpp_scan Normal rest)
      end
  end.

Definition SqlStripCommentsFunc (query : string) : string :=
  cpp_scan Normal query.

(** ** parser.c, [StripComments] *)

(** [strlen]: the number of bytes before the first NUL. *)
Fixpoint strlen (sql : string) : nat :=
  match sql with
  | EmptyString => 0
  | String c rest => if (c =? zero)%char then 0 else S (strlen rest)
  end.

Fixpoint c_scan (st : LexState) (sql : string) {struct sql} : string :=
  match sql with
  | EmptyString => EmptyString
  | String c rest =>
      match st with
      | InLineComment =>
          if (c =? newline)%char
          then String c (c_scan Normal rest)
          else c_scan InLineComment rest
      | InBlockComment =>
          if (c =? star)%char && next_is rest slash
          then c_scan Normal (skip rest)
          else c_scan InBlockComment rest
      | InString q =>
          if (c =? q)%char
          then if next_is rest q
               then String c (String (next_char rest)
                                     (c_scan (InString q) (skip rest)))
               else String c (c_scan Normal rest)
          else String c (c_scan (InString q) rest)
      | Normal =>
          if (c =? squote)%char || (c =? dquote)%char
          then String c (c_scan (InString c) rest)
          else if (c =? dash)%char && next_is rest dash
               then c_scan InLineComment (skip rest)
               else if (c =? slash)%char && next_is rest star
                    then c_scan InBlockComment (skip rest)
                    else String c (c_scan Normal rest)
      end
  end.

(** The loop runs over [sql[0 .. len)] with [len = strlen(sql)]. *)
Definition StripComments (sql : string) : string :=
  let len := strlen sql in
  c_scan Normal (substring 0 len sql).

(** A string with no NUL byte in it, that is, one a [char *] can hold. *)
Fixpoint nul_free (s : string) : bool :=
  match s with
  | EmptyString => true
  | String c rest => negb (c =? zero)%char && nul_free rest
  end.

(** No ["/*"] anywhere in the text. *)
Fixpoint no_block_open (s : string) : bool :=
  match s with
  | EmptyString => true
  | String c rest =>
      negb ((c =? slash)%char && next_is rest star) && no_block_open rest
  end.

(** ** Comment openers that stripping brings about *)

(** [a] directly before [b] opens a comment: [--] or [/*]. *)
Definition opens_comment (a b : ascii) : bool :=
  ((a =? dash)%char && (b =? dash)%char)
  || ((a =? slash)%char && (b =? star)%char).

(** The same, of the character kept last, when there is one. *)
Definition opens_after (last : option ascii) (c : ascii) : bool :=
  match last with
  | Some a => opens_comment a c
  | None => false
  end.

Definition is_quote (c : ascii) : bool :=
  (c =? squote)%char || (c =? dquote)%char.

(** Whether stripping [input], entered in state [st], joins a comment
    opener: whether a character that is kept outside string literals comes
    to stand directly behind another such character with which it makes
    [--] or [/*].  [last] is the character kept last when it stands outside
    a literal or closes one; a removed block comment leaves it in place, so
    the characters around the comment meet.  The branches are those of the
    scanner. *)
Fixpoint joins (last : option ascii) (st : LexState) (input : string)
    {struct input} : bool :=
  match input with
  | EmptyString => false
  | String c rest =>
      let next := next_char rest in
      match st with
      | InLineComment =>
          if (c =? newline)%char
          then joins (Some c) Normal rest
          else joins last InLineComment rest
      | InBlockComment =>
          if (c =? star)%char && (next =? slash)%char
          then joins last Normal (skip rest)
          else joins last InBlockComment rest
      | InString q =>
          if (c =? q)%char && (at_end rest || negb (next_char rest =? q)%char)
          then joins (Some c) Normal rest
          else if (c =? q)%char
               then joins None (InString q) (skip rest)
               else joins None (InString q) rest
      | Normal =>
          if (c =? dash)%char && (next =? dash)%char
          then joins last InLineComment (skip rest)
          else if (c =? slash)%char && (next =? star)%char
               then joins last InBlockComment (skip rest)
               else if (c =? squote)%char || (c =? dquote)%char
                    then joins None (InString c) rest
                    else opens_after last c || joins (Some c) Normal rest
      end
  end.

(** Stripping [T] joins a comment opener. *)
Definition joins_comment (T : string) : bool := joins None Normal T.

(** Where a reader of a text stands who takes it character by character,
    without looking ahead: outside string literals, [last] being the
    character read last, or inside a literal quoted with [q].  A quote read
    inside closes the literal for the time being; the same quote read next
    reopens it, which is how a doubled quote reads. *)
Inductive Reader : Type :=
| Outside (last : option ascii)
| Inside (q : ascii).

(** No comment opener outside the string literals of [text]. *)
Fixpoint comment_free (k : Reader) (text : string) {struct text} : bool :=
  match text with
  | EmptyString => true
  | String c rest =>
      match k with
      | Inside q =>
          if (c =? q)%char
          then comment_free (Outside (Some c)) rest
          else comment_free (Inside q) rest
      | Outside last =>
          if is_quote c
          then comment_free (Inside c) rest
          else negb (opens_after last c) && comment_free (Outside (Some c)) rest
      end
  end.

(** The body of a string literal quoted with [q]: every [q] in it is doubled. *)
Fixpoint literal_body (q : ascii) (body : string) {struct body} : bool :=
  match body with
  | EmptyString => true
  | String c rest =>
      if (c =? q)%char
      then next_is rest q && literal_body q (skip rest)
      else literal_body q rest
  end.

(** What it means for a scanner to copy string literals verbatim: inside a
    literal every character is copied; a quote followed by the same quote is
    an escaped quote, both are copied and the literal goes on; a quote not
    followed by another ends the literal; hence a whole literal, delimiters
    included, comes out as it went in. *)
Definition copies_literals (scan : LexState -> string -> string) : Prop :=
  (forall q c rest, c <> q ->
     scan (InString q) (String c rest) = String c (scan (InString q) rest)) /\
  (forall q rest,
     scan (InString q) (String q (String q rest))
     = String q (String q (scan (InString q) rest))) /\
  (forall q rest, next_is rest q = false ->
     scan (InString q) (String q rest) = String q (scan Normal rest)) /\
  (forall q body rest,
     q = squote \/ q = dquote ->
     literal_body q body = true ->
     next_is rest q = false ->
     scan Normal (String q (body ++ String q rest))
     = String q (body ++ String q (scan Normal rest))).

(** Sample inputs. *)
Definition dash_comment_dash : string := "-/**/-".
Definition quoted_dashes : string := "SELECT '--not a comment'".
Definition commented_sum : string := "SELECT '--', 1 /* one */ + 2 -- 'sum'".
Definition trailing_comment : string := "SELECT a, 'it''s' -- the columns".
Definition nul_then_comment : string := String "a" (String zero "--b").

End Strip.

(* ======================================================================= *)
(** * The syntax trees handed over by DuckDB's parser *)
(* ======================================================================= *)

Module Ast.

(** [ExpressionType], grouped by the expression class that carries it.  A
    comparison node holds one of the [ComparisonType]s, a conjunction node
    one of the [ConjunctionType]s, and so on: the class invariant that
    DuckDB's constructors keep is part of the type here. *)
Inductive ComparisonType : Type :=
| COMPARE_EQUAL
| COMPARE_NOTEQUAL
| COMPARE_LESSTHAN
| COMPARE_GREATERTHAN
| COMPARE_LESSTHANOREQUALTO
| COMPARE_GREATERTHANOREQUALTO
| COMPARE_DISTINCT_FROM
| COMPARE_NOT_DISTINCT_FROM.

Inductive ConjunctionType : Type :=
| CONJUNCTION_AND
| CONJUNCTION_OR.

(** The kinds of the remaining parsed expressions (operator, between, cast,
    case, star, subquery, parameter, window, lambda, collate nodes). *)
Inductive OtherType : Type :=
| OPERATOR_CAST
| OPERATOR_NOT
| OPERATOR_IS_NULL
| OPERATOR_IS_NOT_NULL
| COMPARE_IN
| COMPARE_NOT_IN
| COMPARE_BETWEEN
| COMPARE_NOT_BETWEEN
| VALUE_PARAMETER
| VALUE_DEFAULT
| CASE_EXPR
| STAR
| SUBQUERY
| WINDOW_AGGREGATE
| LAMBDA
| COLLATE.

Inductive ExpressionType : Type :=
| Comparison (t : ComparisonType)
| Conjunction (t : ConjunctionType)
| Other (t : OtherType)
| VALUE_CONSTANT
| FUNCTION
| COLUMN_REF.

Inductive ExpressionClass : Type :=
| CLASS_COMPARISON
| CLASS_CONJUNCTION
| CLASS_CONSTANT
| CLASS_FUNCTION
| CLASS_COLUMN_REF
| CLASS_OPERATOR
| CLASS_BETWEEN
| CLASS_CAST
| CLASS_CASE
| CLASS_STAR
| CLASS_SUBQUERY
| CLASS_PARAMETER
| CLASS_DEFAULT
| CLASS_WINDOW
| CLASS_LAMBDA
| CLASS_COLLATE.

Definition other_class (t : OtherType) : ExpressionClass :=
  match t with
  | OPERATOR_CAST => CLASS_CAST
  | OPERATOR_NOT | OPERATOR_IS_NULL | OPERATOR_IS_NOT_NULL
  | COMPARE_IN | COMPARE_NOT_IN => CLASS_OPERATOR
  | COMPARE_BETWEEN | COMPARE_NOT_BETWEEN => CLASS_BETWEEN
  | VALUE_PARAMETER => CLASS_PARAMETER
  | VALUE_DEFAULT => CLASS_DEFAULT
  | CASE_EXPR => CLASS_CASE
  | STAR => CLASS_STAR
  | SUBQUERY => CLASS_SUBQUERY
  | WINDOW_AGGREGATE => CLASS_WINDOW
  | LAMBDA => CLASS_LAMBDA
  | COLLATE => CLASS_COLLATE
  end.

Section Trees.

(** DuckDB's [Value] (the payload of a constant) stays abstract. *)
Variable Value : Type.

(** A [unique_ptr<T>] is an [option T]: [None] is the null pointer. *)
Inductive ParsedExpression : Type :=
| FunctionExpression (alias : string) (schema function_name : string)
    (is_operator distinct : bool) (children : list (option ParsedExpression))
| ComparisonExpression (type : ComparisonType) (alias : string)
    (left right : option ParsedExpression)
| ConjunctionExpression (type : ConjunctionType) (alias : string)
    (children : list (option ParsedExpression))
| ColumnRefExpression (alias : string) (column_names : list string)
| ConstantExpression (alias : string) (value : Value)
| OtherExpression (type : OtherType) (alias : string)
    (children : list (option ParsedExpression)).

Definition expr_type (e : ParsedExpression) : ExpressionType :=
  match e with
  | FunctionExpression _ _ _ _ _ _ => FUNCTION
  | ComparisonExpression t _ _ _ => Comparison t
  | ConjunctionExpression t _ _ => Conjunction t
  | ColumnRefExpression _ _ => COLUMN_REF
  | ConstantExpression _ _ => VALUE_CONSTANT
  | OtherExpression t _ _ => Other t
  end.

Definition GetExpressionClass (e : ParsedExpression) : ExpressionClass :=
  match e with
  | FunctionExpression _ _ _ _ _ _ => CLASS_FUNCTION
  | ComparisonExpression _ _ _ _ => CLASS_COMPARISON
  | ConjunctionExpression _ _ _ => CLASS_CONJUNCTION
  | ColumnRefExpression _ _ => CLASS_COLUMN_REF
  | ConstantExpression _ _ => CLASS_CONSTANT
  | OtherExpression t _ _ => other_class t
  end.

Definition expr_alias (e : ParsedExpression) : string :=
  match e with
  | FunctionExpression a _ _ _ _ _ => a
  | ComparisonExpression _ a _ _ => a
  | ConjunctionExpression _ a _ => a
  | ColumnRefExpression a _ => a
  | ConstantExpression a _ => a
  | OtherExpression _ a _ => a
  end.

(** The operand pointers a node owns, whatever its class. *)
Definition expr_children (e : ParsedExpression) : list (option ParsedExpression) :=
  match e with
  | FunctionExpression _ _ _ _ _ cs => cs
  | ComparisonExpression _ _ l r => [l; r]
  | ConjunctionExpression _ _ cs => cs
  | ColumnRefExpression _ _ => []
  | ConstantExpression _ _ => []
  | OtherExpression _ _ cs => cs
  end.

(** [ColumnRefExpression::GetColumnName] in DuckDB: the last part of the
    qualified name. *)
Definition GetColumnName (column_names : list string) : string :=
  last column_names "".

Inductive OtherTableRefType : Type :=
| EXPRESSION_LIST
| EMPTY_FROM
| PIVOT
| SHOW_REF
| COLUMN_DATA
| DELIM_GET.

Inductive QueryNode : Type :=
| SelectNode
    (cte_map : list (string * option CommonTableExpressionInfo))
    (select_list : list (option ParsedExpression))
    (from_table : option TableRef)
    (where_clause : option ParsedExpression)
    (group_expressions : list (option ParsedExpression))
    (having : option ParsedExpression)
| SetOperationNode
    (cte_map : list (string * option CommonTableExpressionInfo))
    (left right : option QueryNode)
with TableRef : Type :=
| BaseTableRef (schema_name table_name : string)
| JoinRef (left right : option TableRef) (condition : option ParsedExpression)
| SubqueryRef (subquery : option SelectStatement)
| TableFunctionRef (function : option ParsedExpression)
| OtherTableRef (type : OtherTableRefType)
with SelectStatement : Type :=
| MkSelectStatement (node : option QueryNode)
with CommonTableExpressionInfo : Type :=
| MkCommonTableExpressionInfo (query : option SelectStatement).

Inductive OtherStatementType : Type :=
| INSERT_STATEMENT
| UPDATE_STATEMENT
| DELETE_STATEMENT
| CREATE_STATEMENT
| DROP_STATEMENT
| PRAGMA_STATEMENT
| SET_STATEMENT.

Inductive SQLStatement : Type :=
| Select (stmt : SelectStatement)
| OtherStatement (type : OtherStatementType).

(** What [Parser::ParseQuery] leaves behind: the statements, or an
    [Exception] carrying [what()]. *)
Inductive ParseOutcome : Type :=
| Parsed (statements : list SQLStatement)
| Throws (what : string).

End Trees.

Arguments FunctionExpression {Value}.
Arguments ComparisonExpression {Value}.
Arguments ConjunctionExpression {Value}.
Arguments ColumnRefExpression {Value}.
Arguments ConstantExpression {Value}.
Arguments OtherExpression {Value}.
Arguments expr_type {Value}.
Arguments GetExpressionClass {Value}.
Arguments expr_alias {Value}.
Arguments expr_children {Value}.
Arguments SelectNode {Value}.
Arguments SetOperationNode {Value}.
Arguments BaseTableRef {Value}.
Arguments JoinRef {Value}.
Arguments SubqueryRef {Value}.
Arguments TableFunctionRef {Value}.
Arguments OtherTableRef {Value}.
Arguments MkSelectStatement {Value}.
Arguments MkCommonTableExpressionInfo {Value}.
Arguments Select {Value}.
Arguments OtherStatement {Value}.
Arguments Parsed {Value}.
Arguments Throws {Value}.

End Ast.

(* ======================================================================= *)
(** * Tree extractors (parser.cpp) *)
(* ======================================================================= *)

Module Extract.
Import Ast.
Local Open Scope list_scope.

Record ExtractedTable : Type := mkExtractedTable {
  et_schema : string;
  et_table : string;
  et_context : string
}.

Record FunctionRef : Type := mkFunctionRef {
  fr_name : string;
  fr_type : string
}.

Record WhereCondition : Type := mkWhereCondition {
  column_name : string;
  op : string;
  value : string
}.

(** [std::to_string] of an index. *)
Definition to_string (index : nat) : string :=
  NilEmpty.string_of_uint (Nat.to_uint index).

Definition ComparisonTypeToOperator (type : ExpressionType) : string :=
  match type with
  | Comparison COMPARE_EQUAL => "="
  | Comparison COMPARE_NOTEQUAL => "!="
  | Comparison COMPARE_LESSTHAN => "<"
  | Comparison COMPARE_GREATERTHAN => ">"
  | Comparison COMPARE_LESSTHANOREQUALTO => "<="
  | Comparison COMPARE_GREATERTHANOREQUALTO => ">="
  | Other COMPARE_IN => "IN"
  | Other COMPARE_NOT_IN => "NOT IN"
  | _ => "?"
  end.

Section Extractors.

Context {Value : Type}.

(** [Value::ToString] and [ParsedExpression::ToString] are DuckDB's. *)
Variable Value_ToString : Value -> string.
Variable ToString : ParsedExpression Value -> string.

(** Every extractor appends to a vector it receives by reference: the
    vector is threaded through as the last argument and returned.  A call
    on a pointer, [f(p.get(), out)] with [if (!p) return;] on entry, is a
    match on the option.  A test on [expr->type] or on
    [expr->GetExpressionClass()] followed by [Cast<T>()] is a match on the
    constructor of the class [T]: the type and the class of a node are
    functions of its constructor ([expr_type], [GetExpressionClass]). *)

(** ** Tables *)

Fixpoint ExtractTablesFromQueryNode (node : QueryNode Value)
    (tables : list ExtractedTable) {struct node} : list ExtractedTable :=
  let walk_ctes :=
    fix walk_ctes (ctes : list (string * option (CommonTableExpressionInfo Value)))
        (tables : list ExtractedTable) {struct ctes} : list ExtractedTable :=
      match ctes with
      | [] => tables
      | (_, Some (MkCommonTableExpressionInfo
                    (Some (MkSelectStatement (Some n))))) :: ctes' =>
          walk_ctes ctes' (ExtractTablesFromQueryNode n tables)
      | _ :: ctes' => walk_ctes ctes' tables
      end in
  match node with
  | SelectNode cte_map _ from_table _ _ _ =>
      let tables :=
        match from_table with
        | Some tref => ExtractTablesFromTableRef tref tables "FROM"
        | None => tables
        end in
      walk_ctes cte_map tables
  | SetOperationNode cte_map _ _ => walk_ctes cte_map tables
  end

with ExtractTablesFromTableRef (tref : TableRef Value)
    (tables : list ExtractedTable) (ctx : string) {struct tref}
    : list ExtractedTable :=
  match tref with
  | BaseTableRef schema_name table_name =>
      tables ++ [mkExtractedTable schema_name table_name ctx]
  | JoinRef join_left join_right _ =>
      let tables :=
        match join_left with
        | Some l => ExtractTablesFromTableRef l tables ctx
        | None => tables
        end in
      match join_right with
      | Some r => ExtractTablesFromTableRef r tables "JOIN"
      | None => tables
      end
  | SubqueryRef subquery =>
      match subquery with
      | Some (MkSelectStatement (Some n)) => ExtractTablesFromQueryNode n tables
      | _ => tables
      end
  | TableFunctionRef function =>
      (* [func.function] is cast to [FunctionExpression], which is what
         DuckDB stores there; on any other node the cast would fail *)
      match function with
      | Some (FunctionExpression _ schema function_name _ _ _) =>
          tables ++ [mkExtractedTable schema function_name "TABLE_FUNCTION"]
      | _ => tables
      end
  | OtherTableRef _ => tables
  end.

Definition ExtractTablesFromStatement (stmt : SQLStatement Value)
    (tables : list ExtractedTable) : list ExtractedTable :=
  match stmt with
  | Select (MkSelectStatement (Some node)) => ExtractTablesFromQueryNode node tables
  | _ => tables
  end.

(** ** Functions *)

Definition function_ref (function_name : string) (is_operator distinct : bool)
    : FunctionRef :=
  mkFunctionRef function_name
    (if is_operator then "operator" else if distinct then "aggregate" else "scalar").

Fixpoint ExtractFunctionsFromExpression (expr : ParsedExpression Value)
    (functions : list FunctionRef) {struct expr} : list FunctionRef :=
  match expr with
  | FunctionExpression _ _ function_name is_operator distinct children =>
      let functions := functions ++ [function_ref function_name is_operator distinct] in
      fold_left
        (fun functions child =>
           match child with
           | Some c => ExtractFunctionsFromExpression c functions
           | None => functions
           end)
        children functions
  | _ => functions
  end.

Definition extract_functions_ptr (expr : option (ParsedExpression Value))
    (functions : list FunctionRef) : list FunctionRef :=
  match expr with
  | Some e => ExtractFunctionsFromExpression e functions
  | None => functions
  end.

Definition ExtractFunctionsFromQueryNode (node : QueryNode Value)
    (functions : list FunctionRef) : list FunctionRef :=
  match node with
  | SelectNode _ select_list _ where_clause group_expressions _ =>
      let functions :=
        fold_left (fun fs expr => extract_functions_ptr expr fs) select_list functions in
      let functions := extract_functions_ptr where_clause functions in
      fold_left (fun fs expr => extract_functions_ptr expr fs) group_expressions functions
  | SetOperationNode _ _ _ => functions
  end.

Definition ExtractFunctionsFromStatement (stmt : SQLStatement Value)
    (functions : list FunctionRef) : list FunctionRef :=
  match stmt with
  | Select (MkSelectStatement (Some node)) => ExtractFunctionsFromQueryNode node functions
  | _ => functions
  end.

(** ** WHERE conditions *)

Definition where_column (cmp_left : option (ParsedExpression Value)) : string :=
  match cmp_left with
  | Some (ColumnRefExpression _ column_names) => GetColumnName column_names
  | Some l => ToString l
  | None => ""
  end.

Definition where_value (cmp_right : option (ParsedExpression Value)) : string :=
  match cmp_right with
  | Some (ConstantExpression _ v) => Value_ToString v
  | Some r => ToString r
  | None => ""
  end.

Fixpoint ExtractWhereConditions (expr : ParsedExpression Value)
    (conditions : list WhereCondition) {struct expr} : list WhereCondition :=
  match expr with
  | ConjunctionExpression _ _ children =>
      fold_left
        (fun conditions child =>
           match child with
           | Some c => ExtractWhereConditions c conditions
           | None => conditions
           end)
        children conditions
  | ComparisonExpression type _ cmp_left cmp_right =>
      conditions ++
        [mkWhereCondition (where_column cmp_left)
                          (ComparisonTypeToOperator (Comparison type))
                          (where_value cmp_right)]
  | _ => conditions
  end.

Definition extract_where_ptr (expr : option (ParsedExpression Value))
    (conditions : list WhereCondition) : list WhereCondition :=
  match expr with
  | Some e => ExtractWhereConditions e conditions
  | None => conditions
  end.

(** The statement loop of [ParseWhereBind]. *)
Definition where_of_statement (stmt : SQLStatement Value)
    (conditions : list WhereCondition) : list WhereCondition :=
  match stmt with
  | Select (MkSelectStatement (Some (SelectNode _ _ _ (Some w) _ _))) =>
      ExtractWhereConditions w conditions
  | _ => conditions
  end.

(** ** Projected column names *)

Definition ExtractColumnNames (expr : option (ParsedExpression Value))
    (index : nat) (names : list string) : list string :=
  match expr with
  | None => names
  | Some e =>
      if negb (expr_alias e =? "")%string then names ++ [expr_alias e]
      else match e with
           | ColumnRefExpression _ column_names => names ++ [GetColumnName column_names]
           | FunctionExpression _ _ function_name _ _ _ => names ++ [function_name]
           | _ => names ++ [("col" ++ to_string index)%string]
           end
  end.

(** [for (idx_t i = 0; i < select_list.size(); i++)], started at [i]. *)
Fixpoint column_loop (select_list : list (option (ParsedExpression Value)))
    (i : nat) (names : list string) : list string :=
  match select_list with
  | [] => names
  | expr :: rest => column_loop rest (S i) (ExtractColumnNames expr i names)
  end.

End Extractors.

(** ** The bind functions: parse, then run an extractor over the result *)

Section Binds.

Context {Value : Type}.
Variable Value_ToString : Value -> string.
Variable ToString : ParsedExpression Value -> string.
Variable ParseQuery : string -> ParseOutcome Value.

Record ParseTablesBindData : Type := {
  ptb_tables : list ExtractedTable;
  ptb_error : string
}.

Definition ParseTablesBind (query : string) : ParseTablesBindData :=
  match ParseQuery query with
  | Parsed statements =>
      {| ptb_tables := fold_left (fun ts stmt => ExtractTablesFromStatement stmt ts)
                                 statements [];
         ptb_error := "" |}
  | Throws what => {| ptb_tables := []; ptb_error := what |}
  end.

Record ParseFunctionsBindData : Type := {
  pfb_functions : list FunctionRef;
  pfb_error : string
}.

Definition ParseFunctionsBind (query : string) : ParseFunctionsBindData :=
  match ParseQuery query with
  | Parsed statements =>
      {| pfb_functions := fold_left (fun fs stmt => ExtractFunctionsFromStatement stmt fs)
                                    statements [];
         pfb_error := "" |}
  | Throws what => {| pfb_functions := []; pfb_error := what |}
  end.

Record ParseWhereBindData : Type := {
  pwb_conditions : list WhereCondition;
  pwb_error : string
}.

Definition ParseWhereBind (query : string) : ParseWhereBindData :=
  match ParseQuery query with
  | Parsed statements =>
      {| pwb_conditions :=
           fold_left (fun cs stmt => where_of_statement Value_ToString ToString stmt cs)
                     statements [];
         pwb_error := "" |}
  | Throws what => {| pwb_conditions := []; pwb_error := what |}
  end.

Record ParseColumnsBindData : Type := {
  col_names : list string;
  pcb_error : string
}.

(** [idx_t stmt_index = input.inputs[1].GetValue<int64_t>()]: the signed
    argument wraps into an unsigned 64-bit index. *)
Definition to_idx_t (stmt_index : Z) : Z := (stmt_index mod 2 ^ 64)%Z.

Definition ParseColumnsBind (query : string) (stmt_index : Z) : ParseColumnsBindData :=
  match ParseQuery query with
  | Parsed statements =>
      let idx := to_idx_t stmt_index in
      {| col_names :=
           if (idx <? Z.of_nat (List.length statements))%Z
           then match nth_error statements (Z.to_nat idx) with
                | Some (Select (MkSelectStatement
                                  (Some (SelectNode _ select_list _ _ _ _)))) =>
                    column_loop select_list 0 []
                | _ => []
                end
           else [];
         pcb_error := "" |}
  | Throws what => {| col_names := []; pcb_error := what |}
  end.

End Binds.

(** ** Vocabulary for the statements about the extractors *)

Section Vocabulary.

Context {Value : Type}.

(** A property of what a pointer points to; it holds of the null pointer. *)
Definition on_pointer (P : ParsedExpression Value -> Prop)
    (p : option (ParsedExpression Value)) : Prop :=
  match p with
  | Some e => P e
  | None => True
  end.

(** [e] sits somewhere inside [root], under nodes of any kind. *)
Inductive nested_in (e : ParsedExpression Value) : ParsedExpression Value -> Prop :=
| nested_here : nested_in e e
| nested_child root c :
    In (Some c) (expr_children root) -> nested_in e c -> nested_in e root.

(** [e] is a function call that is [root] itself or is reached from [root]
    through arguments of function calls only. *)
Inductive call_path (e : ParsedExpression Value) : ParsedExpression Value -> Prop :=
| call_here :
    expr_type e = FUNCTION -> call_path e e
| call_argument alias schema function_name is_operator distinct children c :
    In (Some c) children -> call_path e c ->
    call_path e (FunctionExpression alias schema function_name is_operator
                                    distinct children).

(** The record a function-call node stands for. *)
Definition ref_of (e : ParsedExpression Value) : option FunctionRef :=
  match e with
  | FunctionExpression _ _ function_name is_operator distinct _ =>
      Some (function_ref function_name is_operator distinct)
  | _ => None
  end.

(** The SELECT-list expressions, the WHERE predicate and the GROUP BY
    expressions of a SELECT statement, as the specification speaks of
    them: those of the select node, and for a set operation (UNION,
    INTERSECT, EXCEPT) those of its two sides. *)
Fixpoint clause_expressions (node : QueryNode Value) {struct node}
    : list (option (ParsedExpression Value)) :=
  match node with
  | SelectNode _ select_list _ where_clause group_expressions _ =>
      select_list ++ [where_clause] ++ group_expressions
  | SetOperationNode _ set_left set_right =>
      match set_left with
      | Some l => clause_expressions l
      | None => []
      end
      ++ match set_right with
         | Some r => clause_expressions r
         | None => []
         end
  end.


(** [((first JOIN r1) JOIN r2) ... JOIN rn] *)
Definition left_deep (first : TableRef Value) (rights : list (TableRef Value))
    : TableRef Value :=
  fold_left (fun acc r => JoinRef (Some acc) (Some r) None) rights first.

Definition base_record (ctx : string) (schema_and_table : string * string)
    : ExtractedTable :=
  mkExtractedTable (fst schema_and_table) (snd schema_and_table) ctx.

Definition base_ref (schema_and_table : string * string) : TableRef Value :=
  BaseTableRef (fst schema_and_table) (snd schema_and_table).


End Vocabulary.

(** ** The trees of the sample queries, with integer constants *)


Definition col (name : string) : ParsedExpression Z := ColumnRefExpression "" [name].

Definition star_item : ParsedExpression Z := OtherExpression STAR "" [].

(** [SELECT * FROM a JOIN b ON a.x=b.x] *)
Definition join_query : string := "SELECT * FROM a JOIN b ON a.x=b.x".
Definition join_tree : SQLStatement Z :=
  Select (MkSelectStatement (Some (SelectNode []
    [Some star_item]
    (Some (JoinRef (Some (BaseTableRef "" "a")) (Some (BaseTableRef "" "b"))
             (Some (ComparisonExpression COMPARE_EQUAL ""
                      (Some (ColumnRefExpression "" ["a"; "x"]))
                      (Some (ColumnRefExpression "" ["b"; "x"]))))))
    None [] None))).

(** [SELECT * FROM t WHERE x > 1 AND y = 2] *)
Definition where_query : string := "SELECT * FROM t WHERE x > 1 AND y = 2".
Definition where_predicate : ParsedExpression Z :=
  ConjunctionExpression CONJUNCTION_AND ""
    [Some (ComparisonExpression COMPARE_GREATERTHAN ""
             (Some (col "x")) (Some (ConstantExpression "" 1%Z)));
     Some (ComparisonExpression COMPARE_EQUAL ""
             (Some (col "y")) (Some (ConstantExpression "" 2%Z)))].
Definition where_tree : SQLStatement Z :=
  Select (MkSelectStatement (Some (SelectNode []
    [Some star_item] (Some (BaseTableRef "" "t")) (Some where_predicate) [] None))).


(** [SELECT a, b AS c, count(x) FROM t] *)
Definition columns_query : string := "SELECT a, b AS c, count(x) FROM t".
Definition columns_tree : SQLStatement Z :=
  Select (MkSelectStatement (Some (SelectNode []
    [Some (col "a");
     Some (ColumnRefExpression "c" ["b"]);
     Some (FunctionExpression "" "" "count" false false [Some (col "x")])]
    (Some (BaseTableRef "" "t")) None [] None))).

(** [SELECT lower(trim(a)) FROM t WHERE upper(x) > 1] *)
Definition calls_query : string := "SELECT lower(trim(a)) FROM t WHERE upper(x) > 1".
Definition trim_call : ParsedExpression Z :=
  FunctionExpression "" "" "trim" false false [Some (col "a")].
Definition lower_call : ParsedExpression Z :=
  FunctionExpression "" "" "lower" false false [Some trim_call].
Definition upper_call : ParsedExpression Z :=
  FunctionExpression "" "" "upper" false false [Some (col "x")].
Definition upper_comparison : ParsedExpression Z :=
  ComparisonExpression COMPARE_GREATERTHAN ""
    (Some upper_call) (Some (ConstantExpression "" 1%Z)).
Definition calls_node : QueryNode Z :=
  SelectNode [] [Some lower_call] (Some (BaseTableRef "" "t"))
             (Some upper_comparison) [] None.
Definition calls_tree : SQLStatement Z :=
  Select (MkSelectStatement (Some calls_node)).

(** [SELECT lower(a) FROM t UNION SELECT upper(x) FROM u] *)
Definition lower_a : ParsedExpression Z :=
  FunctionExpression "" "" "lower" false false [Some (col "a")].
Definition union_node : QueryNode Z :=
  SetOperationNode []
    (Some (SelectNode [] [Some lower_a] (Some (BaseTableRef "" "t")) None [] None))
    (Some (SelectNode [] [Some upper_call] (Some (BaseTableRef "" "u")) None [] None)).
Definition union_tree : SQLStatement Z :=
  Select (MkSelectStatement (Some union_node)).

(** The parser on the sample queries; any other text is rejected. *)
Definition sample_parse (query : string) : ParseOutcome Z :=
  if (query =? join_query)%string then Parsed [join_tree]
  else if (query =? where_query)%string then Parsed [where_tree]
  else if (query =? columns_query)%string then Parsed [columns_tree]
  else if (query =? calls_query)%string then Parsed [calls_tree]
  else Throws "Parser Error: syntax error".

End Extract.

(* ======================================================================= *)
(** * Statement splitter: parse_statements (parser.cpp) *)
(* ======================================================================= *)

Module Split.
Import Ast.
Local Open Scope list_scope.

Section ParseStatements.

Context {Value : Type}.

(** DuckDB's parser, its [StatementTypeToString] and its vector size. *)
Variable ParseQuery : string -> ParseOutcome Value.
Variable StatementTypeToString : SQLStatement Value -> string.
Variable STANDARD_VECTOR_SIZE : nat.

Record ParseStatementsBindData : Type := {
  query : string;
  statements : list (SQLStatement Value);
  error : string
}.

(** [try { parser.ParseQuery(query); statements = move(parser.statements); }
     catch (const Exception &e) { error = e.what(); }] *)
Definition ParseStatementsBind (q : string) : ParseStatementsBindData :=
  match ParseQuery q with
  | Parsed stmts => {| query := q; statements := stmts; error := "" |}
  | Throws what => {| query := q; statements := []; error := what |}
  end.

(** One output row; [None] is SQL NULL. *)
Record Row : Type := mkRow {
  stmt_index : Z;
  stmt_type : option string;
  row_error : option string;
  param_count : Z
}.

(** The [while] loop of [ParseStatementsFunc]: rows for the statements
    [pending], the first of which has index [idx], at most [room] of them. *)
Fixpoint statement_rows (pending : list (SQLStatement Value)) (idx : nat)
    (room : nat) : list Row :=
  match room, pending with
  | S room', stmt :: pending' =>
      mkRow (Z.of_nat idx) (Some (StatementTypeToString stmt)) None 0
        :: statement_rows pending' (S idx) room'
  | _, _ => []
  end.

(** One call: the chunk written and the new [current_idx]. *)
Definition ParseStatementsFunc (bind_data : ParseStatementsBindData)
    (current_idx : nat) : list Row * nat :=
  if negb (error bind_data =? "")%string && (current_idx =? 0)%nat
  then ([mkRow 0 None (Some (error bind_data)) 0], S current_idx)
  else
    let chunk := statement_rows (skipn current_idx (statements bind_data))
                                current_idx STANDARD_VECTOR_SIZE in
    (chunk, current_idx + List.length chunk).

(** The host calls the function until it hands back an empty chunk. *)
Fixpoint scan (fuel : nat) (bind_data : ParseStatementsBindData)
    (current_idx : nat) : option (list Row) :=
  match fuel with
  | 0 => None
  | S fuel' =>
      let '(chunk, next_idx) := ParseStatementsFunc bind_data current_idx in
      match chunk with
      | [] => Some []
      | _ => option_map (app chunk) (scan fuel' bind_data next_idx)
      end
  end.


End ParseStatements.

(** A parser small enough to run: one [SET] statement per [;], and a syntax
    error as soon as the text holds a [?]. *)
Fixpoint toy_parse (text : string) : ParseOutcome unit :=
  match text with
  | EmptyString => Parsed []
  | String c rest =>
      if (c =? "?")%char then Throws "syntax error at or near ?"
      else match toy_parse rest with
           | Parsed stmts =>
               if (c =? ";")%char then Parsed (OtherStatement SET_STATEMENT :: stmts)
               else Parsed stmts
           | Throws what => Throws what
           end
  end.

End Split.

(* ======================================================================= *)
(** * Tokenizer (tokenizer.cpp, parser.cpp) *)
(* ======================================================================= *)

Module Tokenizer.
Local Open Scope list_scope.

(** DuckDB's [SimplifiedTokenType : uint8_t]. *)
Inductive SimplifiedTokenType : Type :=
| SIMPLIFIED_TOKEN_IDENTIFIER
| SIMPLIFIED_TOKEN_NUMERIC_CONSTANT
| SIMPLIFIED_TOKEN_STRING_CONSTANT
| SIMPLIFIED_TOKEN_OPERATOR
| SIMPLIFIED_TOKEN_KEYWORD
| SIMPLIFIED_TOKEN_COMMENT
| SIMPLIFIED_TOKEN_ERROR.

Record SimplifiedToken : Type := mkSimplifiedToken {
  st_type : SimplifiedTokenType;
  st_start : Z
}.

(** tokenizer.h *)
Inductive TokenType : Type :=
| TOKEN_IDENTIFIER
| TOKEN_NUMERIC_CONSTANT
| TOKEN_STRING_CONSTANT
| TOKEN_OPERATOR
| TOKEN_KEYWORD
| TOKEN_COMMENT
| TOKEN_ERROR
| TOKEN_OUT_OF_RANGE (v : Z).

Record Token : Type := mkToken {
  type : TokenType;
  start : Z
}.

Record TokenizeResult : Type := mkTokenizeResult {
  tokens : option (list Token);
  count : Z
}.

(** [static_cast<uint8_t>(type)] *)
Definition to_uint8 (t : SimplifiedTokenType) : Z :=
  match t with
  | SIMPLIFIED_TOKEN_IDENTIFIER => 0
  | SIMPLIFIED_TOKEN_NUMERIC_CONSTANT => 1
  | SIMPLIFIED_TOKEN_STRING_CONSTANT => 2
  | SIMPLIFIED_TOKEN_OPERATOR => 3
  | SIMPLIFIED_TOKEN_KEYWORD => 4
  | SIMPLIFIED_TOKEN_COMMENT => 5
  | SIMPLIFIED_TOKEN_ERROR => 6
  end.

(** [static_cast<TokenType>(v)] *)
Definition to_TokenType (v : Z) : TokenType :=
  match v with
  | 0%Z => TOKEN_IDENTIFIER
  | 1%Z => TOKEN_NUMERIC_CONSTANT
  | 2%Z => TOKEN_STRING_CONSTANT
  | 3%Z => TOKEN_OPERATOR
  | 4%Z => TOKEN_KEYWORD
  | 5%Z => TOKEN_COMMENT
  | 6%Z => TOKEN_ERROR
  | _ => TOKEN_OUT_OF_RANGE v
  end.

(** A call either returns or lets an exception escape. *)
Inductive Outcome (A : Type) : Type :=
| Returns (result : A)
| Raises.
Arguments Returns {A}.
Arguments Raises {A}.

Section Impl.

(** [duckdb::Parser::Tokenize]: whatever the lexer does, tokens or a throw. *)
Variable Tokenize : string -> Outcome (list SimplifiedToken).

Definition convert (t : SimplifiedToken) : Token :=
  mkToken (to_TokenType (to_uint8 (st_type t))) (st_start t).

(** [query] is a [const char *]: [None] is the null pointer. *)
Definition tokenize_sql_impl (query : option string) : Outcome TokenizeResult :=
  match query with
  | None => Returns (mkTokenizeResult None 0)
  | Some q =>
      (* try { ... } catch (...) { ... } *)
      match Tokenize q with
      | Returns toks =>
          let n := Z.of_nat (List.length toks) in
          if (n >? 0)%Z
          then Returns (mkTokenizeResult (Some (map convert toks)) n)
          else Returns (mkTokenizeResult None n)
      | Raises => Returns (mkTokenizeResult None 0)
      end
  end.

(** parser.cpp, [TokenizeSqlBind]:
    [result->tokens = Parser::Tokenize(result->query)], inside no [try]. *)
Definition TokenizeSqlBind (query : string) : Outcome (list SimplifiedToken) :=
  Tokenize query.

(** The token sequence a result stands for. *)
Definition token_list (r : TokenizeResult) : list Token :=
  match tokens r with
  | Some ts => ts
  | None => []
  end.

End Impl.

Definition token_type_name (t : TokenType) : string :=
  match t with
  | TOKEN_IDENTIFIER => "IDENTIFIER"
  | TOKEN_NUMERIC_CONSTANT => "NUMERIC_CONSTANT"
  | TOKEN_STRING_CONSTANT => "STRING_CONSTANT"
  | TOKEN_OPERATOR => "OPERATOR"
  | TOKEN_KEYWORD => "KEYWORD"
  | TOKEN_COMMENT => "COMMENT"
  | TOKEN_ERROR => "ERROR"
  | TOKEN_OUT_OF_RANGE _ => "UNKNOWN"
  end.

(** parser.cpp *)
Definition TokenTypeToString (t : SimplifiedTokenType) : string :=
  match t with
  | SIMPLIFIED_TOKEN_IDENTIFIER => "IDENTIFIER"
  | SIMPLIFIED_TOKEN_NUMERIC_CONSTANT => "NUMERIC_CONSTANT"
  | SIMPLIFIED_TOKEN_STRING_CONSTANT => "STRING_CONSTANT"
  | SIMPLIFIED_TOKEN_OPERATOR => "OPERATOR"
  | SIMPLIFIED_TOKEN_KEYWORD => "KEYWORD"
  | SIMPLIFIED_TOKEN_COMMENT => "COMMENT"
  | _ => "ERROR"
  end.

(** A lexer small enough to run: one OPERATOR token per [;], an ERROR token
    per [?], and a throw on a NUL byte. *)
Fixpoint toy_tokenize_from (pos : Z) (text : string)
    : Outcome (list SimplifiedToken) :=
  match text with
  | EmptyString => Returns []
  | String c rest =>
      if (c =? zero)%char then Raises
      else match toy_tokenize_from (pos + 1) rest with
           | Raises => Raises
           | Returns toks =>
               if (c =? ";")%char
               then Returns (mkSimplifiedToken SIMPLIFIED_TOKEN_OPERATOR pos :: toks)
               else if (c =? "?")%char
                    then Returns (mkSimplifiedToken SIMPLIFIED_TOKEN_ERROR pos :: toks)
                    else Returns toks
           end
  end.




End Tokenizer.

(* ======================================================================= *)
(** * Type signature serializer (parser.c) *)
(* ======================================================================= *)

Module TypeSig.
Local Open Scope list_scope.
Local Open Scope Z_scope.

(** The ids of [duckdb_type] that carry no nested information. *)
Inductive PrimitiveType : Type :=
| DUCKDB_TYPE_INVALID
| DUCKDB_TYPE_BOOLEAN
| DUCKDB_TYPE_TINYINT
| DUCKDB_TYPE_SMALLINT
| DUCKDB_TYPE_INTEGER
| DUCKDB_TYPE_BIGINT
| DUCKDB_TYPE_UTINYINT
| DUCKDB_TYPE_USMALLINT
| DUCKDB_TYPE_UINTEGER
| DUCKDB_TYPE_UBIGINT
| DUCKDB_TYPE_FLOAT
| DUCKDB_TYPE_DOUBLE
| DUCKDB_TYPE_TIMESTAMP
| DUCKDB_TYPE_DATE
| DUCKDB_TYPE_TIME
| DUCKDB_TYPE_INTERVAL
| DUCKDB_TYPE_HUGEINT
| DUCKDB_TYPE_UHUGEINT
| DUCKDB_TYPE_VARCHAR
| DUCKDB_TYPE_BLOB
| DUCKDB_TYPE_TIMESTAMP_S
| DUCKDB_TYPE_TIMESTAMP_MS
| DUCKDB_TYPE_TIMESTAMP_NS
| DUCKDB_TYPE_UUID
| DUCKDB_TYPE_BIT
| DUCKDB_TYPE_TIME_TZ
| DUCKDB_TYPE_TIMESTAMP_TZ
| DUCKDB_TYPE_ANY
| DUCKDB_TYPE_VARINT
| DUCKDB_TYPE_SQLNULL.

Inductive duckdb_type : Type :=
| Primitive (id : PrimitiveType)
| DUCKDB_TYPE_DECIMAL
| DUCKDB_TYPE_ENUM
| DUCKDB_TYPE_LIST
| DUCKDB_TYPE_STRUCT
| DUCKDB_TYPE_MAP
| DUCKDB_TYPE_ARRAY
| DUCKDB_TYPE_UNION.

(** A [duckdb_logical_type], with what the C API accessors return for it. *)
Inductive LogicalType : Type :=
| DecimalType (width scale : Z)
| ListType (child : LogicalType)
| ArrayType (child : LogicalType) (size : Z)
| MapType (key value : LogicalType)
| StructType (children : list (string * LogicalType))
| UnionType (members : list (string * LogicalType))
| EnumType (dictionary : list string)
| PrimitiveLogicalType (id : PrimitiveType).

Definition duckdb_get_type_id (type : LogicalType) : duckdb_type :=
  match type with
  | DecimalType _ _ => DUCKDB_TYPE_DECIMAL
  | ListType _ => DUCKDB_TYPE_LIST
  | ArrayType _ _ => DUCKDB_TYPE_ARRAY
  | MapType _ _ => DUCKDB_TYPE_MAP
  | StructType _ => DUCKDB_TYPE_STRUCT
  | UnionType _ => DUCKDB_TYPE_UNION
  | EnumType _ => DUCKDB_TYPE_ENUM
  | PrimitiveLogicalType id => Primitive id
  end.

Definition TypeToString (type : duckdb_type) : string :=
  match type with
  | Primitive DUCKDB_TYPE_BOOLEAN => "BOOLEAN"
  | Primitive DUCKDB_TYPE_TINYINT => "TINYINT"
  | Primitive DUCKDB_TYPE_SMALLINT => "SMALLINT"
  | Primitive DUCKDB_TYPE_INTEGER => "INTEGER"
  | Primitive DUCKDB_TYPE_BIGINT => "BIGINT"
  | Primitive DUCKDB_TYPE_UTINYINT => "UTINYINT"
  | Primitive DUCKDB_TYPE_USMALLINT => "USMALLINT"
  | Primitive DUCKDB_TYPE_UINTEGER => "UINTEGER"
  | Primitive DUCKDB_TYPE_UBIGINT => "UBIGINT"
  | Primitive DUCKDB_TYPE_FLOAT => "FLOAT"
  | Primitive DUCKDB_TYPE_DOUBLE => "DOUBLE"
  | Primitive DUCKDB_TYPE_TIMESTAMP => "TIMESTAMP"
  | Primitive DUCKDB_TYPE_DATE => "DATE"
  | Primitive DUCKDB_TYPE_TIME => "TIME"
  | Primitive DUCKDB_TYPE_INTERVAL => "INTERVAL"
  | Primitive DUCKDB_TYPE_HUGEINT => "HUGEINT"
  | Primitive DUCKDB_TYPE_UHUGEINT => "UHUGEINT"
  | Primitive DUCKDB_TYPE_VARCHAR => "VARCHAR"
  | Primitive DUCKDB_TYPE_BLOB => "BLOB"
  | DUCKDB_TYPE_DECIMAL => "DECIMAL"
  | Primitive DUCKDB_TYPE_TIMESTAMP_S => "TIMESTAMP_S"
  | Primitive DUCKDB_TYPE_TIMESTAMP_MS => "TIMESTAMP_MS"
  | Primitive DUCKDB_TYPE_TIMESTAMP_NS => "TIMESTAMP_NS"
  | DUCKDB_TYPE_ENUM => "ENUM"
  | DUCKDB_TYPE_LIST => "LIST"
  | DUCKDB_TYPE_STRUCT => "STRUCT"
  | DUCKDB_TYPE_MAP => "MAP"
  | DUCKDB_TYPE_ARRAY => "ARRAY"
  | Primitive DUCKDB_TYPE_UUID => "UUID"
  | DUCKDB_TYPE_UNION => "UNION"
  | Primitive DUCKDB_TYPE_BIT => "BIT"
  | Primitive DUCKDB_TYPE_TIME_TZ => "TIME_TZ"
  | Primitive DUCKDB_TYPE_TIMESTAMP_TZ => "TIMESTAMP_TZ"
  | Primitive DUCKDB_TYPE_ANY => "ANY"
  | Primitive DUCKDB_TYPE_SQLNULL => "SQLNULL"
  | _ => "UNKNOWN"
  end.

(** [%d], [%u], [%lu] of a number that is not negative. *)
Definition dec (n : Z) : string :=
  NilEmpty.string_of_uint (N.to_uint (Z.to_N n)).

(** The first [n] characters. *)
Definition take (n : Z) (s : string) : string :=
  substring 0 (Z.to_nat n) s.

Definition len (s : string) : Z := Z.of_nat (String.length s).

(** [a - b] on [size_t]. *)
Definition size_sub (a b : Z) : Z := (a - b) mod 2 ^ 64.

(** A [char buf[buf_size]] being filled: the C string it holds and the
    running [offset], which grows by what [snprintf] reports, that is by the
    full length of the text even when the text was cut. *)
Record Buf : Type := mkBuf {
  content : string;
  offset : Z
}.

Definition empty_buf : Buf := mkBuf "" 0.

(** [offset += snprintf(buf + offset, buf_size - offset, text)].
    With [offset < buf_size] at most [buf_size - offset - 1] characters and
    a NUL land at [buf + offset]; with [offset = buf_size] the size is 0 and
    nothing is written; with [offset > buf_size] the size wraps around and
    the write is outside the buffer, which has no defined result: [None]. *)
Definition snprintf_at (buf_size : Z) (b : Buf) (text : string) : option Buf :=
  if buf_size <? offset b then None
  else
    let size := size_sub buf_size (offset b) in
    Some (mkBuf (if size =? 0 then content b
                 else (take (offset b) (content b) ++ take (size - 1) text)%string)
                (offset b + len text)).

(** [snprintf(buf, buf_size, text)] on a fresh buffer. *)
Definition snprintf (buf_size : Z) (text : string) : option string :=
  option_map content (snprintf_at buf_size empty_buf text).

Definition bind {A B : Type} (x : option A) (k : A -> option B) : option B :=
  match x with
  | Some a => k a
  | None => None
  end.

Notation "x <- e ;; k" := (bind e (fun x => k))
  (at level 61, e at next level, right associativity).

(** The [for] loop of the ENUM case, entered at index [i] with the
    dictionary values from [i] on. *)
Fixpoint enum_loop (buf_size : Z) (values : list string) (i : Z) (b : Buf)
    {struct values} : option Buf :=
  match values with
  | [] => Some b
  | val :: values' =>
      if (i <? 10) && (offset b <? size_sub buf_size 20)
      then
        b1 <- (if 0 <? i then snprintf_at buf_size b ", " else Some b) ;;
        b2 <- snprintf_at buf_size b1 ("'" ++ val ++ "'")%string ;;
        enum_loop buf_size values' (i + 1) b2
      else Some b
  end.

(** The [for] loop of the STRUCT and UNION cases (the same loop, written
    twice in the source), entered at index [i] with the members from [i] on;
    [serialize] is the recursive call. *)
Fixpoint members_loop (serialize : LogicalType -> Z -> option string)
    (buf_size : Z) (members : list (string * LogicalType)) (i : Z) (b : Buf)
    {struct members} : option Buf :=
  match members with
  | [] => Some b
  | (name, child) :: members' =>
      if offset b <? size_sub buf_size 10
      then
        b1 <- (if 0 <? i then snprintf_at buf_size b ", " else Some b) ;;
        child_buf <- serialize child 256 ;;
        b2 <- snprintf_at buf_size b1 (name ++ " " ++ child_buf)%string ;;
        members_loop serialize buf_size members' (i + 1) b2
      else Some b
  end.

Fixpoint SerializeLogicalType (type : LogicalType) (buf_size : Z) {struct type}
    : option string :=
  match type with
  | DecimalType width scale =>
      snprintf buf_size ("DECIMAL(" ++ dec width ++ "," ++ dec scale ++ ")")%string
  | ListType child =>
      child_buf <- SerializeLogicalType child 512 ;;
      snprintf buf_size (child_buf ++ "[]")%string
  | ArrayType child size =>
      child_buf <- SerializeLogicalType child 512 ;;
      snprintf buf_size (child_buf ++ "[" ++ dec size ++ "]")%string
  | MapType key val =>
      key_buf <- SerializeLogicalType key 256 ;;
      val_buf <- SerializeLogicalType val 256 ;;
      snprintf buf_size ("MAP(" ++ key_buf ++ ", " ++ val_buf ++ ")")%string
  | StructType children =>
      b0 <- snprintf_at buf_size empty_buf "STRUCT(" ;;
      b1 <- members_loop SerializeLogicalType buf_size children 0 b0 ;;
      b2 <- snprintf_at buf_size b1 ")" ;;
      Some (content b2)
  | UnionType members =>
      b0 <- snprintf_at buf_size empty_buf "UNION(" ;;
      b1 <- members_loop SerializeLogicalType buf_size members 0 b0 ;;
      b2 <- snprintf_at buf_size b1 ")" ;;
      Some (content b2)
  | EnumType dictionary =>
      let dict_size := Z.of_nat (List.length dictionary) in
      b0 <- snprintf_at buf_size empty_buf "ENUM(" ;;
      b1 <- enum_loop buf_size dictionary 0 b0 ;;
      b2 <- (if 10 <? dict_size
             then snprintf_at buf_size b1
                    (", ... +" ++ dec (dict_size - 10) ++ " more")%string
             else Some b1) ;;
      b3 <- snprintf_at buf_size b2 ")" ;;
      Some (content b3)
  | PrimitiveLogicalType id =>
      snprintf buf_size (TypeToString (Primitive id))
  end.

(** ** The rendering rules as the specification words them *)

Definition spec_member (render : LogicalType -> string)
    (member : string * LogicalType) : string :=
  (fst member ++ " " ++ render (snd member))%string.

Definition spec_enum_value (val : string) : string := ("'" ++ val ++ "'")%string.

Definition spec_enum_suffix (dictionary : list string) : string :=
  let omitted := (List.length dictionary - 10)%nat in
  if (10 <? List.length dictionary)%nat
  then (", ... +" ++ dec (Z.of_nat omitted) ++ " more")%string
  else "".

Fixpoint spec_render (type : LogicalType) : string :=
  match type with
  | DecimalType width scale =>
      ("DECIMAL(" ++ dec width ++ "," ++ dec scale ++ ")")%string
  | ListType child => (spec_render child ++ "[]")%string
  | ArrayType child size => (spec_render child ++ "[" ++ dec size ++ "]")%string
  | MapType key val =>
      ("MAP(" ++ spec_render key ++ ", " ++ spec_render val ++ ")")%string
  | StructType children =>
      ("STRUCT(" ++ String.concat ", " (map (spec_member spec_render) children)
                 ++ ")")%string
  | UnionType members =>
      ("UNION(" ++ String.concat ", " (map (spec_member spec_render) members)
                ++ ")")%string
  | EnumType dictionary =>
      ("ENUM(" ++ String.concat ", " (map spec_enum_value (firstn 10 dictionary))
               ++ spec_enum_suffix dictionary ++ ")")%string
  | PrimitiveLogicalType id => TypeToString (Primitive id)
  end.

(** The rendering of [type] leaves 20 bytes spare in a buffer of [buf_size]
    bytes, and so does the rendering of every nested type in the fixed
    buffer it is written to: 512 bytes for the child of a LIST or ARRAY, 256
    bytes for a MAP key or value and for a STRUCT or UNION member. *)
Fixpoint fits (type : LogicalType) (buf_size : Z) {struct type} : bool :=
  (len (spec_render type) + 20 <=? buf_size) &&
  match type with
  | ListType child | ArrayType child _ => fits child 512
  | MapType key val => fits key 256 && fits val 256
  | StructType members | UnionType members =>
      forallb (fun member => fits (snd member) 256) members
  | _ => true
  end.

(** The types directly under a type. *)
Definition subtypes (type : LogicalType) : list LogicalType :=
  match type with
  | ListType child | ArrayType child _ => [child]
  | MapType key val => [key; val]
  | StructType members | UnionType members => map snd members
  | _ => []
  end.

(** What a loop that writes [", "] before every item but the one of index 0
    has written after the items [items], the first of which has index [i]. *)
Fixpoint joined (i : Z) (items : list string) : string :=
  match items with
  | [] => ""
  | item :: items' =>
      let separator := if 0 <? i then ", " else "" in
      (separator ++ item ++ joined (i + 1) items')%string
  end.

(** Sample types. *)
Definition integer : LogicalType := PrimitiveLogicalType DUCKDB_TYPE_INTEGER.
Definition varchar : LogicalType := PrimitiveLogicalType DUCKDB_TYPE_VARCHAR.
Definition wide_struct : LogicalType := StructType (repeat ("a", integer) 100).
Definition long_enum : LogicalType :=
  EnumType (repeat "012345678901234567890123456789" 11).
Definition nested_sample : LogicalType :=
  StructType [("id", integer);
              ("tags", ListType varchar);
              ("price", DecimalType 18 3);
              ("grid", ArrayType (MapType varchar integer) 4);
              ("kind", UnionType [("n", integer); ("s", varchar)]);
              ("mood", EnumType ["a"; "b"; "c"; "d"; "e"; "f"; "g"; "h"; "i";
                                 "j"; "k"; "l"])].

End TypeSig.

(* ======================================================================= *)
(** * Vocabulary for texts given to the comment stripper *)
(* ======================================================================= *)

Module StripText.
Import Strip.

(** No character [a] directly followed by [b]. *)
Fixpoint no_pair (a b : ascii) (s : string) : bool :=
  match s with
  | EmptyString => true
  | String c rest => negb ((c =? a)%char && next_is rest b) && no_pair a b rest
  end.

(** No occurrence of the character [x]. *)
Fixpoint lacks (x : ascii) (s : string) : bool :=
  match s with
  | EmptyString => true
  | String c rest => negb (c =? x)%char && lacks x rest
  end.

(** Text with no quote and no comment opener: no ['], no double quote, no
    [--] and no [/*]; single dashes, slashes and stars are allowed. *)
Definition plain (s : string) : bool :=
  lacks squote s && lacks dquote s
  && no_pair dash dash s && no_pair slash star s.

(** The last character of [s] is [x]. *)
Fixpoint ends_with (x : ascii) (s : string) : bool :=
  match s with
  | EmptyString => false
  | String c EmptyString => (c =? x)%char
  | String _ rest => ends_with x rest
  end.

Definition line_open : string := "--".
Definition block_open : string := "/*".
Definition block_close : string := "*/".

End StripText.

(* ======================================================================= *)
(** * Keywords (parser.c) *)
(* ======================================================================= *)

Module Keywords.
Local Open Scope list_scope.

(** [GetString]: [strndup] of the bytes of a [duckdb_string_t], which stops
    at the first NUL byte. *)
Definition GetString (value : string) : string :=
  substring 0 (Strip.strlen value) value.

Definition SQL_KEYWORDS : list string :=
  ["ALL"; "ALTER"; "AND"; "ANY"; "AS"; "ASC"; "BETWEEN"; "BY"; "CASE";
   "CAST"; "CHECK"; "COLUMN"; "CONSTRAINT"; "CREATE"; "CROSS";
   "CURRENT_DATE"; "CURRENT_TIME"; "CURRENT_TIMESTAMP"; "DEFAULT";
   "DELETE"; "DESC"; "DISTINCT"; "DROP"; "ELSE"; "END"; "EXCEPT"; "EXISTS";
   "FALSE"; "FILTER"; "FOLLOWING"; "FOR"; "FOREIGN"; "FROM"; "FULL";
   "GROUP"; "HAVING"; "IF"; "IN"; "INDEX"; "INNER"; "INSERT"; "INTERSECT";
   "INTO"; "IS"; "JOIN"; "KEY"; "LEFT"; "LIKE"; "LIMIT"; "NATURAL"; "NOT";
   "NULL"; "OFFSET"; "ON"; "OR"; "ORDER"; "OUTER"; "OVER"; "PARTITION";
   "PRECEDING"; "PRIMARY"; "QUALIFY"; "RANGE"; "RECURSIVE"; "REFERENCES";
   "RETURNING"; "RIGHT"; "ROWS"; "SELECT"; "SET"; "TABLE"; "THEN"; "TRUE";
   "UNBOUNDED"; "UNION"; "UNIQUE"; "UPDATE"; "USING"; "VALUES"; "WHEN";
   "WHERE"; "WINDOW"; "WITH"].

(** Between ['a'] and ['z']. *)
Definition is_lower (c : ascii) : bool :=
  (97 <=? nat_of_ascii c)%nat && (nat_of_ascii c <=? 122)%nat.

(** A lower-case letter is moved down by 32. *)
Definition to_upper (c : ascii) : ascii :=
  if is_lower c then ascii_of_nat (nat_of_ascii c - 32) else c.

(** The loop over [identifier] up to its terminating NUL. *)
Fixpoint uppercase (identifier : string) : string :=
  match identifier with
  | EmptyString => EmptyString
  | String c rest =>
      if (c =? zero)%char then identifier
      else String (to_upper c) (uppercase rest)
  end.

(** One valid row of [IsKeywordFunction]: the search loop with its [break]
    is [existsb]; [strcmp(a, b) == 0] is equality of C strings. *)
Definition IsKeywordFunction (value : string) : bool :=
  let identifier := uppercase (GetString value) in
  existsb (fun keyword => (identifier =? keyword)%string) SQL_KEYWORDS.

(** Two texts of the same length that differ at most in the case of ASCII
    letters. *)
Definition same_but_case (c d : ascii) : bool :=
  (c =? d)%char
  || (is_lower c && (d =? ascii_of_nat (nat_of_ascii c - 32))%char)
  || (is_lower d && (c =? ascii_of_nat (nat_of_ascii d - 32))%char).

Fixpoint differ_in_case_only (s t : string) : bool :=
  match s, t with
  | EmptyString, EmptyString => true
  | String c s', String d t' => same_but_case c d && differ_in_case_only s' t'
  | _, _ => false
  end.

(** An ASCII letter or an underscore. *)
Definition is_word_char (c : ascii) : bool :=
  let n := nat_of_ascii c in
  ((65 <=? n)%nat && (n <=? 90)%nat) || ((97 <=? n)%nat && (n <=? 122)%nat)
  || (n =? 95)%nat.

Fixpoint all_chars (p : ascii -> bool) (s : string) : bool :=
  match s with
  | EmptyString => true
  | String c rest => p c && all_chars p rest
  end.

End Keywords.

(* ======================================================================= *)
(** * The queries the C layer builds around the user's text (parser.c) *)
(* ======================================================================= *)

Module PlanQuery.
Import TypeSig.
Local Open Scope Z_scope.

Definition plan_header : string := "SELECT json_serialize_plan('".
Definition plan_suffix : string := "')".
Definition names_header : string := "WITH plan AS (SELECT json_serialize_plan('".
Definition names_suffix : string :=
  ("') as j) " ++
   "SELECT DISTINCT json_extract_string(t.value, '$.name') as name " ++
   "FROM plan, json_tree(j) t " ++
   "WHERE json_extract_string(t.value, '$.expression_class') IN ('BOUND_AGGREGATE', 'BOUND_FUNCTION') " ++
   "  AND json_extract_string(t.value, '$.name') IS NOT NULL")%string.
Definition functions_suffix : string :=
  ("') as j) " ++
   "SELECT DISTINCT " ++
   "  json_extract_string(t.value, '$.name') as name, " ++
   "  CASE WHEN json_extract_string(t.value, '$.expression_class') = 'BOUND_AGGREGATE' " ++
   "       THEN 'aggregate' ELSE 'scalar' END as type " ++
   "FROM plan, json_tree(j) t " ++
   "WHERE json_extract_string(t.value, '$.expression_class') IN ('BOUND_AGGREGATE', 'BOUND_FUNCTION') " ++
   "  AND json_extract_string(t.value, '$.name') IS NOT NULL")%string.
Definition where_suffix : string :=
  ("') as j) " ++
   "SELECT " ++
   "  COALESCE(json_extract_string(t.value, '$.left.alias'), '') as col, " ++
   "  CASE json_extract_string(t.value, '$.type') " ++
   "    WHEN 'COMPARE_GREATERTHAN' THEN '>' " ++
   "    WHEN 'COMPARE_LESSTHAN' THEN '<' " ++
   "    WHEN 'COMPARE_EQUAL' THEN '=' " ++
   "    WHEN 'COMPARE_NOTEQUAL' THEN '!=' " ++
   "    WHEN 'COMPARE_GREATERTHANOREQUALTO' THEN '>=' " ++
   "    WHEN 'COMPARE_LESSTHANOREQUALTO' THEN '<=' " ++
   "    ELSE json_extract_string(t.value, '$.type') " ++
   "  END as op, " ++
   "  COALESCE(" ++
   "    json_extract_string(t.value, '$.right.child.value.value')::VARCHAR, " ++
   "    json_extract(t.value, '$.right.child.value.value')::VARCHAR, " ++
   "    ''" ++
   "  ) as val " ++
   "FROM plan, json_tree(j) t " ++
   "WHERE json_extract_string(t.value, '$.expression_class') = 'BOUND_COMPARISON'")%string.

(** The same code, six times in the source, with different constants:
    [size = sql_len * 2 + slack], a header written with [snprintf], the loop
    [for (i = 0; i < sql_len && j < size - guard; i++)] that doubles every
    single quote, and a suffix written with [snprintf]. *)
Record QueryShape : Type := mkQueryShape {
  header : string;
  suffix : string;
  slack : Z;
  guard : Z
}.

(** [SqlParseJsonFunction], [ParseTablesBind], [ParseTableNamesFunction] *)
Definition plan_shape : QueryShape := mkQueryShape plan_header plan_suffix 100 10.
(** [ParseFunctionNamesFunction] *)
Definition names_shape : QueryShape := mkQueryShape names_header names_suffix 500 200.
(** [ParseFunctionsBind] *)
Definition functions_shape : QueryShape :=
  mkQueryShape names_header functions_suffix 500 200.
(** [ParseWhereBind] *)
Definition where_shape : QueryShape := mkQueryShape names_header where_suffix 1000 500.

Definition shapes : list QueryShape :=
  [plan_shape; names_shape; functions_shape; where_shape].

(** [buf[j++] = c]: defined when [j] is inside the buffer. *)
Definition poke (size : Z) (b : Buf) (c : ascii) : option Buf :=
  if (0 <=? offset b) && (offset b <? size)
  then Some (mkBuf (take (offset b) (content b) ++ String c EmptyString)%string
                   (offset b + 1))
  else None.

Fixpoint escape_loop (size guard : Z) (sql : string) (b : Buf) {struct sql}
    : option Buf :=
  match sql with
  | EmptyString => Some b
  | String c rest =>
      if offset b <? size_sub size guard
      then
        if (c =? "'")%char
        then
          b1 <- poke size b "'"%char ;;
          b2 <- poke size b1 "'"%char ;;
          escape_loop size guard rest b2
        else
          b1 <- poke size b c ;;
          escape_loop size guard rest b1
      else Some b
  end.

Definition build_query (shape : QueryShape) (sql : string) : option string :=
  let sql_len := Z.of_nat (Strip.strlen sql) in
  let size := (sql_len * 2 + slack shape) mod 2 ^ 64 in
  b0 <- snprintf_at size empty_buf (header shape) ;;
  b1 <- escape_loop size (guard shape)
          (substring 0 (Strip.strlen sql) sql) b0 ;;
  b2 <- snprintf_at size b1 (suffix shape) ;;
  Some (content b2).

(** Every single quote doubled, nothing else changed. *)
Fixpoint sql_escape (s : string) : string :=
  match s with
  | EmptyString => EmptyString
  | String c rest =>
      if (c =? "'")%char
      then String "'" (String "'" (sql_escape rest))
      else String c (sql_escape rest)
  end.

End PlanQuery.

(* ======================================================================= *)
(** * Reading table names off the serialized plan (parser.c) *)
(* ======================================================================= *)

Module JsonScan.
Import Strip StripText.
Local Open Scope list_scope.

(** [strstr]: the rest of the text from the first occurrence of [needle]. *)
Fixpoint strstr (haystack needle : string) : option string :=
  if prefix needle haystack then Some haystack
  else match haystack with
       | EmptyString => None
       | String _ rest => strstr rest needle
       end.

(** [strchr]: the rest of the text from the first occurrence of [c]. *)
Fixpoint strchr (s : string) (c : ascii) : option string :=
  match s with
  | EmptyString => None
  | String x rest => if (x =? c)%char then Some s else strchr rest c
  end.

(** [p += n] *)
Fixpoint advance (n : nat) (p : string) : string :=
  match n, p with
  | S n', String _ rest => advance n' rest
  | _, _ => p
  end.

(** [end - start] for [end] pointing into the text at [start]. *)
Definition distance (start finish : string) : nat :=
  String.length start - String.length finish.

(** The bytes of [start] up to [finish], as [malloc], [memcpy] and the
    terminating NUL copy them. *)
Definition copy_until (start finish : string) : string :=
  substring 0 (distance start finish) start.

Definition key (name : string) : string :=
  String dquote (name ++ String dquote (String ":" EmptyString)).

(** The needles of the source. *)
Definition table_tag : string := key "table" ++ String dquote EmptyString.
Definition schema_tag : string := key "schema" ++ String dquote EmptyString.
Definition function_data_tag : string := key "function_data".
Definition logical_get_tag : string :=
  key "type" ++ String dquote ("LOGICAL_GET" ++ String dquote EmptyString).

(** The inner loop of [ParseTableNamesFunction]; [names] is what has been
    put in the list so far.  [None] only when [fuel] runs out. *)
Fixpoint table_names_loop (fuel : nat) (pos : string) (names : list string)
    : option (list string) :=
  match fuel with
  | 0 => None
  | S fuel' =>
      match strstr pos table_tag with
      | None => Some names
      | Some found =>
          let pos := advance 9 found in
          match strchr pos dquote with
          | Some finish =>
              let name_len := distance pos finish in
              let names :=
                if (0 <? name_len)%nat && (name_len <? 256)%nat
                then names ++ [copy_until pos finish]
                else names in
              table_names_loop fuel' finish names
          | None => Some names
          end
      end
  end.

Definition table_names (plan_json : string) : option (list string) :=
  table_names_loop (S (String.length plan_json)) plan_json [].

Record TableRow : Type := mkTableRow {
  row_schema : string;
  row_table : string;
  row_context : string
}.

(** The schema lookup of [ExtractTablesFromJson]. *)
Definition find_schema (fd_start : string) : option string :=
  match strstr fd_start schema_tag with
  | Some schema_start =>
      if (distance fd_start schema_start <? 500)%nat
      then
        let schema_start := advance 10 schema_start in
        match strchr schema_start dquote with
        | Some schema_end => Some (copy_until schema_start schema_end)
        | None => None
        end
      else None
  | None => None
  end.

(** What one LOGICAL_GET node adds to the rows. *)
Definition add_table (fd_start context : string) (rows : list TableRow)
    : list TableRow :=
  match strstr fd_start table_tag with
  | Some table_start =>
      if (distance fd_start table_start <? 500)%nat
      then
        let table_start := advance 9 table_start in
        match strchr table_start dquote with
        | Some table_end =>
            let table_name := copy_until table_start table_end in
            let schema :=
              match find_schema fd_start with
              | Some schema => schema
              | None => "main"
              end in
            rows ++ [mkTableRow schema table_name context]
        | None => rows
        end
      else rows
  | None => rows
  end.

(** [ExtractTablesFromJson]; [None] only when [fuel] runs out. *)
Fixpoint extract_tables_loop (fuel : nat) (pos context : string)
    (rows : list TableRow) : option (list TableRow) :=
  match fuel with
  | 0 => None
  | S fuel' =>
      match strstr pos logical_get_tag with
      | None => Some rows
      | Some pos =>
          match strstr pos function_data_tag with
          | None => extract_tables_loop fuel' (skip pos) context rows
          | Some fd_start =>
              if (2000 <? distance pos fd_start)%nat
              then extract_tables_loop fuel' (skip pos) context rows
              else extract_tables_loop fuel' (skip pos) context
                     (add_table fd_start context rows)
          end
      end
  end.

Definition ExtractTablesFromJson (json context : string) : option (list TableRow) :=
  extract_tables_loop (S (String.length json)) json context [].

(** A name of the list: not empty, shorter than 256, without a quote. *)
Definition good_name (name : string) : Prop :=
  0 < String.length name < 256 /\ lacks dquote name = true.

(** A row whose context is [context] and whose names hold no quote. *)
Definition good_row (context : string) (row : TableRow) : Prop :=
  row_context row = context
  /\ lacks dquote (row_table row) = true
  /\ lacks dquote (row_schema row) = true.

(** A sample of a serialized plan, cut down to what the scan looks at. *)
Definition sample_plan : string :=
  "{" ++ key "type" ++ String dquote ("LOGICAL_GET" ++ String dquote ("," ++
  key "function_data" ++ "{" ++ key "table" ++ String dquote ("orders" ++
  String dquote ("," ++ key "schema" ++ String dquote ("shop" ++
  String dquote "}}"))))).

End JsonScan.

(* ======================================================================= *)
(** * The loop every table function hands its rows out with *)
(* ======================================================================= *)

Module Chunk.
Local Open Scope list_scope.

Section Loop.

(** What the bind data holds, how element [i] becomes a row, and how many
    rows the host takes at a time. *)
Variables Item Row : Type.
Variable render : nat -> Item -> Row.
Variable max_count : nat.

(** [while (current_idx < n && count < max_count)
       { write row count from element current_idx; count++; current_idx++; }]
    over the elements [pending] from [idx] on, with [room] rows left. *)
Fixpoint chunk_rows (pending : list Item) (idx room : nat) : list Row :=
  match room, pending with
  | S room', item :: pending' =>
      render idx item :: chunk_rows pending' (S idx) room'
  | _, _ => []
  end.

(** One call: the chunk and the new [current_idx]. *)
Definition table_func (items : list Item) (current_idx : nat) : list Row * nat :=
  let chunk := chunk_rows (skipn current_idx items) current_idx max_count in
  (chunk, current_idx + List.length chunk).

(** The host calls until a chunk comes back empty. *)
Fixpoint scan (fuel : nat) (items : list Item) (current_idx : nat)
    : option (list Row) :=
  match fuel with
  | 0 => None
  | S fuel' =>
      let '(chunk, next_idx) := table_func items current_idx in
      match chunk with
      | [] => Some []
      | _ => option_map (app chunk) (scan fuel' items next_idx)
      end
  end.

End Loop.

Arguments chunk_rows {Item Row}.
Arguments table_func {Item Row}.
Arguments scan {Item Row}.

End Chunk.

(* ======================================================================= *)
(** * The remaining functions of parser.cpp *)
(* ======================================================================= *)

Module Api.
Import Ast Extract.
Local Open Scope list_scope.

Section Functions.

Context {Value : Type}.
Variable ParseQuery : string -> ParseOutcome Value.
Variable STANDARD_VECTOR_SIZE : nat.

(** [try { parser.ParseQuery(query); return true; } catch (...) { return false; }] *)
Definition IsValidSqlFunc (query : string) : bool :=
  match ParseQuery query with
  | Parsed _ => true
  | Throws _ => false
  end.

(** A valid row of [SqlErrorMessageFunc]; [None] is SQL NULL. *)
Definition SqlErrorMessageFunc (query : string) : option string :=
  match ParseQuery query with
  | Parsed _ => None
  | Throws what => Some what
  end.

Definition NumStatementsFunc (query : string) : Z :=
  match ParseQuery query with
  | Parsed statements => Z.of_nat (List.length statements)
  | Throws _ => 0%Z
  end.

(** The list a row of [ParseTableNamesFunc] holds. *)
Definition ParseTableNamesFunc (query : string) : list string :=
  let tables :=
    match ParseQuery query with
    | Parsed statements =>
        fold_left (fun ts stmt => ExtractTablesFromStatement stmt ts) statements []
    | Throws _ => []
    end in
  map et_table tables.

Definition ParseFunctionNamesFunc (query : string) : list string :=
  let functions :=
    match ParseQuery query with
    | Parsed statements =>
        fold_left (fun fs stmt => ExtractFunctionsFromStatement stmt fs) statements []
    | Throws _ => []
    end in
  map fr_name functions.

(** [ParseTablesFunc]: an empty schema is handed out as NULL. *)
Definition table_row (index : nat) (t : ExtractedTable)
    : option string * string * string :=
  (if (et_schema t =? "")%string then None else Some (et_schema t),
   et_table t, et_context t).

Definition ParseTablesFunc (bind_data : ParseTablesBindData) :=
  Chunk.table_func table_row STANDARD_VECTOR_SIZE (ptb_tables bind_data).

Definition function_row (index : nat) (f : FunctionRef) : string * string :=
  (fr_name f, fr_type f).

Definition ParseFunctionsFunc (bind_data : ParseFunctionsBindData) :=
  Chunk.table_func function_row STANDARD_VECTOR_SIZE (pfb_functions bind_data).

Definition where_row (index : nat) (c : WhereCondition) : string * string * string :=
  (column_name c, op c, value c).

Definition ParseWhereFunc (bind_data : ParseWhereBindData) :=
  Chunk.table_func where_row STANDARD_VECTOR_SIZE (pwb_conditions bind_data).

(** [ParseColumnsFunc]: the index column is [current_idx]. *)
Definition column_row (index : nat) (name : string) : Z * string :=
  (Z.of_nat index, name).

Definition ParseColumnsFunc (bind_data : ParseColumnsBindData) :=
  Chunk.table_func column_row STANDARD_VECTOR_SIZE (col_names bind_data).

(** [TokenizeSqlFunc] *)
Definition token_row (index : nat) (token : Tokenizer.SimplifiedToken)
    : Z * string :=
  (Tokenizer.st_start token, Tokenizer.TokenTypeToString (Tokenizer.st_type token)).

Definition TokenizeSqlFunc (tokens : list Tokenizer.SimplifiedToken) :=
  Chunk.table_func token_row STANDARD_VECTOR_SIZE tokens.

End Functions.

(** The labels and kinds the extractors can give. *)
Definition known_context (t : ExtractedTable) : Prop :=
  et_context t = "FROM" \/ et_context t = "JOIN" \/ et_context t = "TABLE_FUNCTION".

Definition known_context_label (ctx : string) : Prop :=
  ctx = "FROM" \/ ctx = "JOIN" \/ ctx = "TABLE_FUNCTION".

Definition known_kind (f : FunctionRef) : Prop :=
  fr_type f = "operator" \/ fr_type f = "aggregate" \/ fr_type f = "scalar".

(** A property of what an optional value holds. *)
Definition on_some {A : Type} (P : A -> Prop) (o : option A) : Prop :=
  match o with
  | Some a => P a
  | None => True
  end.

Definition node_of_subquery {Value : Type} (subquery : option (SelectStatement Value))
    : option (QueryNode Value) :=
  match subquery with
  | Some (MkSelectStatement (Some n)) => Some n
  | _ => None
  end.

Definition cte_map_of {Value : Type} (node : QueryNode Value)
    : list (string * option (CommonTableExpressionInfo Value)) :=
  match node with
  | SelectNode cte_map _ _ _ _ _ => cte_map
  | SetOperationNode cte_map _ _ => cte_map
  end.

Definition from_of {Value : Type} (node : QueryNode Value) : option (TableRef Value) :=
  match node with
  | SelectNode _ _ from_table _ _ _ => from_table
  | SetOperationNode _ _ _ => None
  end.

(** The pointers a table reference and a query node own. *)
Definition table_of_cte {Value : Type}
    (entry : string * option (CommonTableExpressionInfo Value))
    : option (QueryNode Value) :=
  match entry with
  | (_, Some (MkCommonTableExpressionInfo (Some (MkSelectStatement (Some n))))) =>
      Some n
  | _ => None
  end.

End Api.

(** * The tokenizer table function of parser.c

    [TokenizeSqlBind] and [TokenizeSqlFunc] of the C layer, which go
    through [tokenize_sql_impl] and [token_type_name]. *)

Module CTokens.
Import Tokenizer.
Local Open Scope list_scope.

Section Functions.

Variable Tokenize : string -> Outcome (list SimplifiedToken).

(** [duckdb_vector_size()] *)
Variable max_count : nat.

(** [(int32_t)start] of a [uint64_t]. *)
Definition to_int32 (v : Z) : Z := ((v + 2 ^ 31) mod 2 ^ 32 - 2 ^ 31)%Z.

(** The bind data is zeroed, and filled from the C string that
    [duckdb_get_varchar] hands over when it hands one over; the
    [std::string] that [tokenize_sql_impl] builds from it ends at the first
    NUL byte. *)
Definition TokenizeSqlBind (sql : option string) : Outcome TokenizeResult :=
  match sql with
  | Some s => tokenize_sql_impl Tokenize (Some (substring 0 (Strip.strlen s) s))
  | None => Returns (mkTokenizeResult None 0)
  end.

Definition token_row (index : nat) (token : Token) : Z * string :=
  (to_int32 (start token), token_type_name (type token)).

(** [while (init->current_idx < bind->result.count && count < max_count)]
    over [bind->result.tokens]. *)
Definition TokenizeSqlFunc (result : TokenizeResult) (current_idx : nat)
    : list (Z * string) * nat :=
  Chunk.table_func token_row max_count
    (firstn (Z.to_nat (count result)) (token_list result)) current_idx.

End Functions.

End CTokens.

(** * The keyword table function of parser.c *)

Module KeywordTable.
Import Keywords.
Local Open Scope list_scope.

(** [SqlKeywordsFunc]: row [count] of a chunk is
    [SQL_KEYWORDS[init->current_idx]]. *)
Definition keyword_row (index : nat) (keyword : string) : string := keyword.

Definition SqlKeywordsFunc (max_count : nat) (current_idx : nat)
    : list string * nat :=
  Chunk.table_func keyword_row max_count SQL_KEYWORDS current_idx.

(** No text occurs twice. *)
Fixpoint distinct (l : list string) : bool :=
  match l with
  | [] => true
  | s :: rest => negb (existsb (String.eqb s) rest) && distinct rest
  end.

End KeywordTable.

(* ======================================================================= *)
(** * Properties of the comment stripper *)
(* ======================================================================= *)

Section StripFacts.
Import Strip.

Lemma string_length_ind (P : string -> Prop) :
  (forall s, (forall t, String.length t < String.length s -> P t) -> P s) ->
  forall s, P s.
Proof.
  intros step s.
  remember (String.length s) as n eqn:Hn.
  revert s Hn.
  induction n as [n IH] using lt_wf_ind.
  intros s ->. apply step. intros t Ht. exact (IH _ Ht t eq_refl).
Qed.

Lemma skip_length rest : String.length (skip rest) <= String.length rest.
Proof. destruct rest; simpl; lia. Qed.

Lemma next_char_is rest x :
  x <> zero -> (next_char rest =? x)%char = next_is rest x.
Proof.
  intros Hx. destruct rest as [|n r]; cbn [next_char next_is]; [|reflexivity].
  apply Ascii.eqb_neq. congruence.
Qed.

Lemma next_is_alt rest x :
  next_is rest x = negb (at_end rest) && (next_char rest =? x)%char.
Proof. destruct rest; reflexivity. Qed.

Lemma next_char_is_or_end rest q :
  negb (at_end rest || negb (next_char rest =? q)%char) = next_is rest q.
Proof. destruct rest; cbn; [reflexivity|apply negb_involutive]. Qed.

(** The two loops agree from every state, on every text. *)
Lemma scan_equiv : forall sql st, c_scan st sql = cpp_scan st sql.
Proof.
  induction sql as [sql IH] using string_length_ind.
  intros st. destruct sql as [|c rest]; [reflexivity|].
  assert (Hrest : forall st', c_scan st' rest = cpp_scan st' rest)
    by (intros; apply IH; simpl; lia).
  assert (Hskip : forall st', c_scan st' (skip rest) = cpp_scan st' (skip rest))
    by (intros; apply IH; pose proof (skip_length rest); simpl; lia).
  destruct st as [| | |q]; cbn [c_scan cpp_scan].
  - rewrite !next_char_is by discriminate.
    rewrite !Hrest, !Hskip.
    destruct (Ascii.eqb_spec c squote) as [->|Hs]; [reflexivity|].
    destruct (Ascii.eqb_spec c dquote) as [->|Hd]; [reflexivity|].
    reflexivity.
  - rewrite !Hrest. reflexivity.
  - rewrite next_char_is by discriminate. rewrite Hrest, Hskip. reflexivity.
  - rewrite !Hrest, !Hskip. rewrite (next_is_alt rest q).
    destruct (c =? q)%char, (at_end rest), (next_char rest =? q)%char; reflexivity.
Qed.

(** The scanner only drops characters. *)
Lemma scan_length : forall s st,
  String.length (cpp_scan st s) <= String.length s.
Proof.
  induction s as [s IH] using string_length_ind.
  intros st. destruct s as [|c rest]; [reflexivity|].
  assert (Hr : forall st', String.length (cpp_scan st' rest) <= String.length rest)
    by (intros; apply IH; simpl; lia).
  assert (Hk : forall st', String.length (cpp_scan st' (skip rest))
                           <= String.length rest - (if at_end rest then 0 else 1)).
  { intros st'. destruct rest as [|n r]; [cbn; lia|].
    cbn [skip at_end String.length]. rewrite Nat.sub_succ, Nat.sub_0_r.
    apply IH. simpl. lia. }
  destruct st as [| | |q]; cbn [cpp_scan].
  - destruct ((c =? dash)%char && (next_char rest =? dash)%char);
      [specialize (Hk InLineComment); simpl; lia|].
    destruct ((c =? slash)%char && (next_char rest =? star)%char);
      [specialize (Hk InBlockComment); simpl; lia|].
    destruct ((c =? squote)%char || (c =? dquote)%char);
      cbn [String.length]; [specialize (Hr (InString c))|specialize (Hr Normal)]; lia.
  - destruct (c =? newline)%char; cbn [String.length];
      [specialize (Hr Normal)|specialize (Hr InLineComment)]; lia.
  - destruct ((c =? star)%char && (next_char rest =? slash)%char);
      [specialize (Hk Normal)|specialize (Hr InBlockComment)]; simpl; lia.
  - destruct (c =? q)%char; cbn [andb].
    + destruct (at_end rest) eqn:He; cbn [orb].
      * cbn [String.length]. specialize (Hr Normal). lia.
      * destruct (negb (next_char rest =? q)%char); cbn [String.length].
        -- specialize (Hr Normal). lia.
        -- specialize (Hk (InString q)).
           destruct rest; [discriminate|]. cbn [String.length] in *. lia.
    + cbn [String.length]. specialize (Hr (InString q)). lia.
Qed.

(** ** C strings *)

Lemma c_str_id s : nul_free s = true -> substring 0 (strlen s) s = s.
Proof.
  induction s as [|c rest IH]; [reflexivity|].
  cbn [nul_free strlen]. intros H. apply andb_true_iff in H as [Hc Hr].
  apply negb_true_iff in Hc. rewrite Hc. cbn [substring]. now rewrite IH.
Qed.

Lemma c_str_nul_free s : nul_free (substring 0 (strlen s) s) = true.
Proof.
  induction s as [|c rest IH]; [reflexivity|].
  cbn [strlen]. destruct (c =? zero)%char eqn:Hc; [reflexivity|].
  cbn [substring nul_free]. now rewrite Hc, IH.
Qed.

Lemma nul_free_rest c rest :
  nul_free (String c rest) = true -> c <> zero /\ nul_free rest = true.
Proof.
  cbn [nul_free]. intros H. apply andb_true_iff in H as [Hc Hr].
  apply negb_true_iff, Ascii.eqb_neq in Hc. auto.
Qed.

Lemma nul_free_cons c rest :
  c <> zero -> nul_free rest = true -> nul_free (String c rest) = true.
Proof.
  intros Hc Hr. cbn [nul_free]. apply Ascii.eqb_neq in Hc. now rewrite Hc, Hr.
Qed.

Lemma nul_free_skip rest : nul_free rest = true -> nul_free (skip rest) = true.
Proof.
  destruct rest as [|c r]; [auto|]. intros H. apply nul_free_rest in H. apply H.
Qed.

(** The scanner only copies: its output has no NUL when its input has none. *)
Lemma scan_nul_free : forall s st,
  nul_free s = true -> nul_free (cpp_scan st s) = true.
Proof.
  induction s as [s IH] using string_length_ind.
  intros st Hs. destruct s as [|c rest]; [reflexivity|].
  pose proof (nul_free_rest _ _ Hs) as [Hc Hr].
  pose proof (nul_free_skip _ Hr) as Hk.
  assert (Lr : String.length rest < String.length (String c rest)) by (simpl; lia).
  assert (Lk : String.length (skip rest) < String.length (String c rest))
    by (pose proof (skip_length rest); simpl; lia).
  destruct st as [| | |q]; cbn [cpp_scan].
  - destruct ((c =? dash)%char && (next_char rest =? dash)%char); [now apply IH|].
    destruct ((c =? slash)%char && (next_char rest =? star)%char); [now apply IH|].
    destruct ((c =? squote)%char || (c =? dquote)%char);
      apply nul_free_cons; auto.
  - destruct (c =? newline)%char; [apply nul_free_cons|]; auto.
  - destruct ((c =? star)%char && (next_char rest =? slash)%char); auto.
  - destruct (c =? q)%char; cbn [andb]; [|apply nul_free_cons; auto].
    destruct rest as [|n r]; cbn [at_end next_char skip orb] in *;
      [apply nul_free_cons; auto|].
    pose proof (nul_free_rest _ _ Hr) as [Hn Hr'].
    destruct (negb (n =? q)%char); repeat apply nul_free_cons; auto.
Qed.

(** ** Texts without a block comment *)

Lemma no_block_open_rest c rest :
  no_block_open (String c rest) = true ->
  ((c =? slash)%char && next_is rest star = false) /\ no_block_open rest = true.
Proof.
  cbn [no_block_open]. intros H. apply andb_true_iff in H as [H1 H2].
  apply negb_true_iff in H1. auto.
Qed.

Lemma no_block_open_skip rest :
  no_block_open rest = true -> no_block_open (skip rest) = true.
Proof.
  destruct rest as [|c r]; [auto|]. intros H.
  apply no_block_open_rest in H. apply H.
Qed.

Lemma no_block_open_c_str s :
  no_block_open s = true -> no_block_open (substring 0 (strlen s) s) = true.
Proof.
  induction s as [|c rest IH]; [reflexivity|].
  intros H. apply no_block_open_rest in H as [Hb Hr].
  cbn [strlen]. destruct (c =? zero)%char; [reflexivity|].
  cbn [substring no_block_open]. rewrite (IH Hr), andb_true_r.
  apply negb_true_iff.
  destruct (c =? slash)%char; [|reflexivity]. cbn [andb] in *.
  destruct rest as [|n r]; [reflexivity|].
  cbn [strlen next_is] in *. destruct (Ascii.eqb_spec n zero) as [->|Hn];
    [reflexivity|exact Hb].
Qed.

(** A line comment leaves nothing, or a newline and then ordinary text. *)
Lemma line_comment_shape : forall s,
  cpp_scan InLineComment s = EmptyString \/
  exists r, String.length r < String.length s /\
            (no_block_open s = true -> no_block_open r = true) /\
            cpp_scan InLineComment s = String newline (cpp_scan Normal r).
Proof.
  induction s as [|c rest IH]; [left; reflexivity|].
  cbn [cpp_scan].
  destruct (Ascii.eqb_spec c newline) as [->|Hc].
  - right. exists rest. split; [simpl; lia|]. split; [|reflexivity].
    intros H. apply no_block_open_rest in H. apply H.
  - destruct IH as [IH|(r & Hlen & Hnb & Heq)]; [left; exact IH|].
    right. exists r. split; [simpl; lia|]. split; [|exact Heq].
    intros H. apply Hnb. apply no_block_open_rest in H. apply H.
Qed.

(** The first character that comes out is the first that went in, or the
    newline that closed a line comment. *)
Lemma scan_head s :
  no_block_open s = true ->
  match cpp_scan Normal s with
  | EmptyString => True
  | String y _ => y = newline \/ exists tl, s = String y tl
  end.
Proof.
  destruct s as [|c rest]; [exact (fun _ => I)|].
  intros H. apply no_block_open_rest in H as [Hb _].
  cbn [cpp_scan].
  destruct ((c =? dash)%char && (next_char rest =? dash)%char).
  - destruct (line_comment_shape (skip rest)) as [->|(r & _ & _ & ->)]; auto.
  - rewrite next_char_is by discriminate. rewrite Hb.
    destruct ((c =? squote)%char || (c =? dquote)%char); right; eauto.
Qed.

Lemma next_after_scan rest x :
  no_block_open rest = true -> x <> zero -> x <> newline ->
  (next_char rest =? x)%char = false ->
  (next_char (cpp_scan Normal rest) =? x)%char = false.
Proof.
  intros Hnb Hz Hn Hx. pose proof (scan_head rest Hnb) as Hh.
  apply Ascii.eqb_neq. apply Ascii.eqb_neq in Hx.
  destruct (cpp_scan Normal rest) as [|y out]; cbn [next_char]; [congruence|].
  destruct Hh as [->|(tl & ->)]; [congruence|exact Hx].
Qed.

Lemma quote_after_scan rest q :
  no_block_open rest = true -> q <> newline ->
  at_end rest || negb (next_char rest =? q)%char = true ->
  at_end (cpp_scan Normal rest)
  || negb (next_char (cpp_scan Normal rest) =? q)%char = true.
Proof.
  intros Hnb Hn Hq. pose proof (scan_head rest Hnb) as Hh.
  destruct (cpp_scan Normal rest) as [|y out]; [reflexivity|].
  cbn [at_end next_char orb]. apply negb_true_iff, Ascii.eqb_neq.
  destruct Hh as [->|(tl & ->)]; [congruence|].
  cbn [at_end next_char orb] in Hq.
  apply negb_true_iff, Ascii.eqb_neq in Hq. exact Hq.
Qed.

Lemma quote_not_special c :
  (c =? squote)%char || (c =? dquote)%char = true ->
  c <> newline /\ (c =? dash)%char = false /\ (c =? slash)%char = false.
Proof.
  intros H. apply orb_true_iff in H as [H|H]; apply Ascii.eqb_eq in H; subst c;
    repeat split; discriminate.
Qed.

(** A second pass over the output of a pass started in the ordinary state,
    or inside a literal, changes nothing. *)
Lemma scan_idempotent_states : forall s,
  no_block_open s = true ->
  cpp_scan Normal (cpp_scan Normal s) = cpp_scan Normal s /\
  forall q, q <> newline ->
    cpp_scan (InString q) (cpp_scan (InString q) s) = cpp_scan (InString q) s.
Proof.
  induction s as [s IH] using string_length_ind.
  intros Hnb. destruct s as [|c rest]; [split; reflexivity|].
  pose proof (no_block_open_rest _ _ Hnb) as [Hb Hnr].
  pose proof (no_block_open_skip _ Hnr) as Hns.
  assert (IHr : String.length rest < String.length (String c rest)) by (simpl; lia).
  assert (IHs : String.length (skip rest) < String.length (String c rest))
    by (pose proof (skip_length rest); simpl; lia).
  split.
  - cbn [cpp_scan].
    destruct ((c =? dash)%char && (next_char rest =? dash)%char) eqn:Hline.
    + destruct (line_comment_shape (skip rest)) as [->|(r & Hlen & Hnbr & ->)];
        [reflexivity|].
      cbn. f_equal. apply IH; [simpl in *; lia|auto].
    + rewrite next_char_is by discriminate. rewrite Hb.
      destruct ((c =? squote)%char || (c =? dquote)%char) eqn:Hquote.
      * destruct (quote_not_special c Hquote) as (Hcn & Hcd & Hcs).
        cbn [cpp_scan]. rewrite Hcd, Hcs, Hquote. cbn [andb]. f_equal.
        apply (IH rest IHr Hnr). exact Hcn.
      * cbn [cpp_scan]. rewrite Hquote.
        replace ((c =? dash)%char
                 && (next_char (cpp_scan Normal rest) =? dash)%char) with false.
        2:{ symmetry. destruct (c =? dash)%char; [|reflexivity]. cbn [andb] in *.
            apply next_after_scan; auto; discriminate. }
        replace ((c =? slash)%char
                 && (next_char (cpp_scan Normal rest) =? star)%char) with false.
        2:{ symmetry. destruct (c =? slash)%char; [|reflexivity]. cbn [andb] in *.
            apply next_after_scan; auto; try discriminate.
            rewrite next_char_is by discriminate. exact Hb. }
        f_equal. apply (IH rest IHr Hnr).
  - intros q Hq. cbn [cpp_scan].
    destruct ((c =? q)%char && (at_end rest || negb (next_char rest =? q)%char))
      eqn:Hexit.
    + apply andb_true_iff in Hexit as [Hcq Hnext].
      cbn [cpp_scan]. rewrite Hcq, (quote_after_scan rest q Hnr Hq Hnext).
      cbn [andb]. f_equal. apply (IH rest IHr Hnr).
    + destruct (c =? q)%char eqn:Hcq.
      * cbn [andb] in Hexit. apply orb_false_iff in Hexit as [Hend Hnq].
        apply negb_false_iff in Hnq.
        cbn [cpp_scan at_end next_char skip]. rewrite Hcq, Hnq.
        cbn [orb negb andb].
        do 2 f_equal. apply (IH (skip rest) IHs Hns). exact Hq.
      * cbn [cpp_scan]. rewrite Hcq. cbn [andb]. f_equal.
        apply (IH rest IHr Hnr). exact Hq.
Qed.

(** C1, as the specification words it, fails: stripping the block comment
    of [-/**/-] leaves [--], which a second pass takes for a line comment. *)
Lemma strip_comments_not_idempotent :
  SqlStripCommentsFunc (SqlStripCommentsFunc dash_comment_dash)
  <> SqlStripCommentsFunc dash_comment_dash
  /\ StripComments (StripComments dash_comment_dash)
     <> StripComments dash_comment_dash.
Proof. split; vm_compute; discriminate. Qed.

(** ** Comment openers joined by the removal of a comment *)

Lemma is_quote_not_opener q c :
  is_quote q = true -> opens_comment q c = false.
Proof.
  intros H. apply quote_not_special in H as (_ & Hd & Hs).
  unfold opens_comment. now rewrite Hd, Hs.
Qed.

Lemma newline_not_opened last : opens_after last newline = false.
Proof.
  destruct last as [a|]; [|reflexivity]. unfold opens_after, opens_comment.
  now rewrite !andb_false_r.
Qed.

(** What the reader finds in the output of a pass is what the pass joined. *)
Lemma comment_free_scan : forall s last,
  comment_free (Outside last) (cpp_scan Normal s) = negb (joins last Normal s)
  /\ comment_free (Outside last) (cpp_scan InLineComment s)
     = negb (joins last InLineComment s)
  /\ comment_free (Outside last) (cpp_scan InBlockComment s)
     = negb (joins last InBlockComment s)
  /\ forall q, is_quote q = true ->
       comment_free (Inside q) (cpp_scan (InString q) s)
       = negb (joins last (InString q) s).
Proof.
  induction s as [s IH] using string_length_ind.
  intros last. destruct s as [|c rest]; [repeat split|].
  assert (Lr : String.length rest < String.length (String c rest)) by (simpl; lia).
  assert (Lk : String.length (skip rest) < String.length (String c rest))
    by (pose proof (skip_length rest); simpl; lia).
  split; [|split; [|split]].
  - cbn [cpp_scan joins].
    destruct ((c =? dash)%char && (next_char rest =? dash)%char);
      [apply (IH (skip rest) Lk last)|].
    destruct ((c =? slash)%char && (next_char rest =? star)%char);
      [apply (IH (skip rest) Lk last)|].
    destruct ((c =? squote)%char || (c =? dquote)%char) eqn:Hquote.
    + cbn [comment_free]. unfold is_quote. rewrite Hquote.
      apply (IH rest Lr None). exact Hquote.
    + cbn [comment_free]. unfold is_quote. rewrite Hquote.
      rewrite (proj1 (IH rest Lr (Some c))), negb_orb. reflexivity.
  - cbn [cpp_scan joins]. destruct (Ascii.eqb_spec c newline) as [->|Hc].
    + cbn [comment_free]. change (is_quote newline) with false. cbn match.
      rewrite newline_not_opened. cbn [negb andb]. apply (IH rest Lr).
    + apply (IH rest Lr last).
  - cbn [cpp_scan joins].
    destruct ((c =? star)%char && (next_char rest =? slash)%char);
      [apply (IH (skip rest) Lk last)|apply (IH rest Lr last)].
  - intros q Hq. cbn [cpp_scan joins].
    destruct (Ascii.eqb_spec c q) as [->|Hc]; cbn [andb].
    + destruct (at_end rest || negb (next_char rest =? q)%char) eqn:Hexit.
      * cbn [comment_free]. rewrite Ascii.eqb_refl. apply (IH rest Lr).
      * apply orb_false_iff in Hexit as [Hend Hnext].
        apply negb_false_iff, Ascii.eqb_eq in Hnext. rewrite Hnext.
        cbn [comment_free]. rewrite Ascii.eqb_refl, Hq.
        apply (IH (skip rest) Lk None). exact Hq.
    + cbn [comment_free]. apply Ascii.eqb_neq in Hc. rewrite Hc.
      apply (IH rest Lr None). exact Hq.
Qed.

(** A text in which the reader finds no comment opener is left as it is. *)
Lemma scan_comment_free : forall s,
  (forall last, comment_free (Outside last) s = true -> cpp_scan Normal s = s)
  /\ (forall q, is_quote q = true -> comment_free (Inside q) s = true ->
        cpp_scan (InString q) s = s).
Proof.
  induction s as [s IH] using string_length_ind.
  destruct s as [|c rest]; [split; reflexivity|].
  assert (Lr : String.length rest < String.length (String c rest)) by (simpl; lia).
  split.
  - intros last H. cbn [comment_free] in H. cbn [cpp_scan].
    destruct (is_quote c) eqn:Hquote.
    + destruct (quote_not_special c Hquote) as (_ & Hd & Hs).
      rewrite Hd, Hs. cbn [andb]. unfold is_quote in Hquote. rewrite Hquote.
      f_equal. apply (IH rest Lr); assumption.
    + apply andb_true_iff in H as [_ H].
      assert (Hnext : opens_comment c (next_char rest) = false).
      { destruct rest as [|n r]; cbn [next_char].
        - unfold opens_comment. now rewrite !andb_false_r.
        - cbn [comment_free] in H. destruct (is_quote n) eqn:Hn.
          + rewrite <- (is_quote_not_opener n n Hn). unfold opens_comment.
            destruct (quote_not_special n Hn) as (_ & Hd & _).
            rewrite Hd, !andb_false_r. cbn [orb].
            apply orb_true_iff in Hn as [Hn|Hn]; apply Ascii.eqb_eq in Hn;
              subst n; now rewrite andb_false_r.
          + apply andb_true_iff in H as [H _]. apply negb_true_iff in H.
            exact H. }
      unfold opens_comment in Hnext. apply orb_false_iff in Hnext as [Hd Hs].
      rewrite Hd, Hs. unfold is_quote in Hquote. rewrite Hquote.
      f_equal. apply (IH rest Lr) with (last := Some c). exact H.
  - intros q Hq H. cbn [comment_free] in H. cbn [cpp_scan].
    destruct (Ascii.eqb_spec c q) as [->|Hc]; cbn [andb].
    + destruct rest as [|n r]; cbn [at_end next_char skip orb]; [reflexivity|].
      destruct (Ascii.eqb_spec n q) as [->|Hn]; cbn [negb].
      * cbn [comment_free] in H. rewrite Hq in H. do 2 f_equal.
        apply (IH r); [simpl; lia|exact Hq|exact H].
      * f_equal. apply (IH (String n r) Lr) with (last := Some q). exact H.
    + f_equal. apply (IH rest Lr); assumption.
Qed.

(** A text in which the reader finds a comment opener comes out shorter. *)
Lemma scan_comment_found : forall s,
  (forall last, comment_free (Outside last) s = false ->
     opens_after last (next_char s) = false ->
     String.length (cpp_scan Normal s) < String.length s)
  /\ (forall q, is_quote q = true -> comment_free (Inside q) s = false ->
        String.length (cpp_scan (InString q) s) < String.length s).
Proof.
  induction s as [s IH] using string_length_ind.
  destruct s as [|c rest]; [split; [intros ?|intros ? ?]; discriminate|].
  assert (Lr : String.length rest < String.length (String c rest)) by (simpl; lia).
  split.
  - intros last H Hfirst. cbn [next_char] in Hfirst.
    cbn [comment_free] in H. cbn [cpp_scan].
    destruct ((c =? dash)%char && (next_char rest =? dash)%char) eqn:Hline.
    { pose proof (scan_length (skip rest) InLineComment).
      pose proof (skip_length rest). simpl. lia. }
    destruct ((c =? slash)%char && (next_char rest =? star)%char) eqn:Hblock.
    { pose proof (scan_length (skip rest) InBlockComment).
      pose proof (skip_length rest). simpl. lia. }
    fold (is_quote c). destruct (is_quote c) eqn:Hquote.
    + cbn [String.length]. apply -> Nat.succ_lt_mono.
      apply (IH rest Lr); assumption.
    + rewrite Hfirst in H. cbn [negb andb] in H.
      cbn [String.length]. apply -> Nat.succ_lt_mono.
      apply (IH rest Lr) with (last := Some c); [exact H|].
      unfold opens_after, opens_comment. now rewrite Hline, Hblock.
  - intros q Hq H. cbn [comment_free] in H. cbn [cpp_scan].
    destruct (Ascii.eqb_spec c q) as [->|Hc]; cbn [andb].
    + destruct rest as [|n r]; [discriminate|].
      cbn [at_end next_char skip orb].
      destruct (Ascii.eqb_spec n q) as [->|Hn]; cbn [negb].
      * cbn [comment_free] in H. rewrite Hq in H.
        cbn [String.length]. do 2 apply -> Nat.succ_lt_mono.
        apply (IH r); [simpl; lia|exact Hq|exact H].
      * cbn [String.length]. apply -> Nat.succ_lt_mono.
        apply (IH (String n r) Lr) with (last := Some q); [exact H|].
        cbn [opens_after]. apply is_quote_not_opener, Hq.
    + cbn [String.length]. apply -> Nat.succ_lt_mono.
      apply (IH rest Lr); assumption.
Qed.

(** A second pass changes the output of a first exactly when the first
    joined a comment opener. *)
Lemma scan_twice (s : string) :
  cpp_scan Normal (cpp_scan Normal s) = cpp_scan Normal s
  <-> joins None Normal s = false.
Proof.
  pose proof (proj1 (comment_free_scan s None)) as Hfree.
  split.
  - intros Hsame. destruct (joins None Normal s) eqn:Hj; [|reflexivity].
    cbn [negb] in Hfree.
    pose proof (proj1 (scan_comment_found (cpp_scan Normal s)) None Hfree eq_refl).
    rewrite Hsame in *. lia.
  - intros Hj. rewrite Hj in Hfree.
    apply (proj1 (scan_comment_free _) None Hfree).
Qed.

(** C1, amended: stripping twice gives what stripping once gives exactly
    on the texts in which stripping joins no comment opener, that is, in
    which no [-] kept outside string literals comes to stand directly
    before another, and no such [/] directly before a [*], by the removal
    of the comments between them; in the C layer this is said of the text
    up to its first NUL byte.  Texts without any [/*] are among them.
    Stripping joins a comment opener exactly when what it returns has one
    outside its string literals. *)
Theorem strip_comments_idempotent_unless_opener_joined (T : string) :
  (SqlStripCommentsFunc (SqlStripCommentsFunc T) = SqlStripCommentsFunc T
   <-> joins_comment T = false)
  /\ (StripComments (StripComments T) = StripComments T
      <-> joins_comment (substring 0 (strlen T) T) = false)
  /\ (no_block_open T = true -> joins_comment T = false)
  /\ (joins_comment T = false
      <-> comment_free (Outside None) (SqlStripCommentsFunc T) = true).
Proof.
  split; [apply scan_twice|]. split; [|split].
  - unfold StripComments. cbv zeta. rewrite !scan_equiv.
    rewrite (c_str_id (cpp_scan Normal _))
      by (apply scan_nul_free, c_str_nul_free).
    apply scan_twice.
  - intros H. apply scan_twice, scan_idempotent_states, H.
  - unfold joins_comment, SqlStripCommentsFunc.
    rewrite (proj1 (comment_free_scan T None)).
    destruct (joins None Normal T); split; intros H; try reflexivity;
      discriminate.
Qed.

Lemma strip_comments_idempotent_witness :
  SqlStripCommentsFunc (SqlStripCommentsFunc commented_sum)
  = SqlStripCommentsFunc commented_sum
  /\ StripComments (StripComments commented_sum) = StripComments commented_sum.
Proof.
  destruct (strip_comments_idempotent_unless_opener_joined commented_sum)
    as (Hcpp & Hc & _ & _).
  split; [apply Hcpp|apply Hc]; reflexivity.
Defined.

(** ** String literals *)

Lemma literal_body_copied q rest :
  next_is rest q = false ->
  forall body, literal_body q body = true ->
  cpp_scan (InString q) (body ++ String q rest)
  = (body ++ String q (cpp_scan Normal rest))%string.
Proof.
  intros Hrest.
  induction body as [body IH] using string_length_ind.
  intros Hbody. destruct body as [|c b].
  - cbn [append cpp_scan]. rewrite Ascii.eqb_refl.
    assert (Hx : at_end rest || negb (next_char rest =? q)%char = true)
      by (apply negb_false_iff; rewrite next_char_is_or_end; exact Hrest).
    rewrite Hx. reflexivity.
  - cbn [literal_body] in Hbody. cbn [append cpp_scan].
    destruct (c =? q)%char eqn:Hcq.
    + apply andb_true_iff in Hbody as [Hn Hb].
      destruct b as [|n b']; [discriminate|].
      cbn [next_is skip] in *. apply Ascii.eqb_eq in Hcq, Hn. subst c n.
      cbn [append at_end next_char skip orb]. rewrite Ascii.eqb_refl.
      cbn [negb andb]. do 2 f_equal. apply IH; [simpl; lia|exact Hb].
    + cbn [andb]. f_equal. apply IH; [simpl; lia|exact Hbody].
Qed.

Lemma cpp_scan_copies_literals : copies_literals cpp_scan.
Proof.
  repeat split.
  - intros q c rest Hc. cbn [cpp_scan]. apply Ascii.eqb_neq in Hc.
    now rewrite Hc.
  - intros q rest. cbn [cpp_scan at_end next_char skip].
    rewrite Ascii.eqb_refl. reflexivity.
  - intros q rest Hrest. exact (literal_body_copied q rest Hrest EmptyString eq_refl).
  - intros q body rest Hq Hbody Hrest.
    rewrite <- (literal_body_copied q rest Hrest body Hbody).
    destruct Hq; subst q; reflexivity.
Qed.

Lemma copies_literals_ext (scan scan' : LexState -> string -> string) :
  (forall s st, scan' st s = scan st s) ->
  copies_literals scan -> copies_literals scan'.
Proof.
  intros E (A & B & C & D). repeat split; intros; rewrite !E; auto.
Qed.

(** C3: both scanners copy string literals verbatim, doubled quotes
    included, and leave the literal of [SELECT '--not a comment'] alone. *)
Theorem strip_comments_copies_string_literals :
  copies_literals cpp_scan
  /\ copies_literals c_scan
  /\ SqlStripCommentsFunc quoted_dashes = quoted_dashes
  /\ StripComments quoted_dashes = quoted_dashes.
Proof.
  split; [exact cpp_scan_copies_literals|].
  split; [exact (copies_literals_ext _ _ scan_equiv cpp_scan_copies_literals)|].
  split; reflexivity.
Qed.

Lemma strip_comments_copies_string_literals_witness :
  SqlStripCommentsFunc "'it''s -- fine', b"
  = String squote ("it''s -- fine" ++ String squote (SqlStripCommentsFunc ", b")).
Proof.
  destruct strip_comments_copies_string_literals as ((_ & _ & _ & D) & _).
  apply (D squote "it''s -- fine" ", b"); [left|..]; reflexivity.
Defined.

(** ** The two binding layers *)

(** C10, as the specification words it, fails on a text with a NUL byte in
    it: [strlen] ends the C scan there, the C++ scan goes on. *)
Lemma strip_comments_layers_differ_on_nul :
  StripComments nul_then_comment <> SqlStripCommentsFunc nul_then_comment.
Proof. vm_compute. discriminate. Qed.

(** C10, amended: on every text without a NUL byte the C layer and the C++
    layer strip to the same string. *)
Theorem strip_comments_layers_agree (T : string) :
  nul_free T = true -> StripComments T = SqlStripCommentsFunc T.
Proof.
  intros H. unfold StripComments, SqlStripCommentsFunc. cbv zeta.
  rewrite (c_str_id T H). apply scan_equiv.
Qed.

Lemma strip_comments_layers_agree_witness :
  nul_free trailing_comment = true
  /\ StripComments trailing_comment = SqlStripCommentsFunc trailing_comment.
Proof.
  split; [reflexivity|].
  apply (strip_comments_layers_agree trailing_comment). reflexivity.
Defined.

End StripFacts.

(* ======================================================================= *)
(** * Properties of the tree extractors *)
(* ======================================================================= *)

Section ExtractFacts.
Import Ast Extract.
Local Open Scope list_scope.

Context {Value : Type}.

(** Induction over expressions that reaches the operands behind the
    pointers of every node. *)
Lemma expr_nested_ind (P : ParsedExpression Value -> Prop) :
  (forall e, Forall (on_pointer P) (expr_children e) -> P e) ->
  forall e, P e.
Proof.
  intros step. fix IH 1. intros e. apply step.
  assert (ptr : forall p, on_pointer P p) by (intros [c|]; [apply IH|exact I]).
  destruct e as [a s f o d cs|t a l r|t a cs|a cn|a v|t a cs]; cbn [expr_children].
  - induction cs; constructor; auto.
  - repeat constructor; auto.
  - induction cs; constructor; auto.
  - constructor.
  - constructor.
  - induction cs; constructor; auto.
Qed.

(** The tests the extractors make on [type] and on the expression class
    single out one constructor each. *)
Lemma dispatch_by_constructor (e : ParsedExpression Value) :
  (expr_type e = FUNCTION <->
   exists a s f o d cs, e = FunctionExpression a s f o d cs)
  /\ (expr_type e = COLUMN_REF <-> exists a cn, e = ColumnRefExpression a cn)
  /\ (expr_type e = VALUE_CONSTANT <-> exists a v, e = ConstantExpression a v)
  /\ (expr_type e = Conjunction CONJUNCTION_AND
       \/ expr_type e = Conjunction CONJUNCTION_OR <->
       exists t a cs, e = ConjunctionExpression t a cs)
  /\ (GetExpressionClass e = CLASS_COMPARISON <->
       exists t a l r, e = ComparisonExpression t a l r).
Proof.
  destruct e as [a s f o d cs|t a l r|t a cs|a cn|a v|t a cs]; cbn;
    repeat split; intros H;
    try discriminate;
    try (destruct H as [H|H]; discriminate);
    try (destruct H as (? & ? & ? & ? & ? & ? & H); discriminate);
    try (destruct H as (? & ? & ? & ? & H); discriminate);
    try (destruct H as (? & ? & ? & H); discriminate);
    try (destruct H as (? & ? & H); discriminate);
    eauto 8.
  - destruct t; auto.
  - destruct t; discriminate.
Qed.

(** A loop that appends, element by element, appends the concatenation. *)
Lemma fold_left_appends {A B : Type} (f : B -> list A -> list A) (g : B -> list A)
    (l : list B) :
  Forall (fun b => forall acc, f b acc = acc ++ g b) l ->
  forall acc, fold_left (fun acc b => f b acc) l acc = acc ++ flat_map g l.
Proof.
  induction 1 as [|b l Hb _ IH]; intros acc; cbn [fold_left flat_map].
  - now rewrite app_nil_r.
  - rewrite IH, Hb, app_assoc. reflexivity.
Qed.

(** ** Functions *)

Lemma extract_functions_appends : forall (e : ParsedExpression Value) fs,
  ExtractFunctionsFromExpression e fs = fs ++ ExtractFunctionsFromExpression e [].
Proof.
  induction e as [e IH] using expr_nested_ind. intros fs.
  destruct e as [a s f o d cs|t a l r|t a cs|a cn|a v|t a cs];
    cbn [ExtractFunctionsFromExpression]; try (now rewrite app_nil_r).
  cbn [expr_children] in IH.
  assert (H : Forall (fun child : option (ParsedExpression Value) =>
                        forall acc, extract_functions_ptr child acc
                                    = acc ++ extract_functions_ptr child []) cs).
  { eapply Forall_impl; [|exact IH]. intros [c|] Hc acc; cbn.
    - apply Hc.
    - now rewrite app_nil_r. }
  change (fold_left (fun fs child => extract_functions_ptr child fs) cs
                    (fs ++ [function_ref f o d])
          = fs ++ fold_left (fun fs child => extract_functions_ptr child fs) cs
                            ([] ++ [function_ref f o d])).
  rewrite !(fold_left_appends _ _ cs H), app_assoc. reflexivity.
Qed.

Lemma extract_functions_ptr_appends (p : option (ParsedExpression Value)) fs :
  extract_functions_ptr p fs = fs ++ extract_functions_ptr p [].
Proof.
  destruct p as [e|]; cbn; [apply extract_functions_appends|now rewrite app_nil_r].
Qed.

Lemma extract_functions_loop (l : list (option (ParsedExpression Value))) fs :
  fold_left (fun fs expr => extract_functions_ptr expr fs) l fs
  = fs ++ flat_map (fun expr => extract_functions_ptr expr []) l.
Proof.
  apply fold_left_appends, Forall_forall. intros p _ acc.
  apply extract_functions_ptr_appends.
Qed.

(** One record for the call itself, then those of its arguments in order. *)
Lemma extract_functions_call a s f o d (cs : list (option (ParsedExpression Value))) fs :
  ExtractFunctionsFromExpression (FunctionExpression a s f o d cs) fs
  = fs ++ function_ref f o d
          :: flat_map (fun child => extract_functions_ptr child []) cs.
Proof.
  transitivity (fold_left (fun fs child => extract_functions_ptr child fs) cs
                          (fs ++ [function_ref f o d])); [reflexivity|].
  rewrite extract_functions_loop, <- app_assoc. reflexivity.
Qed.

Lemma extract_functions_not_call (e : ParsedExpression Value) fs :
  expr_type e <> FUNCTION -> ExtractFunctionsFromExpression e fs = fs.
Proof. destruct e; cbn; congruence. Qed.

Lemma extract_functions_node ctes (select_list : list (option (ParsedExpression Value)))
    from_table where_clause group_expressions having fs :
  ExtractFunctionsFromQueryNode
    (SelectNode ctes select_list from_table where_clause group_expressions having) fs
  = fs ++ flat_map (fun expr => extract_functions_ptr expr [])
                   (select_list ++ [where_clause] ++ group_expressions).
Proof.
  cbn [ExtractFunctionsFromQueryNode].
  rewrite !extract_functions_loop, (extract_functions_ptr_appends where_clause).
  rewrite !flat_map_app. cbn [flat_map app].
  now rewrite app_nil_r, !app_assoc.
Qed.

Lemma call_path_reported (root e : ParsedExpression Value) r :
  call_path e root -> ref_of e = Some r ->
  In r (ExtractFunctionsFromExpression root []).
Proof.
  intros Hpath Hr. induction Hpath as [Hty|a s f o d cs c Hin Hpath IH].
  - destruct e; try discriminate. injection Hr as <-.
    rewrite extract_functions_call. cbn. now left.
  - rewrite extract_functions_call. cbn. right.
    apply in_flat_map. exists (Some c). split; [exact Hin|exact IH].
Qed.

(** Every record stands for a call on such a path. *)
Lemma reported_on_call_path : forall (root : ParsedExpression Value) r,
  In r (ExtractFunctionsFromExpression root []) ->
  exists e, call_path e root /\ ref_of e = Some r.
Proof.
  induction root as [root IH] using expr_nested_ind. intros r Hin.
  destruct root as [a s f o d cs|t a l r'|t a cs|a cn|a v|t a cs];
    try (cbn in Hin; contradiction).
  rewrite extract_functions_call in Hin. cbn [app expr_children] in *.
  destruct Hin as [<-|Hin].
  - eexists. split; [apply call_here|]; reflexivity.
  - apply in_flat_map in Hin as ([c|] & Hc & Hin); [|contradiction].
    rewrite Forall_forall in IH.
    destruct (IH (Some c) Hc r Hin) as (e & Hpath & Hr).
    exists e. split; [|exact Hr]. eapply call_argument; eassumption.
Qed.

Lemma records_are_call_paths (exprs : list (option (ParsedExpression Value))) r :
  In r (flat_map (fun expr => extract_functions_ptr expr []) exprs)
  <-> exists root e, In (Some root) exprs /\ call_path e root /\ ref_of e = Some r.
Proof.
  rewrite in_flat_map. split.
  - intros ([root|] & Hin & Hr); [|contradiction].
    destruct (reported_on_call_path root r Hr) as (e & Hpath & He). eauto.
  - intros (root & e & Hin & Hpath & He). exists (Some root).
    split; [exact Hin|]. exact (call_path_reported root e r Hpath He).
Qed.

(** C2, as the specification words it, fails twice.  In
    [SELECT lower(trim(a)) FROM t WHERE upper(x) > 1] the call [upper(x)]
    is an operand of the comparison that is the WHERE predicate, and no
    record is made for it.  In
    [SELECT lower(a) FROM t UNION SELECT upper(x) FROM u] the calls stand in
    the SELECT lists of the two sides of a set operation, which is not
    walked at all. *)
Lemma call_under_comparison_not_reported :
  In (Some upper_comparison) (clause_expressions calls_node)
  /\ nested_in upper_call upper_comparison
  /\ ref_of upper_call = Some (mkFunctionRef "upper" "scalar")
  /\ ~ In (mkFunctionRef "upper" "scalar")
          (ExtractFunctionsFromQueryNode calls_node [])
  /\ pfb_functions (ParseFunctionsBind sample_parse calls_query)
     = [mkFunctionRef "lower" "scalar"; mkFunctionRef "trim" "scalar"]
  /\ In (Some lower_a) (clause_expressions union_node)
  /\ ref_of lower_a = Some (mkFunctionRef "lower" "scalar")
  /\ ExtractFunctionsFromStatement union_tree [] = [].
Proof.
  split; [cbn; auto|].
  split; [apply nested_child with (c := upper_call); [cbn; auto|constructor]|].
  split; [reflexivity|].
  split; [cbn; intros [H|[H|[]]]; discriminate|].
  split; [reflexivity|].
  split; [cbn; auto|].
  split; reflexivity.
Qed.

(** C2, amended: of a SELECT statement whose query node is a select node
    the extractor walks the SELECT list, the WHERE predicate and the GROUP
    BY expressions, in this order, and descends through the arguments of
    function calls only.  A call yields one record, followed by the records
    of its arguments; an expression that is not a call yields nothing,
    whatever it holds.  So the records are those of the calls that are one
    of the clause expressions or are reached from one through arguments of
    calls, and of no other.  Of a statement whose query node is a set
    operation nothing is walked and no record is made. *)
Theorem function_extractor_follows_call_arguments :
  (forall ctes (select_list : list (option (ParsedExpression Value)))
          from_table where_clause group_expressions having fs,
     ExtractFunctionsFromQueryNode
       (SelectNode ctes select_list from_table where_clause group_expressions
                   having) fs
     = fs ++ flat_map (fun expr => extract_functions_ptr expr [])
                      (select_list ++ [where_clause] ++ group_expressions))
  /\ (forall a s f o d (cs : list (option (ParsedExpression Value))) fs,
        ExtractFunctionsFromExpression (FunctionExpression a s f o d cs) fs
        = fs ++ function_ref f o d
                :: flat_map (fun child => extract_functions_ptr child []) cs)
  /\ (forall (e : ParsedExpression Value) fs,
        expr_type e <> FUNCTION -> ExtractFunctionsFromExpression e fs = fs)
  /\ (forall ctes (select_list : list (option (ParsedExpression Value)))
             from_table where_clause group_expressions having r,
        let node := SelectNode ctes select_list from_table where_clause
                               group_expressions having in
        In r (ExtractFunctionsFromStatement
                (Select (MkSelectStatement (Some node))) [])
        <-> exists root e,
              In (Some root) (clause_expressions node)
              /\ call_path e root /\ ref_of e = Some r)
  /\ (forall ctes (set_left set_right : option (QueryNode Value)) fs,
        ExtractFunctionsFromStatement
          (Select (MkSelectStatement
                     (Some (SetOperationNode ctes set_left set_right)))) fs
        = fs).
Proof.
  split; [exact extract_functions_node|].
  split; [exact extract_functions_call|].
  split; [exact extract_functions_not_call|].
  split; [|reflexivity].
  intros ctes sl from_table w groups having r node. subst node.
  cbn [ExtractFunctionsFromStatement clause_expressions].
  rewrite extract_functions_node. cbn [app]. apply records_are_call_paths.
Qed.

End ExtractFacts.

Lemma function_extractor_follows_call_arguments_witness :
  In (Extract.mkFunctionRef "trim" "scalar")
     (Extract.ExtractFunctionsFromStatement Extract.calls_tree []).
Proof.
  destruct (@function_extractor_follows_call_arguments Z) as (_ & _ & _ & H & _).
  apply H. exists Extract.lower_call, Extract.trim_call.
  split; [cbn; auto|]. split; [|reflexivity].
  eapply Extract.call_argument; [cbn; auto|]. apply Extract.call_here. reflexivity.
Defined.

Section TableFacts.
Import Ast Extract.
Local Open Scope list_scope.

Context {Value : Type}.

Lemma left_deep_snoc (first : TableRef Value) rights r :
  left_deep first (rights ++ [r])
  = JoinRef (Some (left_deep first rights)) (Some r) None.
Proof. unfold left_deep. now rewrite fold_left_app. Qed.

Lemma left_deep_tables (first : string * string) rights tables ctx :
  ExtractTablesFromTableRef
    (left_deep (@base_ref Value first) (map base_ref rights)) tables ctx
  = tables ++ base_record ctx first :: map (base_record "JOIN") rights.
Proof.
  induction rights as [|r rights IH] using rev_ind.
  - reflexivity.
  - rewrite !map_app. cbn [map]. rewrite left_deep_snoc.
    cbn [ExtractTablesFromTableRef]. rewrite IH.
    unfold base_ref at 1. cbn [ExtractTablesFromTableRef].
    rewrite <- app_assoc. reflexivity.
Qed.

(** C5: a JOIN node is walked left side first under the label it was
    reached with, then right side under the label JOIN; in a left-deep
    chain the leftmost table keeps the label of the chain and every table
    joined to it is labelled JOIN; [SELECT * FROM a JOIN b ON a.x=b.x]
    gives a with FROM, then b with JOIN. *)
Theorem table_extractor_join_labels :
  (forall (l r : TableRef Value) condition tables ctx,
     ExtractTablesFromTableRef (JoinRef (Some l) (Some r) condition) tables ctx
     = ExtractTablesFromTableRef r (ExtractTablesFromTableRef l tables ctx) "JOIN")
  /\ (forall (first : string * string) rights tables ctx,
        ExtractTablesFromTableRef
          (left_deep (@base_ref Value first) (map base_ref rights)) tables ctx
        = tables ++ base_record ctx first :: map (base_record "JOIN") rights)
  /\ ParseTablesBind sample_parse join_query
     = {| ptb_tables := [mkExtractedTable "" "a" "FROM";
                         mkExtractedTable "" "b" "JOIN"];
          ptb_error := "" |}.
Proof.
  split; [reflexivity|]. split; [exact left_deep_tables|reflexivity].
Qed.

End TableFacts.

Section WhereFacts.
Import Ast Extract.
Local Open Scope list_scope.

Context {Value : Type}.
Variable Value_ToString : Value -> string.
Variable ToString : ParsedExpression Value -> string.

Lemma extract_where_appends : forall (e : ParsedExpression Value) conds,
  ExtractWhereConditions Value_ToString ToString e conds
  = conds ++ ExtractWhereConditions Value_ToString ToString e [].
Proof.
  induction e as [e IH] using expr_nested_ind. intros conds.
  destruct e as [a s f o d cs|t a l r|t a cs|a cn|a v|t a cs];
    cbn [ExtractWhereConditions]; try (now rewrite app_nil_r); [reflexivity|].
  cbn [expr_children] in IH.
  assert (H : Forall (fun child : option (ParsedExpression Value) =>
                        forall acc,
                          extract_where_ptr Value_ToString ToString child acc
                          = acc ++ extract_where_ptr Value_ToString ToString child [])
                     cs).
  { eapply Forall_impl; [|exact IH]. intros [c|] Hc acc; cbn.
    - apply Hc.
    - now rewrite app_nil_r. }
  transitivity (fold_left
                  (fun acc child => extract_where_ptr Value_ToString ToString child acc)
                  cs conds); [reflexivity|].
  rewrite (fold_left_appends _ _ cs H).
  transitivity (conds ++ fold_left
                  (fun acc child => extract_where_ptr Value_ToString ToString child acc)
                  cs []); [|reflexivity].
  now rewrite (fold_left_appends _ _ cs H).
Qed.

Lemma extract_where_conjunction t a (children : list (option (ParsedExpression Value)))
    conds :
  ExtractWhereConditions Value_ToString ToString
    (ConjunctionExpression t a children) conds
  = conds ++ flat_map (fun child => extract_where_ptr Value_ToString ToString child [])
                      children.
Proof.
  transitivity (fold_left
                  (fun acc child => extract_where_ptr Value_ToString ToString child acc)
                  children conds); [reflexivity|].
  apply fold_left_appends, Forall_forall. intros [c|] _ acc; cbn.
  - apply extract_where_appends.
  - now rewrite app_nil_r.
Qed.

End WhereFacts.




Section ColumnFacts.
Import Ast Extract.
Local Open Scope list_scope.

Context {Value : Type}.




End ColumnFacts.


(* ======================================================================= *)
(** * Properties of the statement splitter *)
(* ======================================================================= *)

Section SplitFacts.
Import Ast Split.
Local Open Scope list_scope.

Context {Value : Type}.
Variable ParseQuery : string -> ParseOutcome Value.
Variable StatementTypeToString : SQLStatement Value -> string.
Variable STANDARD_VECTOR_SIZE : nat.

Local Abbreviation rows := (statement_rows StatementTypeToString).
Local Abbreviation scan_from := (scan StatementTypeToString STANDARD_VECTOR_SIZE).

(** A chunk followed by the rows of what it left is the whole output. *)
Lemma statement_rows_chunk : forall room pending idx,
  let k := List.length (rows pending idx room) in
  rows pending idx (List.length pending)
  = rows pending idx room
    ++ rows (skipn k pending) (idx + k) (List.length (skipn k pending)).
Proof.
  induction room as [|room IH]; intros pending idx.
  - destruct pending; cbn; rewrite ?Nat.add_0_r; reflexivity.
  - destruct pending as [|stmt pending]; [reflexivity|].
    cbn [statement_rows List.length skipn app]. cbv zeta. f_equal.
    rewrite Nat.add_succ_r. apply (IH pending (S idx)).
Qed.

Lemma statement_rows_chunk_length room pending idx :
  List.length (rows pending idx room) <= List.length pending.
Proof.
  revert pending idx. induction room as [|room IH]; intros [|stmt pending] idx;
    cbn; try lia. specialize (IH pending (S idx)). lia.
Qed.

Lemma scan_successful_split (bind_data : ParseStatementsBindData) :
  error bind_data = "" -> 0 < STANDARD_VECTOR_SIZE ->
  forall fuel current_idx,
    List.length (skipn current_idx (statements bind_data)) + 1 < fuel ->
    scan_from fuel bind_data current_idx
    = Some (rows (skipn current_idx (statements bind_data)) current_idx
                 (List.length (skipn current_idx (statements bind_data)))).
Proof.
  intros Herr Hsize. induction fuel as [|fuel IH]; intros idx Hfuel; [lia|].
  cbn [scan]. unfold ParseStatementsFunc. rewrite Herr. cbn [String.eqb negb andb].
  set (pending := skipn idx (statements bind_data)) in *.
  pose proof (statement_rows_chunk STANDARD_VECTOR_SIZE pending idx) as Hchunk.
  pose proof (statement_rows_chunk_length STANDARD_VECTOR_SIZE pending idx) as Hlen.
  cbv zeta in Hchunk.
  destruct (rows pending idx STANDARD_VECTOR_SIZE) as [|row chunk] eqn:Hrows.
  - destruct pending as [|stmt pending']; [reflexivity|].
    destruct STANDARD_VECTOR_SIZE; [lia|discriminate].
  - rewrite IH.
    + cbn [option_map]. rewrite Hchunk. unfold pending.
      rewrite skipn_skipn, (Nat.add_comm _ idx). reflexivity.
    + rewrite <- (Nat.add_comm (List.length (row :: chunk))), <- skipn_skipn.
      fold pending. rewrite length_skipn. cbn [List.length] in *. lia.
Qed.




End SplitFacts.

Lemma toy_parse_message text what :
  Split.toy_parse text = Ast.Throws what -> what <> "".
Proof.
  revert what. induction text as [|c rest IH]; intros what; cbn [Split.toy_parse].
  - discriminate.
  - destruct (c =? "?")%char; [intros [= <-]; discriminate|].
    destruct (Split.toy_parse rest) as [stmts|w]; [destruct (c =? ";")%char; discriminate|].
    intros [= <-]. now apply IH.
Qed.


(* ======================================================================= *)
(** * Properties of the tokenizer *)
(* ======================================================================= *)

Section TokenizerFacts.
Import Tokenizer.
Local Open Scope list_scope.

Variable Tokenize : string -> Outcome (list SimplifiedToken).

Lemma convert_keeps_category (t : SimplifiedToken) :
  token_type_name (type (convert t)) = TokenTypeToString (st_type t)
  /\ start (convert t) = st_start t.
Proof. destruct t as [[] pos]; split; reflexivity. Qed.


End TokenizerFacts.



(* ======================================================================= *)
(** * Properties of the type signature serializer *)
(* ======================================================================= *)

Section TypeSigFacts.
Import TypeSig.
Local Open Scope list_scope.
Local Open Scope Z_scope.

Lemma append_nil_r (s : string) : (s ++ "")%string = s.
Proof. induction s as [|c s IH]; cbn; [reflexivity|now rewrite IH]. Qed.

Lemma append_assoc (a b c : string) : ((a ++ b) ++ c = a ++ (b ++ c))%string.
Proof. induction a as [|x a IH]; cbn; [reflexivity|now rewrite IH]. Qed.

Lemma len_append (a b : string) : len (a ++ b) = len a + len b.
Proof.
  unfold len. induction a as [|x a IH]; cbn [append String.length]; lia.
Qed.

Lemma len_nonneg (s : string) : 0 <= len s.
Proof. unfold len. lia. Qed.

Lemma take_all (n : Z) (s : string) : len s <= n -> take n s = s.
Proof.
  unfold take, len. intros H.
  assert (Hn : (String.length s <= Z.to_nat n)%nat) by lia.
  clear H. revert Hn. generalize (Z.to_nat n) as m.
  induction s as [|c s IH]; intros [|m] Hm; cbn in *; try reflexivity; try lia.
  rewrite IH by lia. reflexivity.
Qed.

Lemma snprintf_at_room (buf_size : Z) (p text : string) :
  buf_size < 2 ^ 64 -> len p + len text < buf_size ->
  snprintf_at buf_size (mkBuf p (len p)) text
  = Some (mkBuf (p ++ text) (len (p ++ text))).
Proof.
  intros Hmax Hroom. pose proof (len_nonneg p). pose proof (len_nonneg text).
  unfold snprintf_at, size_sub. cbn [offset content].
  replace (buf_size <? len p) with false by (symmetry; apply Z.ltb_ge; lia).
  rewrite Z.mod_small by lia.
  replace (buf_size - len p =? 0) with false by (symmetry; apply Z.eqb_neq; lia).
  rewrite !take_all by lia. now rewrite len_append.
Qed.

Lemma snprintf_room (buf_size : Z) (text : string) :
  buf_size < 2 ^ 64 -> len text < buf_size ->
  snprintf buf_size text = Some text.
Proof.
  intros Hmax Hroom. unfold snprintf, empty_buf.
  change 0 with (len ""). rewrite snprintf_at_room by (cbn; lia). reflexivity.
Qed.

Lemma joined_separated : forall items i,
  0 < i ->
  joined i items
  = match items with
    | [] => ""
    | _ => (", " ++ String.concat ", " items)%string
    end.
Proof.
  induction items as [|item items IH]; intros i Hi; [reflexivity|].
  cbn [joined]. cbv zeta.
  replace (0 <? i) with true by (symmetry; apply Z.ltb_lt; lia).
  rewrite IH by lia. destruct items as [|item' items]; cbn [String.concat].
  - now rewrite append_nil_r.
  - reflexivity.
Qed.

Lemma joined_concat (items : list string) :
  joined 0 items = String.concat ", " items.
Proof.
  destruct items as [|item items]; [reflexivity|].
  cbn [joined]. cbv zeta. cbn [Z.ltb Z.compare append].
  rewrite joined_separated by lia.
  destruct items; cbn [String.concat]; [apply append_nil_r|reflexivity].
Qed.

Lemma members_loop_room (serialize : LogicalType -> Z -> option string)
    (render : LogicalType -> string) (buf_size : Z) :
  buf_size < 2 ^ 64 ->
  forall members i p,
    Forall (fun m => serialize (snd m) 256 = Some (render (snd m))) members ->
    len p + len (joined i (map (spec_member render) members)) + 10 <= buf_size ->
    members_loop serialize buf_size members i (mkBuf p (len p))
    = Some (mkBuf (p ++ joined i (map (spec_member render) members))
                  (len (p ++ joined i (map (spec_member render) members)))).
Proof.
  intros Hmax. induction members as [|[name child] members IH]; intros i p Hall Hroom.
  - cbn. now rewrite append_nil_r.
  - inversion Hall as [|? ? Hchild Hrest]; subst. cbn [snd] in Hchild.
    cbn [map joined] in *. cbv zeta in *.
    change (spec_member render (name, child))
      with (name ++ " " ++ render child)%string in *.
    set (sep := if 0 <? i then ", " else "") in *.
    set (J := joined (i + 1) (map (spec_member render) members)) in *.
    rewrite !len_append in Hroom.
    pose proof (len_nonneg p). pose proof (len_nonneg sep). pose proof (len_nonneg J).
    pose proof (len_nonneg name). pose proof (len_nonneg (render child)).
    change (len " ") with 1 in Hroom.
    cbn [members_loop offset]. unfold size_sub. rewrite Z.mod_small by lia.
    replace (len p <? buf_size - 10) with true by (symmetry; apply Z.ltb_lt; lia).
    assert (Hb1 : (if 0 <? i then snprintf_at buf_size (mkBuf p (len p)) ", "
                   else Some (mkBuf p (len p)))
                  = Some (mkBuf (p ++ sep) (len (p ++ sep)))).
    { subst sep. destruct (0 <? i).
      - apply snprintf_at_room; [lia|]. change (len ", ") with 2. lia.
      - now rewrite append_nil_r. }
    rewrite Hb1. cbn [bind]. rewrite Hchild. cbn [bind].
    rewrite snprintf_at_room
      by (rewrite ?len_append; change (len " ") with 1; lia).
    cbn [bind]. rewrite IH; [|exact Hrest|].
    + rewrite !append_assoc. reflexivity.
    + fold J. rewrite !len_append. change (len " ") with 1. lia.
Qed.

Lemma enum_loop_room (buf_size : Z) :
  buf_size < 2 ^ 64 ->
  forall values i p,
    0 <= i <= 10 ->
    len p + len (joined i (map spec_enum_value (firstn (Z.to_nat (10 - i)) values)))
      + 20 <= buf_size ->
    enum_loop buf_size values i (mkBuf p (len p))
    = Some (mkBuf
              (p ++ joined i (map spec_enum_value (firstn (Z.to_nat (10 - i)) values)))
              (len (p ++ joined i (map spec_enum_value
                                         (firstn (Z.to_nat (10 - i)) values))))).
Proof.
  intros Hmax. induction values as [|val values IH]; intros i p Hi Hroom.
  - rewrite firstn_nil. cbn. now rewrite append_nil_r.
  - cbn [enum_loop offset].
    destruct (Z.ltb_spec i 10) as [Hlt|Hge]; cbn [andb].
    + replace (Z.to_nat (10 - i)) with (S (Z.to_nat (10 - (i + 1)))) in * by lia.
      cbn [firstn map joined] in *. cbv zeta in *.
      change (spec_enum_value val) with ("'" ++ val ++ "'")%string in *.
      set (sep := if 0 <? i then ", " else "") in *.
      set (J := joined (i + 1)
                  (map spec_enum_value (firstn (Z.to_nat (10 - (i + 1))) values))) in *.
      rewrite !len_append in Hroom. change (len "'") with 1 in Hroom.
      pose proof (len_nonneg p). pose proof (len_nonneg sep). pose proof (len_nonneg J).
      pose proof (len_nonneg val).
      unfold size_sub. rewrite Z.mod_small by lia.
      replace (len p <? buf_size - 20) with true by (symmetry; apply Z.ltb_lt; lia).
      assert (Hb1 : (if 0 <? i then snprintf_at buf_size (mkBuf p (len p)) ", "
                     else Some (mkBuf p (len p)))
                    = Some (mkBuf (p ++ sep) (len (p ++ sep)))).
      { subst sep. destruct (0 <? i).
        - apply snprintf_at_room; [lia|]. change (len ", ") with 2. lia.
        - now rewrite append_nil_r. }
      rewrite Hb1. cbn [bind].
      rewrite snprintf_at_room
        by (rewrite ?len_append; change (len "'") with 1; lia).
      cbn [bind]. rewrite IH; [|lia|].
      * rewrite !append_assoc. reflexivity.
      * fold J. rewrite !len_append. change (len "'") with 1. lia.
    + replace (Z.to_nat (10 - i)) with 0%nat by lia.
      cbn. now rewrite append_nil_r.
Qed.

Lemma type_nested_ind (P : LogicalType -> Prop) :
  (forall type, Forall P (subtypes type) -> P type) ->
  forall type, P type.
Proof.
  intros step. fix IH 1. intros type. apply step.
  destruct type as [w s|c|c n|k v|ms|ms|d|id]; cbn [subtypes];
    repeat constructor; auto.
  - induction ms as [|[name c] ms IHms]; constructor; auto.
  - induction ms as [|[name c] ms IHms]; constructor; auto.
Qed.

Lemma serialize_members (keyword : string) (buf_size : Z)
    (members : list (string * LogicalType)) :
  buf_size < 2 ^ 64 ->
  Forall (fun m => SerializeLogicalType (snd m) 256 = Some (spec_render (snd m)))
         members ->
  len (keyword ++ String.concat ", " (map (spec_member spec_render) members) ++ ")")
    + 20 <= buf_size ->
  (b0 <- snprintf_at buf_size empty_buf keyword ;;
   b1 <- members_loop SerializeLogicalType buf_size members 0 b0 ;;
   b2 <- snprintf_at buf_size b1 ")" ;;
   Some (content b2))
  = Some (keyword ++ String.concat ", " (map (spec_member spec_render) members)
                  ++ ")")%string.
Proof.
  intros Hmax Hall Hroom. rewrite <- joined_concat in *.
  set (J := joined 0 (map (spec_member spec_render) members)) in *.
  rewrite !len_append in Hroom. change (len ")") with 1 in Hroom.
  pose proof (len_nonneg keyword). pose proof (len_nonneg J).
  change empty_buf with (mkBuf "" (len "")).
  rewrite snprintf_at_room by (cbn; lia). cbn [bind append].
  rewrite (members_loop_room SerializeLogicalType spec_render buf_size Hmax
             members 0 keyword Hall) by (fold J; lia).
  cbn [bind]. fold J.
  rewrite snprintf_at_room by (rewrite ?len_append; change (len ")") with 1; lia).
  cbn [bind content]. now rewrite append_assoc.
Qed.

Lemma serialize_fits : forall type buf_size,
  buf_size < 2 ^ 64 -> fits type buf_size = true ->
  SerializeLogicalType type buf_size = Some (spec_render type).
Proof.
  induction type as [type IH] using type_nested_ind.
  intros buf_size Hmax Hfits.
  destruct type as [w s|c|c n|k v|ms|ms|d|id]; cbn [fits] in Hfits;
    apply andb_true_iff in Hfits as [Hlen Hsub]; apply Z.leb_le in Hlen;
    cbn [subtypes] in IH.
  - cbn [SerializeLogicalType spec_render] in *. apply snprintf_room; lia.
  - inversion IH as [|? ? Hc _]; subst.
    cbn [SerializeLogicalType spec_render] in *.
    rewrite (Hc 512) by (auto; lia). cbn [bind]. apply snprintf_room; lia.
  - inversion IH as [|? ? Hc _]; subst.
    cbn [SerializeLogicalType spec_render] in *.
    rewrite (Hc 512) by (auto; lia). cbn [bind]. apply snprintf_room; lia.
  - inversion IH as [|? ? Hk IH']; subst. inversion IH' as [|? ? Hv _]; subst.
    apply andb_true_iff in Hsub as [Hfk Hfv].
    cbn [SerializeLogicalType spec_render] in *.
    rewrite (Hk 256), (Hv 256) by (auto; lia). cbn [bind].
    apply snprintf_room; lia.
  - cbn [spec_render] in *.
    apply (serialize_members "STRUCT(" buf_size ms Hmax); [|exact Hlen].
    rewrite Forall_map in IH. rewrite forallb_forall in Hsub.
    apply Forall_forall. intros m Hm. rewrite Forall_forall in IH.
    apply (IH m Hm); [lia|auto].
  - cbn [spec_render] in *.
    apply (serialize_members "UNION(" buf_size ms Hmax); [|exact Hlen].
    rewrite Forall_map in IH. rewrite forallb_forall in Hsub.
    apply Forall_forall. intros m Hm. rewrite Forall_forall in IH.
    apply (IH m Hm); [lia|auto].
  - cbn [SerializeLogicalType spec_render] in *.
    set (J := String.concat ", " (map spec_enum_value (firstn 10 d))) in *.
    rewrite !len_append in Hlen. change (len "ENUM(") with 5 in Hlen.
    change (len ")") with 1 in Hlen.
    pose proof (len_nonneg J). pose proof (len_nonneg (spec_enum_suffix d)).
    change empty_buf with (mkBuf "" (len "")).
    rewrite snprintf_at_room by (cbn; lia). cbn [bind].
    change ("" ++ "ENUM(")%string with "ENUM(".
    pose proof (enum_loop_room buf_size Hmax d 0 "ENUM(") as Hloop.
    change (Z.to_nat (10 - 0)) with 10%nat in Hloop.
    rewrite joined_concat in Hloop. fold J in Hloop.
    rewrite Hloop by (rewrite ?len_append; change (len "ENUM(") with 5; lia).
    cbn [bind].
    set (p := ("ENUM(" ++ J)%string) in *.
    assert (Hsuffix :
              (if 10 <? Z.of_nat (List.length d)
               then snprintf_at buf_size (mkBuf p (len p))
                      (", ... +" ++ dec (Z.of_nat (List.length d) - 10) ++ " more")%string
               else Some (mkBuf p (len p)))
              = Some (mkBuf (p ++ spec_enum_suffix d)%string
                            (len (p ++ spec_enum_suffix d)%string))).
    { unfold spec_enum_suffix in *.
      destruct (Nat.ltb_spec 10 (List.length d)) as [Hbig|Hsmall].
      - replace (10 <? Z.of_nat (List.length d)) with true
          by (symmetry; apply Z.ltb_lt; lia).
        replace (Z.of_nat (List.length d - 10)) with (Z.of_nat (List.length d) - 10)
          in * by lia.
        apply snprintf_at_room; [lia|].
        subst p. rewrite ?len_append in *. change (len "ENUM(") with 5. lia.
      - replace (10 <? Z.of_nat (List.length d)) with false
          by (symmetry; apply Z.ltb_ge; lia).
        now rewrite append_nil_r. }
    rewrite Hsuffix. cbn [bind].
    rewrite snprintf_at_room
      by (subst p; rewrite ?len_append; change (len "ENUM(") with 5;
          change (len ")") with 1; lia).
    cbn [bind content]. subst p. now rewrite !append_assoc.
  - cbn [SerializeLogicalType spec_render] in *. apply snprintf_room; lia.
Qed.

(** C8, as the specification words it, fails: the buffers are of fixed size.
    A STRUCT of 100 INTEGER members is cut after 92 of them in the 1024
    bytes of the caller, and an ENUM of 11 long values, rendered into the
    256 bytes a MAP value gets, shows 7 of them and says 1 more. *)
Lemma serialize_type_cut_by_buffers :
  SerializeLogicalType wide_struct 1024 <> Some (spec_render wide_struct)
  /\ SerializeLogicalType (MapType varchar long_enum) 1024
     <> Some (spec_render (MapType varchar long_enum))
  /\ SerializeLogicalType (MapType varchar long_enum) 1024
     = Some ("MAP(VARCHAR, ENUM('012345678901234567890123456789', "
             ++ "'012345678901234567890123456789', "
             ++ "'012345678901234567890123456789', "
             ++ "'012345678901234567890123456789', "
             ++ "'012345678901234567890123456789', "
             ++ "'012345678901234567890123456789', "
             ++ "'012345678901234567890123456789', ... +1 more))")%string.
Proof.
  split; [|split].
  - intros H. apply (f_equal (option_map String.length)) in H.
    vm_compute in H. discriminate.
  - intros H. apply (f_equal (option_map String.length)) in H.
    vm_compute in H. discriminate.
  - vm_compute. reflexivity.
Qed.

(** C8, amended: whenever the rendering of the type leaves 20 bytes spare in
    the caller's buffer, and the rendering of every nested type leaves 20
    bytes spare in the fixed buffer it is written to (512 bytes under LIST
    and ARRAY, 256 bytes under MAP, STRUCT and UNION), the serializer writes
    exactly the rendering the rules describe: DECIMAL(width,scale),
    child[], child[n], MAP(k, v), STRUCT and UNION with their name-type
    pairs in declared order, ENUM with its first 10 values and the count of
    the values left out, the base name otherwise.  LIST(INTEGER) gives
    INTEGER[] and MAP(VARCHAR,INTEGER) gives MAP(VARCHAR, INTEGER). *)
Theorem serialize_type_renders_what_fits (type : LogicalType) (buf_size : Z) :
  buf_size < 2 ^ 64 -> fits type buf_size = true ->
  SerializeLogicalType type buf_size = Some (spec_render type)
  /\ SerializeLogicalType (ListType integer) 1024 = Some "INTEGER[]"
  /\ SerializeLogicalType (MapType varchar integer) 1024
     = Some "MAP(VARCHAR, INTEGER)".
Proof.
  intros Hmax Hfits. split; [now apply serialize_fits|]. split; reflexivity.
Qed.

Lemma serialize_type_renders_what_fits_witness :
  1024 < 2 ^ 64 /\ fits nested_sample 1024 = true
  /\ SerializeLogicalType nested_sample 1024 = Some (spec_render nested_sample).
Proof.
  split; [reflexivity|]. split; [reflexivity|].
  exact (proj1 (serialize_type_renders_what_fits nested_sample 1024
                  eq_refl eq_refl)).
Defined.

End TypeSigFacts.

(* ======================================================================= *)
(** * More about the comment stripper *)
(* ======================================================================= *)

Section StripMoreFacts.
Import Strip StripText.

Lemma strlen_le s : strlen s <= String.length s.
Proof.
  induction s as [|c rest IH]; cbn [strlen String.length]; [lia|].
  destruct (c =? zero)%char; lia.
Qed.

Lemma c_str_length s : String.length (substring 0 (strlen s) s) = strlen s.
Proof.
  induction s as [|c rest IH]; [reflexivity|].
  cbn [strlen]. destruct (c =? zero)%char; [reflexivity|].
  cbn [substring String.length]. now rewrite IH.
Qed.

(** X1: The output is never longer than the input; in the C layer it is never
    longer than [strlen(sql)], so the [len + 1] bytes allocated for it are
    enough. *)
Theorem strip_comments_never_grows (T : string) :
  String.length (SqlStripCommentsFunc T) <= String.length T
  /\ String.length (StripComments T) <= strlen T.
Proof.
  split; [apply scan_length|].
  unfold StripComments. cbv zeta. rewrite scan_equiv.
  rewrite <- (c_str_length T) at 2. apply scan_length.
Qed.


Lemma no_pair_rest a b c rest :
  no_pair a b (String c rest) = true ->
  ((c =? a)%char && next_is rest b = false) /\ no_pair a b rest = true.
Proof.
  cbn [no_pair]. intros H. apply andb_true_iff in H as [H1 H2].
  apply negb_true_iff in H1. auto.
Qed.

Lemma no_pair_skip a b rest :
  no_pair a b rest = true -> no_pair a b (skip rest) = true.
Proof.
  destruct rest as [|c r]; [auto|]. intros H. apply no_pair_rest in H. apply H.
Qed.

Lemma no_pair_block s : no_pair slash star s = no_block_open s.
Proof. induction s as [|c rest IH]; cbn; [reflexivity|now rewrite IH]. Qed.

Lemma skip_next rest :
  at_end rest = false -> String (next_char rest) (skip rest) = rest.
Proof. destruct rest; [discriminate|reflexivity]. Qed.

Lemma scan_without_openers : forall s,
  no_pair dash dash s = true -> no_pair slash star s = true ->
  cpp_scan Normal s = s /\ forall q, cpp_scan (InString q) s = s.
Proof.
  induction s as [s IH] using string_length_ind.
  intros Hd Hs. destruct s as [|c rest]; [split; reflexivity|].
  pose proof (no_pair_rest _ _ _ _ Hd) as [Hd1 Hdr].
  pose proof (no_pair_rest _ _ _ _ Hs) as [Hs1 Hsr].
  assert (Lr : String.length rest < String.length (String c rest)) by (simpl; lia).
  assert (Lk : String.length (skip rest) < String.length (String c rest))
    by (pose proof (skip_length rest); simpl; lia).
  destruct (IH rest Lr Hdr Hsr) as [IHn IHq].
  split.
  - cbn [cpp_scan]. rewrite !next_char_is by discriminate. rewrite Hd1, Hs1.
    destruct ((c =? squote)%char || (c =? dquote)%char); f_equal; auto.
  - intros q. cbn [cpp_scan].
    destruct (c =? q)%char; cbn [andb]; [|f_equal; auto].
    destruct (at_end rest) eqn:He; cbn [orb]; [f_equal; auto|].
    destruct (negb (next_char rest =? q)%char); [f_equal; auto|].
    f_equal. rewrite <- (skip_next rest He) at 3. f_equal.
    apply (IH (skip rest) Lk); now apply no_pair_skip.
Qed.

(** X2: A text with no [--] and no [/*] in it comes back unchanged (from the C
    layer: when it has no NUL byte either). *)
Theorem strip_comments_keeps_text_without_comments (T : string) :
  no_pair dash dash T = true -> no_pair slash star T = true ->
  SqlStripCommentsFunc T = T
  /\ (nul_free T = true -> StripComments T = T).
Proof.
  intros Hd Hs. split; [now apply scan_without_openers|].
  intros Hn. unfold StripComments. cbv zeta.
  rewrite (c_str_id T Hn), scan_equiv. now apply scan_without_openers.
Qed.

Lemma strip_comments_keeps_text_witness :
  SqlStripCommentsFunc "SELECT a - b / 2 AS 'x-y' FROM t"
  = "SELECT a - b / 2 AS 'x-y' FROM t".
Proof.
  apply (strip_comments_keeps_text_without_comments
           "SELECT a - b / 2 AS 'x-y' FROM t"); reflexivity.
Defined.

(** ** What removing a comment leaves *)

Lemma plain_rest c rest :
  plain (String c rest) = true ->
  (c =? squote)%char = false /\ (c =? dquote)%char = false
  /\ ((c =? dash)%char && next_is rest dash = false)
  /\ ((c =? slash)%char && next_is rest star = false)
  /\ plain rest = true.
Proof.
  unfold plain. cbn [lacks no_pair]. intros H.
  repeat match goal with
         | X : _ && _ = true |- _ => apply andb_true_iff in X as [? ?]
         | X : negb _ = true |- _ => apply negb_true_iff in X
         end.
  repeat split; auto.
  repeat (apply andb_true_iff; split); auto.
Qed.

Lemma append_empty_r (s : string) : (s ++ "")%string = s.
Proof. induction s as [|c s IH]; cbn; [reflexivity|now rewrite IH]. Qed.

(** Plain text is copied, and the scanner is in its ordinary state behind
    it, unless its last character opens a comment with what follows. *)
Lemma scan_plain_prefix (pre rest : string) :
  plain pre = true ->
  ends_with dash pre && next_is rest dash = false ->
  ends_with slash pre && next_is rest star = false ->
  cpp_scan Normal (pre ++ rest) = (pre ++ cpp_scan Normal rest)%string.
Proof.
  induction pre as [|c pre IH]; [reflexivity|].
  intros H Hdash Hslash. apply plain_rest in H as (Hq & Hdq & Hd & Hs & Hp).
  cbn [append cpp_scan]. rewrite Hq, Hdq. cbn [orb].
  rewrite !next_char_is by discriminate.
  destruct pre as [|n pre'].
  - cbn [append ends_with] in *. rewrite Hdash, Hslash. reflexivity.
  - cbn [append next_is] in *. rewrite Hd, Hs. f_equal.
    apply IH; assumption.
Qed.

Lemma lacks_rest x c rest :
  lacks x (String c rest) = true -> (c =? x)%char = false /\ lacks x rest = true.
Proof.
  cbn [lacks]. intros H. apply andb_true_iff in H as [H1 H2].
  apply negb_true_iff in H1. auto.
Qed.

Lemma line_comment_dropped (comment rest : string) :
  lacks newline comment = true ->
  cpp_scan InLineComment (comment ++ String newline rest)
  = String newline (cpp_scan Normal rest)
  /\ cpp_scan InLineComment comment = EmptyString.
Proof.
  induction comment as [|c comment IH]; [split; reflexivity|].
  intros H. apply lacks_rest in H as [Hc Hr].
  cbn [append cpp_scan]. rewrite Hc. auto.
Qed.

Lemma block_comment_dropped (body rest : string) :
  no_pair star slash body = true ->
  cpp_scan InBlockComment (body ++ block_close ++ rest) = cpp_scan Normal rest
  /\ cpp_scan InBlockComment body = EmptyString.
Proof.
  induction body as [|c body IH]; [split; reflexivity|].
  intros H. apply no_pair_rest in H as [Hc Hr].
  destruct (IH Hr) as [IH1 IH2]. split.
  - cbn [append cpp_scan].
    replace ((c =? star)%char
             && (next_char (body ++ block_close ++ rest) =? slash)%char)
      with false; [exact IH1|].
    symmetry. destruct (c =? star)%char; [|reflexivity]. cbn [andb] in *.
    destruct body as [|n body']; [reflexivity|]. exact Hc.
  - cbn [cpp_scan].
    replace ((c =? star)%char && (next_char body =? slash)%char) with false;
      [exact IH2|].
    symmetry. rewrite next_char_is by discriminate. exact Hc.
Qed.

(** X3: A line comment after text with no quote and no comment opener
    that does not end in a dash: the text stays, the comment goes, the
    newline that ends it stays and scanning goes on behind it; a line
    comment that runs to the end of the input goes altogether. *)
Theorem strip_comments_removes_line_comment (pre comment rest : string) :
  plain pre = true -> ends_with dash pre = false ->
  lacks newline comment = true ->
  SqlStripCommentsFunc (pre ++ line_open ++ comment ++ String newline rest)
  = (pre ++ String newline (SqlStripCommentsFunc rest))%string
  /\ SqlStripCommentsFunc (pre ++ line_open ++ comment) = pre.
Proof.
  intros Hp He Hc. unfold SqlStripCommentsFunc.
  destruct (line_comment_dropped comment rest Hc) as [H1 H2].
  split; rewrite scan_plain_prefix
    by (try exact Hp; try (now rewrite He); apply andb_false_r);
    cbn [line_open append cpp_scan next_char skip];
    cbn [Ascii.eqb Bool.eqb dash andb].
  - now rewrite H1.
  - rewrite H2. apply append_empty_r.
Qed.

Lemma strip_comments_removes_line_comment_witness :
  SqlStripCommentsFunc "SELECT a - b, c / 2  -- 'the' columns /* of t */"
  = "SELECT a - b, c / 2  ".
Proof.
  apply (strip_comments_removes_line_comment
           "SELECT a - b, c / 2  " " 'the' columns /* of t */" "");
    reflexivity.
Defined.

(** X4: A block comment after text with no quote and no comment opener:
    the text stays, the comment goes up to and including the first [*/],
    and scanning goes on behind it; a block comment that is never closed
    swallows the rest of the input. *)
Theorem strip_comments_removes_block_comment (pre body rest : string) :
  plain pre = true -> no_pair star slash body = true ->
  SqlStripCommentsFunc (pre ++ block_open ++ body ++ block_close ++ rest)
  = (pre ++ SqlStripCommentsFunc rest)%string
  /\ SqlStripCommentsFunc (pre ++ block_open ++ body) = pre.
Proof.
  intros Hp Hb. unfold SqlStripCommentsFunc.
  destruct (block_comment_dropped body rest Hb) as [H1 H2].
  split; rewrite scan_plain_prefix
    by (try exact Hp; apply andb_false_r);
    cbn [block_open append cpp_scan next_char skip];
    cbn [Ascii.eqb Bool.eqb dash slash star andb].
  - now rewrite H1.
  - rewrite H2. apply append_empty_r.
Qed.

Lemma strip_comments_removes_block_comment_witness :
  SqlStripCommentsFunc "SELECT a - b / 2 /* one -- 'two' * / three */ FROM t"
  = "SELECT a - b / 2  FROM t".
Proof.
  apply (strip_comments_removes_block_comment
           "SELECT a - b / 2 " " one -- 'two' * / three " " FROM t");
    reflexivity.
Defined.

End StripMoreFacts.

(* ======================================================================= *)
(** * Properties of is_keyword *)
(* ======================================================================= *)

Section KeywordFacts.
Import Keywords.
Local Open Scope list_scope.

Lemma same_but_case_upper c d :
  same_but_case c d = true ->
  to_upper c = to_upper d /\ (c =? zero)%char = (d =? zero)%char.
Proof.
  unfold same_but_case. intros H.
  apply orb_true_iff in H as [H|H]; [apply orb_true_iff in H as [H|H]|].
  - apply Ascii.eqb_eq in H. now subst d.
  - apply andb_true_iff in H as [Hl Hd]. apply Ascii.eqb_eq in Hd. subst d.
    revert Hl. destruct c as [[] [] [] [] [] [] [] []]; vm_compute;
      intros; try discriminate; split; reflexivity.
  - apply andb_true_iff in H as [Hl Hc]. apply Ascii.eqb_eq in Hc. subst c.
    revert Hl. destruct d as [[] [] [] [] [] [] [] []]; vm_compute;
      intros; try discriminate; split; reflexivity.
Qed.

Lemma differ_in_case_only_uppercase : forall s t,
  differ_in_case_only s t = true ->
  uppercase (GetString s) = uppercase (GetString t).
Proof.
  unfold GetString.
  induction s as [|c s IH]; intros [|d t] H; try discriminate; [reflexivity|].
  cbn [differ_in_case_only] in H. apply andb_true_iff in H as [Hcd Hst].
  destruct (same_but_case_upper c d Hcd) as [Hup Hz].
  cbn [Strip.strlen]. rewrite <- Hz.
  destruct (c =? zero)%char eqn:Hc; [reflexivity|].
  cbn [substring uppercase]. rewrite <- Hz, Hc, Hup. f_equal. now apply IH.
Qed.

(** X5: The answer does not depend on the case of ASCII letters. *)
Theorem is_keyword_ignores_case (s t : string) :
  differ_in_case_only s t = true ->
  IsKeywordFunction s = IsKeywordFunction t.
Proof.
  intros H. unfold IsKeywordFunction. cbv zeta.
  now rewrite (differ_in_case_only_uppercase s t H).
Qed.

Lemma is_keyword_ignores_case_witness :
  IsKeywordFunction "Current_Timestamp" = IsKeywordFunction "CURRENT_TIMESTAMP".
Proof.
  apply (is_keyword_ignores_case "Current_Timestamp" "CURRENT_TIMESTAMP").
  reflexivity.
Defined.

Lemma keywords_are_words :
  forallb (all_chars is_word_char) SQL_KEYWORDS = true.
Proof. vm_compute. reflexivity. Qed.

Lemma to_upper_word_char c :
  is_word_char (to_upper c) = true -> is_word_char c = true.
Proof.
  destruct c as [[] [] [] [] [] [] [] []]; vm_compute; intros H;
    first [reflexivity | discriminate].
Qed.

Lemma uppercase_word_chars : forall s,
  Strip.nul_free s = true ->
  all_chars is_word_char (uppercase s) = true -> all_chars is_word_char s = true.
Proof.
  induction s as [|c s IH]; [reflexivity|].
  intros Hn. apply nul_free_rest in Hn as [Hc Hs].
  apply Ascii.eqb_neq in Hc. cbn [uppercase all_chars]. rewrite Hc.
  cbn [all_chars]. intros H. apply andb_true_iff in H as [H1 H2].
  rewrite (to_upper_word_char c H1). now apply IH.
Qed.

(** X6: Only letters and underscores make a keyword: a text with a blank, a
    digit, a quote or any other character before its first NUL byte is not
    one (nothing is trimmed or unquoted). *)
Theorem is_keyword_only_of_words (s : string) :
  IsKeywordFunction s = true ->
  all_chars is_word_char (GetString s) = true.
Proof.
  unfold IsKeywordFunction. cbv zeta. intros H.
  apply existsb_exists in H as (kw & Hin & Heq). apply String.eqb_eq in Heq.
  apply uppercase_word_chars; [apply c_str_nul_free|].
  rewrite Heq. pose proof keywords_are_words as Hall.
  rewrite forallb_forall in Hall. now apply Hall.
Qed.

Lemma is_keyword_only_of_words_witness :
  all_chars is_word_char (GetString "select") = true.
Proof. apply (is_keyword_only_of_words "select"). reflexivity. Defined.

End KeywordFacts.

(* ======================================================================= *)
(** * Properties of the queries built around the user's text *)
(* ======================================================================= *)

Section PlanQueryFacts.
Import TypeSig PlanQuery.
Local Open Scope list_scope.
Local Open Scope Z_scope.

Lemma poke_room (size : Z) (p : string) (c : ascii) :
  len p < size ->
  poke size (mkBuf p (len p)) c
  = Some (mkBuf (p ++ String c EmptyString) (len (p ++ String c EmptyString))).
Proof.
  intros Hroom. pose proof (len_nonneg p). unfold poke. cbn [offset content].
  replace (0 <=? len p) with true by (symmetry; apply Z.leb_le; lia).
  replace (len p <? size) with true by (symmetry; apply Z.ltb_lt; lia).
  cbn [andb]. rewrite take_all by lia. rewrite len_append. reflexivity.
Qed.

Lemma len_sql_escape (s : string) : len (sql_escape s) <= 2 * len s.
Proof.
  unfold len. induction s as [|c s IH]; cbn [sql_escape String.length]; [lia|].
  destruct (c =? "'")%char; cbn [String.length]; lia.
Qed.

Lemma escape_loop_room (size guard : Z) :
  2 <= guard -> size < 2 ^ 64 ->
  forall s p,
    len p + 2 * len s + guard <= size + 1 ->
    escape_loop size guard s (mkBuf p (len p))
    = Some (mkBuf (p ++ sql_escape s) (len (p ++ sql_escape s))).
Proof.
  intros Hguard Hmax. induction s as [|c s IH]; intros p Hroom.
  - cbn. now rewrite append_nil_r.
  - pose proof (len_nonneg p). pose proof (len_nonneg s).
    assert (Hcs : len (String c s) = len s + 1) by (unfold len; cbn; lia).
    rewrite Hcs in Hroom.
    cbn [escape_loop offset sql_escape]. unfold size_sub.
    rewrite Z.mod_small by lia.
    replace (len p <? size - guard) with true by (symmetry; apply Z.ltb_lt; lia).
    destruct (c =? "'")%char.
    + rewrite poke_room by lia. cbn [bind].
      rewrite poke_room by (rewrite len_append; change (len "'") with 1; lia).
      cbn [bind]. rewrite IH.
      * rewrite !append_assoc. reflexivity.
      * rewrite !len_append. change (len "'") with 1. lia.
    + rewrite poke_room by lia. cbn [bind]. rewrite IH.
      * rewrite !append_assoc. reflexivity.
      * rewrite !len_append. change (len (String c "")) with 1. lia.
Qed.

Lemma build_query_exact (shape : QueryShape) (sql : string) :
  2 <= guard shape ->
  len (header shape) + guard shape <= slack shape + 1 ->
  len (header shape) + len (suffix shape) < slack shape ->
  slack shape < 2 ^ 62 -> Z.of_nat (Strip.strlen sql) < 2 ^ 62 ->
  build_query shape sql
  = Some (header shape ++ sql_escape (Keywords.GetString sql) ++ suffix shape)%string.
Proof.
  intros Hg Hh Hs Hslack Hlen. unfold build_query, Keywords.GetString. cbv zeta.
  set (s := substring 0 (Strip.strlen sql) sql).
  assert (Hs_len : len s = Z.of_nat (Strip.strlen sql))
    by (unfold len, s; now rewrite c_str_length).
  rewrite <- Hs_len in *.
  pose proof (len_nonneg s). pose proof (len_nonneg (header shape)).
  pose proof (len_nonneg (suffix shape)). pose proof (len_sql_escape s).
  rewrite Z.mod_small by lia.
  change empty_buf with (mkBuf "" (len "")).
  rewrite snprintf_at_room by (change (len "") with 0; lia).
  cbn [bind append].
  rewrite escape_loop_room by lia. cbn [bind].
  rewrite snprintf_at_room by (rewrite ?len_append; lia).
  cbn [bind content]. now rewrite append_assoc.
Qed.

Lemma build_query_exact_shapes (shape : QueryShape) (sql : string) :
  In shape shapes -> Z.of_nat (Strip.strlen sql) < 2 ^ 62 ->
  build_query shape sql
  = Some (header shape ++ sql_escape (Keywords.GetString sql) ++ suffix shape)%string.
Proof.
  intros Hin Hlen. cbn [shapes In] in Hin.
  destruct Hin as [<-|[<-|[<-|[<-|[]]]]]; apply build_query_exact; auto;
    vm_compute; first [reflexivity | discriminate].
Qed.

(** X7: At each of the six places that wrap the user's text in a query, the
    text is never cut and the buffer never overrun: what is built is the
    header, the text with every single quote doubled, and the suffix. *)
Theorem built_query_is_exact (shape : QueryShape) (sql : string) :
  In shape shapes -> Z.of_nat (Strip.strlen sql) < 2 ^ 62 ->
  build_query shape sql
  = Some (header shape ++ sql_escape (Keywords.GetString sql) ++ suffix shape)%string.
Proof. exact (build_query_exact_shapes shape sql). Qed.

Lemma built_query_is_exact_witness :
  build_query plan_shape "SELECT 'it''s' FROM t"
  = Some "SELECT json_serialize_plan('SELECT ''it''''s'' FROM t')".
Proof.
  apply (built_query_is_exact plan_shape "SELECT 'it''s' FROM t");
    [left; reflexivity|reflexivity].
Defined.

End PlanQueryFacts.

Section EscapeFacts.
Import TypeSig PlanQuery.
Local Open Scope list_scope.
Local Open Scope Z_scope.

Lemma sql_escape_literal (s : string) :
  Strip.literal_body Strip.squote (sql_escape s) = true.
Proof.
  induction s as [|c s IH]; [reflexivity|]. cbn [sql_escape].
  destruct (Ascii.eqb_spec c "'") as [->|Hc].
  - cbn [Strip.literal_body Strip.next_is Strip.skip]. exact IH.
  - cbn [Strip.literal_body]. apply Ascii.eqb_neq in Hc.
    change Strip.squote with "'"%char. now rewrite Hc.
Qed.

Lemma sql_escape_injective : forall s t, sql_escape s = sql_escape t -> s = t.
Proof.
  induction s as [|c s IH]; intros [|d t] H; cbn [sql_escape] in H.
  - reflexivity.
  - destruct (d =? "'")%char; discriminate.
  - destruct (c =? "'")%char; discriminate.
  - destruct (Ascii.eqb_spec c "'") as [->|Hc], (Ascii.eqb_spec d "'") as [->|Hd].
    + injection H as H. f_equal. now apply IH.
    + injection H as H1 H2. congruence.
    + injection H as H1 H2. congruence.
    + injection H as H1 H2. subst d. f_equal. now apply IH.
Qed.

Lemma append_cancel_l (p a b : string) : (p ++ a = p ++ b)%string -> a = b.
Proof. induction p as [|c p IH]; cbn; [auto|]. intros [= H]. auto. Qed.

Lemma append_cancel_r : forall (a b s : string), (a ++ s = b ++ s)%string -> a = b.
Proof.
  induction a as [|c a IH]; intros [|d b] s H; cbn [append] in H.
  - reflexivity.
  - apply (f_equal len) in H.
    change (String d (b ++ s)) with (String d b ++ s)%string in H.
    rewrite len_append in H. unfold len in H. cbn [String.length] in H. lia.
  - apply (f_equal len) in H.
    change (String c (a ++ s)) with (String c a ++ s)%string in H.
    rewrite len_append in H. unfold len in H. cbn [String.length] in H. lia.
  - injection H as -> H. f_equal. now apply (IH b s).
Qed.

(** X8: The user's text stays inside the string literal it is put in: every
    single quote of what stands between header and suffix is doubled; and
    two texts that give the same query are the same text. *)
Theorem built_query_keeps_text_in_literal (shape : QueryShape) (sql sql' : string) :
  In shape shapes ->
  Z.of_nat (Strip.strlen sql) < 2 ^ 62 -> Z.of_nat (Strip.strlen sql') < 2 ^ 62 ->
  (exists body,
     build_query shape sql = Some (header shape ++ body ++ suffix shape)%string
     /\ Strip.literal_body Strip.squote body = true)
  /\ (build_query shape sql' = build_query shape sql ->
      Keywords.GetString sql' = Keywords.GetString sql).
Proof.
  intros Hin Hlen Hlen'. split.
  - exists (sql_escape (Keywords.GetString sql)).
    split; [now apply build_query_exact_shapes|apply sql_escape_literal].
  - rewrite !build_query_exact_shapes by assumption. intros [= H].
    apply append_cancel_l, append_cancel_r in H. now apply sql_escape_injective.
Qed.

Lemma built_query_keeps_text_in_literal_witness :
  exists body,
    build_query where_shape "x = 'a' -- '" =
      Some (header where_shape ++ body ++ suffix where_shape)%string
    /\ Strip.literal_body Strip.squote body = true.
Proof.
  apply (built_query_keeps_text_in_literal where_shape "x = 'a' -- '" "");
    [right; right; right; left; reflexivity|reflexivity|reflexivity].
Defined.

End EscapeFacts.

(* ======================================================================= *)
(** * Properties of the scan of the serialized plan *)
(* ======================================================================= *)

Section JsonScanFacts.
Import Strip StripText JsonScan.
Local Open Scope list_scope.

Lemma prefix_length : forall n s, prefix n s = true -> String.length n <= String.length s.
Proof.
  induction n as [|a n IH]; intros [|b s] H; cbn in *; try lia; try discriminate.
  destruct (ascii_dec a b); [|discriminate]. specialize (IH s H). lia.
Qed.

Lemma strstr_found : forall haystack needle found,
  strstr haystack needle = Some found ->
  prefix needle found = true /\ String.length found <= String.length haystack.
Proof.
  induction haystack as [|c rest IH]; intros needle found H; cbn [strstr] in H.
  - destruct (prefix needle "") eqn:Hp; [|discriminate].
    injection H as <-. auto.
  - destruct (prefix needle (String c rest)) eqn:Hp.
    + injection H as <-. auto.
    + destruct (IH needle found H) as [H1 H2]. cbn [String.length]. split; [auto|lia].
Qed.

Lemma advance_length : forall n p,
  String.length (advance n p) = String.length p - n.
Proof.
  induction n as [|n IH]; intros [|c p]; cbn [advance String.length]; try lia.
  rewrite IH. lia.
Qed.

Lemma substring_length : forall n s,
  n <= String.length s -> String.length (substring 0 n s) = n.
Proof.
  induction n as [|n IH]; intros [|c s] H; cbn in *; try reflexivity; try lia.
  rewrite IH; lia.
Qed.

Lemma strchr_found : forall s c finish,
  strchr s c = Some finish ->
  String.length finish <= String.length s
  /\ lacks c (copy_until s finish) = true.
Proof.
  unfold copy_until, distance.
  induction s as [|x s IH]; intros c finish H; cbn [strchr] in H; [discriminate|].
  destruct (x =? c)%char eqn:Hx.
  - injection H as <-. rewrite Nat.sub_diag. split; [lia|reflexivity].
  - destruct (IH c finish H) as [Hlen Hlacks]. cbn [String.length].
    split; [lia|].
    replace (S (String.length s) - String.length finish)
      with (S (String.length s - String.length finish)) by lia.
    cbn [substring lacks]. now rewrite Hx, Hlacks.
Qed.

Lemma copy_until_length s c finish :
  strchr s c = Some finish ->
  String.length (copy_until s finish) = distance s finish.
Proof.
  intros H. unfold copy_until. apply substring_length. unfold distance. lia.
Qed.

Lemma table_names_loop_ends : forall fuel pos names,
  String.length pos < fuel -> Forall good_name names ->
  exists result,
    table_names_loop fuel pos names = Some result /\ Forall good_name result.
Proof.
  induction fuel as [|fuel IH]; intros pos names Hfuel Hnames; [lia|].
  cbn [table_names_loop].
  destruct (strstr pos table_tag) as [found|] eqn:Hfound; [|eauto].
  apply strstr_found in Hfound as [Hprefix Hlen].
  apply prefix_length in Hprefix. change (String.length table_tag) with 9 in Hprefix.
  cbv zeta.
  destruct (strchr (advance 9 found) dquote) as [finish|] eqn:Hfinish; [|eauto].
  pose proof (copy_until_length _ _ _ Hfinish) as Hcopy.
  apply strchr_found in Hfinish as [Hflen Hlacks].
  rewrite advance_length in Hflen.
  apply IH; [lia|].
  destruct (Nat.ltb_spec 0 (distance (advance 9 found) finish)); cbn [andb]; [|auto].
  destruct (Nat.ltb_spec (distance (advance 9 found) finish) 256); [|auto].
  apply Forall_app. split; [auto|]. constructor; [|constructor].
  split; [rewrite Hcopy; lia|exact Hlacks].
Qed.


(** X9: The scan of [ParseTableNamesFunction] ends on every plan text, and every
    name it lists is not empty, shorter than 256 bytes and free of quotes
    (empty and longer values are passed over). *)
Theorem table_names_are_well_formed (plan_json : string) :
  exists names,
    table_names plan_json = Some names /\ Forall good_name names.
Proof.
  apply table_names_loop_ends; [lia|constructor].
Qed.

Lemma find_schema_lacks_quote fd_start schema :
  find_schema fd_start = Some schema -> lacks dquote schema = true.
Proof.
  unfold find_schema.
  destruct (strstr fd_start schema_tag) as [schema_start|]; [|discriminate].
  destruct (distance fd_start schema_start <? 500)%nat; [|discriminate].
  destruct (strchr (advance 10 schema_start) dquote) as [schema_end|] eqn:H;
    [|discriminate].
  intros [= <-]. now apply strchr_found in H.
Qed.

Lemma add_table_good fd_start context rows :
  Forall (good_row context) rows ->
  Forall (good_row context) (add_table fd_start context rows).
Proof.
  intros Hrows. unfold add_table.
  destruct (strstr fd_start table_tag) as [table_start|]; [|exact Hrows].
  destruct (distance fd_start table_start <? 500)%nat; [|exact Hrows].
  destruct (strchr (advance 9 table_start) dquote) as [table_end|] eqn:Hend;
    [|exact Hrows].
  apply Forall_app. split; [exact Hrows|]. constructor; [|constructor].
  apply strchr_found in Hend as [_ Htable].
  repeat split; cbn [row_context row_table row_schema]; [exact Htable|].
  destruct (find_schema fd_start) as [schema|] eqn:Hschema; [|reflexivity].
  now apply find_schema_lacks_quote in Hschema.
Qed.

Lemma skip_found pos needle found :
  strstr pos needle = Some found -> 0 < String.length needle ->
  String.length (skip found) < String.length pos.
Proof.
  intros H Hn. apply strstr_found in H as [Hp Hlen].
  apply prefix_length in Hp. destruct found; cbn in *; lia.
Qed.

Lemma extract_tables_loop_ends : forall fuel pos context rows,
  String.length pos < fuel -> Forall (good_row context) rows ->
  exists result,
    extract_tables_loop fuel pos context rows = Some result
    /\ Forall (good_row context) result.
Proof.
  induction fuel as [|fuel IH]; intros pos context rows Hfuel Hrows; [lia|].
  cbn [extract_tables_loop].
  destruct (strstr pos logical_get_tag) as [found|] eqn:Hfound; [|eauto].
  assert (Hskip : String.length (skip found) < fuel).
  { pose proof (skip_found pos logical_get_tag found Hfound) as H.
    change (String.length logical_get_tag) with 20 in H. lia. }
  destruct (strstr found function_data_tag) as [fd_start|]; [|now apply IH].
  destruct (2000 <? distance found fd_start)%nat; apply IH; auto.
  now apply add_table_good.
Qed.

(** X10: [ExtractTablesFromJson] ends on every plan text; every row it adds
    carries the context it was called with (so every row of the C layer's
    parse_tables has context [from]), and a table name and a schema
    without quotes. *)
Theorem extract_tables_from_json_rows (json context : string) :
  exists rows,
    ExtractTablesFromJson json context = Some rows
    /\ Forall (good_row context) rows.
Proof.
  apply extract_tables_loop_ends; [lia|constructor].
Qed.

End JsonScanFacts.

(* ======================================================================= *)
(** * More about the table extractor *)
(* ======================================================================= *)

Section TableMoreFacts.
Import Ast Extract Api.
Local Open Scope list_scope.

Context {Value : Type}.

Section MutualInduction.

Variable P : QueryNode Value -> Prop.
Variable Q : TableRef Value -> Prop.

Hypothesis node_step : forall node,
  on_some Q (from_of node) ->
  Forall (fun entry => on_some P (table_of_cte entry)) (cte_map_of node) ->
  P node.
Hypothesis base_step : forall s t, Q (BaseTableRef s t).
Hypothesis join_step : forall l r c,
  on_some Q l -> on_some Q r -> Q (JoinRef l r c).
Hypothesis subquery_step : forall subquery,
  on_some P (node_of_subquery subquery) -> Q (SubqueryRef subquery).
Hypothesis function_step : forall f, Q (TableFunctionRef f).
Hypothesis other_step : forall t, Q (OtherTableRef t).

Ltac pointer F := let t := fresh "t" in intros [t|]; [apply F|exact I].

Ltac walk_node FP FQ :=
  intros [ctes sl from w g h|ctes l r]; apply node_step;
  cbn [from_of cte_map_of];
  [ revert from; pointer FQ
  | induction ctes as [|[name [[[[[n|]]|]]|]] ctes IHctes]; constructor;
    first [exact IHctes | exact I | apply FP]
  | exact I
  | induction ctes as [|[name [[[[[n|]]|]]|]] ctes IHctes]; constructor;
    first [exact IHctes | exact I | apply FP] ].

Ltac walk_ref FP FQ :=
  intros [s t|l r c|[[[n|]]|]|f|t];
  [ apply base_step
  | apply join_step; [revert l|revert r]; pointer FQ
  | apply subquery_step; apply FP
  | apply subquery_step; exact I
  | apply subquery_step; exact I
  | apply function_step
  | apply other_step ].

Lemma query_node_ind : forall node, P node.
Proof.
  fix FP 1 with (FQ (tref : TableRef Value) {struct tref} : Q tref);
    [walk_node FP FQ|walk_ref FP FQ].
Qed.

Lemma table_ref_ind : forall tref, Q tref.
Proof.
  fix FQ 1 with (FP (node : QueryNode Value) {struct node} : P node);
    [walk_ref FP FQ|walk_node FP FQ].
Qed.

End MutualInduction.


(** The CTE loop of [ExtractTablesFromQueryNode], as a fold. *)
Lemma extract_tables_node_unfold (node : QueryNode Value) tables :
  ExtractTablesFromQueryNode node tables
  = fold_left
      (fun ts entry =>
         match table_of_cte entry with
         | Some n => ExtractTablesFromQueryNode n ts
         | None => ts
         end)
      (cte_map_of node)
      (match from_of node with
       | Some tref => ExtractTablesFromTableRef tref tables "FROM"
       | None => tables
       end).
Proof.
  destruct node as [ctes sl from w g h|ctes l r];
    cbn [ExtractTablesFromQueryNode from_of cte_map_of].
  - generalize (match from with
                | Some tref => ExtractTablesFromTableRef tref tables "FROM"
                | None => tables
                end) as start.
    induction ctes as [|[name [[[[[n|]]|]]|]] ctes IH]; intros start;
      [reflexivity|..]; cbn [fold_left table_of_cte]; apply IH.
  - generalize tables as start.
    induction ctes as [|[name [[[[[n|]]|]]|]] ctes IH]; intros start;
      [reflexivity|..]; cbn [fold_left table_of_cte]; apply IH.
Qed.

Lemma extract_tables_appends :
  (forall (node : QueryNode Value) tables,
     ExtractTablesFromQueryNode node tables
     = tables ++ ExtractTablesFromQueryNode node [])
  /\ (forall (tref : TableRef Value) tables ctx,
        ExtractTablesFromTableRef tref tables ctx
        = tables ++ ExtractTablesFromTableRef tref [] ctx).
Proof.
  set (P := fun node : QueryNode Value => forall tables,
              ExtractTablesFromQueryNode node tables
              = tables ++ ExtractTablesFromQueryNode node []).
  set (Q := fun tref : TableRef Value => forall tables ctx,
              ExtractTablesFromTableRef tref tables ctx
              = tables ++ ExtractTablesFromTableRef tref [] ctx).
  assert (node_step : forall node,
             on_some Q (from_of node) ->
             Forall (fun entry => on_some P (table_of_cte entry)) (cte_map_of node) ->
             P node).
  { intros node Hfrom Hctes tables. rewrite !extract_tables_node_unfold.
    assert (H : Forall (fun entry : string * option (CommonTableExpressionInfo Value) =>
                          forall acc,
                            match table_of_cte entry with
                            | Some n => ExtractTablesFromQueryNode n acc
                            | None => acc
                            end
                            = acc ++ match table_of_cte entry with
                                     | Some n => ExtractTablesFromQueryNode n []
                                     | None => []
                                     end) (cte_map_of node)).
    { eapply Forall_impl; [|exact Hctes]. intros entry He acc. cbn beta in He.
      destruct (table_of_cte entry) as [n|]; [apply He|now rewrite app_nil_r]. }
    rewrite !(fold_left_appends _ _ _ H).
    destruct (from_of node) as [tref|]; cbn [on_some] in Hfrom.
    - rewrite (Hfrom tables), app_assoc. reflexivity.
    - reflexivity. }
  assert (join_step : forall l r c, on_some Q l -> on_some Q r -> Q (JoinRef l r c)).
  { intros l r c Hl Hr tables ctx. cbn [ExtractTablesFromTableRef].
    destruct l as [l|], r as [r|]; cbn [on_some] in *.
    - rewrite Hr, Hl, (Hr (ExtractTablesFromTableRef l [] ctx)), app_assoc.
      reflexivity.
    - apply Hl.
    - apply Hr.
    - now rewrite app_nil_r. }
  assert (subquery_step : forall subquery,
             on_some P (node_of_subquery subquery) -> Q (SubqueryRef subquery)).
  { intros [[[n|]]|] H tables ctx; cbn in *;
      [apply H|now rewrite app_nil_r..]. }
  split.
  - apply (query_node_ind P Q); auto; intros; intros tables ctx; cbn;
      try reflexivity; try (now rewrite app_nil_r).
    destruct f as [[]|]; cbn; try reflexivity; now rewrite app_nil_r.
  - apply (table_ref_ind P Q); auto; intros; intros tables ctx; cbn;
      try reflexivity; try (now rewrite app_nil_r).
    destruct f as [[]|]; cbn; try reflexivity; now rewrite app_nil_r.
Qed.


Lemma extract_tables_statement_appends (stmt : SQLStatement Value) tables :
  ExtractTablesFromStatement stmt tables
  = tables ++ ExtractTablesFromStatement stmt [].
Proof.
  destruct stmt as [[[node|]]|type]; cbn; try (now rewrite app_nil_r).
  apply extract_tables_appends.
Qed.

Lemma extract_tables_frames :
  (forall (node : QueryNode Value) tables,
     ExtractTablesFromQueryNode node tables
     = tables ++ ExtractTablesFromQueryNode node [])
  /\ (forall (tref : TableRef Value) tables ctx,
        ExtractTablesFromTableRef tref tables ctx
        = tables ++ ExtractTablesFromTableRef tref [] ctx)
  /\ (forall node : QueryNode Value,
        ExtractTablesFromQueryNode node []
        = match from_of node with
          | Some tref => ExtractTablesFromTableRef tref [] "FROM"
          | None => []
          end
          ++ flat_map
               (fun entry =>
                  match table_of_cte entry with
                  | Some n => ExtractTablesFromQueryNode n []
                  | None => []
                  end)
               (cte_map_of node)).
Proof.
  destruct extract_tables_appends as [Hnode Href].
  split; [exact Hnode|]. split; [exact Href|].
  intros node. rewrite extract_tables_node_unfold.
  rewrite (fold_left_appends
             (fun entry ts =>
                match table_of_cte entry with
                | Some n => ExtractTablesFromQueryNode n ts
                | None => ts
                end)
             (fun entry =>
                match table_of_cte entry with
                | Some n => ExtractTablesFromQueryNode n []
                | None => []
                end)).
  - reflexivity.
  - apply Forall_forall. intros entry _ acc.
    destruct (table_of_cte entry); [apply Hnode|now rewrite app_nil_r].
Qed.

(** X11: The table extractor only ever appends: what was in the vector stays, in
    order, in front of what a node, a table reference or a statement adds.
    So the tables of a script are those of its statements one after the
    other, and within a query node the tables of the FROM clause come
    before those of the CTE definitions, which follow in map order. *)
Theorem table_extractor_only_appends :
  (forall (node : QueryNode Value) tables,
     ExtractTablesFromQueryNode node tables
     = tables ++ ExtractTablesFromQueryNode node [])
  /\ (forall (tref : TableRef Value) tables ctx,
        ExtractTablesFromTableRef tref tables ctx
        = tables ++ ExtractTablesFromTableRef tref [] ctx)
  /\ (forall (ParseQuery : string -> ParseOutcome Value) query statements,
        ParseQuery query = Parsed statements ->
        ptb_tables (ParseTablesBind ParseQuery query)
        = flat_map (fun stmt => ExtractTablesFromStatement stmt []) statements)
  /\ (forall node : QueryNode Value,
        ExtractTablesFromQueryNode node []
        = match from_of node with
          | Some tref => ExtractTablesFromTableRef tref [] "FROM"
          | None => []
          end
          ++ flat_map
               (fun entry =>
                  match table_of_cte entry with
                  | Some n => ExtractTablesFromQueryNode n []
                  | None => []
                  end)
               (cte_map_of node)).
Proof.
  destruct extract_tables_appends as [Hnode Href].
  split; [exact Hnode|]. split; [exact Href|]. split.
  - intros ParseQuery query statements Hq. unfold ParseTablesBind. rewrite Hq.
    cbn [ptb_tables].
    rewrite (fold_left_appends
               (fun stmt ts => ExtractTablesFromStatement stmt ts)
               (fun stmt => ExtractTablesFromStatement stmt [])).
    + reflexivity.
    + apply Forall_forall. intros stmt _ acc.
      apply extract_tables_statement_appends.
  - intros node. rewrite extract_tables_node_unfold.
    rewrite (fold_left_appends
               (fun entry ts =>
                  match table_of_cte entry with
                  | Some n => ExtractTablesFromQueryNode n ts
                  | None => ts
                  end)
               (fun entry =>
                  match table_of_cte entry with
                  | Some n => ExtractTablesFromQueryNode n []
                  | None => []
                  end)).
    + reflexivity.
    + apply Forall_forall. intros entry _ acc.
      destruct (table_of_cte entry); [apply Hnode|now rewrite app_nil_r].
Qed.

Lemma known_contexts :
  (forall node : QueryNode Value,
     Forall known_context (ExtractTablesFromQueryNode node []))
  /\ (forall (tref : TableRef Value) ctx,
        known_context_label ctx ->
        Forall known_context (ExtractTablesFromTableRef tref [] ctx)).
Proof.
  destruct extract_tables_frames as (Hnode & Href & Hsplit).
  set (P := fun node : QueryNode Value =>
              Forall known_context (ExtractTablesFromQueryNode node [])).
  set (Q := fun tref : TableRef Value => forall ctx,
              known_context_label ctx ->
              Forall known_context (ExtractTablesFromTableRef tref [] ctx)).
  assert (node_step : forall node,
             on_some Q (from_of node) ->
             Forall (fun entry => on_some P (table_of_cte entry)) (cte_map_of node) ->
             P node).
  { intros node Hfrom Hctes. unfold P. rewrite Hsplit. apply Forall_app. split.
    - destruct (from_of node) as [tref|]; [|constructor].
      apply Hfrom. left. reflexivity.
    - apply Forall_flat_map. eapply Forall_impl; [|exact Hctes].
      intros entry He. cbn beta in He.
      destruct (table_of_cte entry); [exact He|constructor]. }
  assert (join_step : forall l r c, on_some Q l -> on_some Q r -> Q (JoinRef l r c)).
  { intros l r c Hl Hr ctx Hctx. cbn [ExtractTablesFromTableRef].
    destruct l as [l|], r as [r|]; cbn [on_some] in *.
    - rewrite Href. apply Forall_app. split; [now apply Hl|].
      apply Hr. right. left. reflexivity.
    - now apply Hl.
    - apply Hr. right. left. reflexivity.
    - constructor. }
  assert (subquery_step : forall subquery,
             on_some P (node_of_subquery subquery) -> Q (SubqueryRef subquery)).
  { intros [[[n|]]|] H ctx Hctx; cbn in *; [exact H|constructor..]. }
  assert (base_step : forall s t, Q (BaseTableRef s t)).
  { intros s t ctx Hctx. cbn. constructor; [exact Hctx|constructor]. }
  assert (function_step : forall f, Q (TableFunctionRef f)).
  { intros f ctx Hctx. cbn [ExtractTablesFromTableRef].
    destruct f as [e|]; [|constructor].
    destruct e; try constructor.
    - right. right. reflexivity.
    - constructor. }
  assert (other_step : forall t, Q (OtherTableRef t)).
  { intros t ctx Hctx. constructor. }
  split; [apply (query_node_ind P Q)|apply (table_ref_ind P Q)]; auto.
Qed.

(** X12: Whatever the parser hands over, every row of parse_tables has one of
    the contexts FROM, JOIN and TABLE_FUNCTION: no other label is ever
    given, for no statement kind. *)
Theorem table_contexts_are_known
    (ParseQuery : string -> ParseOutcome Value) (query : string) :
  Forall known_context (ptb_tables (ParseTablesBind ParseQuery query)).
Proof.
  unfold ParseTablesBind.
  destruct (ParseQuery query) as [statements|what] eqn:Hq; [|constructor].
  cbn [ptb_tables].
  rewrite (fold_left_appends
             (fun stmt ts => ExtractTablesFromStatement stmt ts)
             (fun stmt => ExtractTablesFromStatement stmt []))
    by (apply Forall_forall; intros stmt _ acc;
        apply extract_tables_statement_appends).
  cbn [app]. apply Forall_flat_map, Forall_forall. intros stmt _.
  destruct stmt as [[[node|]]|type]; cbn; try constructor.
  apply known_contexts.
Qed.

End TableMoreFacts.

(** * Properties of the table function loops *)

Section ChunkFacts.
Import Chunk.
Local Open Scope list_scope.

Variables Item Row : Type.
Variable render : nat -> Item -> Row.
Variable max_count : nat.

Local Abbreviation chunk_of := (chunk_rows render).
Local Abbreviation scan_items := (Chunk.scan render max_count).

Lemma chunk_rows_split : forall room pending idx,
  let k := List.length (chunk_of pending idx room) in
  chunk_of pending idx (List.length pending)
  = chunk_of pending idx room
    ++ chunk_of (skipn k pending) (idx + k) (List.length (skipn k pending)).
Proof.
  induction room as [|room IH]; intros pending idx.
  - destruct pending; cbn; rewrite ?Nat.add_0_r; reflexivity.
  - destruct pending as [|item pending]; [reflexivity|].
    cbn [chunk_rows List.length skipn app]. cbv zeta. f_equal.
    rewrite Nat.add_succ_r. apply (IH pending (S idx)).
Qed.

Lemma chunk_rows_length room pending idx :
  List.length (chunk_of pending idx room) <= List.length pending.
Proof.
  revert pending idx. induction room as [|room IH]; intros [|item pending] idx;
    cbn; try lia. specialize (IH pending (S idx)). lia.
Qed.

(** Row [i] of a loop with room for everything is element [i], rendered
    under its own index. *)
Lemma chunk_rows_nth : forall pending idx i,
  nth_error (chunk_of pending idx (List.length pending)) i
  = option_map (render (idx + i)) (nth_error pending i).
Proof.
  induction pending as [|item pending IH]; intros idx i.
  - destruct i; reflexivity.
  - destruct i as [|i]; cbn [List.length chunk_rows nth_error option_map].
    + rewrite Nat.add_0_r. reflexivity.
    + rewrite IH, Nat.add_succ_r. reflexivity.
Qed.

Lemma scan_all_items (items : list Item) :
  0 < max_count ->
  forall fuel current_idx,
    List.length (skipn current_idx items) + 1 < fuel ->
    scan_items fuel items current_idx
    = Some (chunk_of (skipn current_idx items) current_idx
                     (List.length (skipn current_idx items))).
Proof.
  intros Hsize. induction fuel as [|fuel IH]; intros idx Hfuel; [lia|].
  cbn [Chunk.scan]. unfold table_func.
  set (pending := skipn idx items) in *.
  pose proof (chunk_rows_split max_count pending idx) as Hchunk.
  pose proof (chunk_rows_length max_count pending idx) as Hlen.
  cbv zeta in Hchunk.
  destruct (chunk_of pending idx max_count) as [|row chunk] eqn:Hrows.
  - destruct pending as [|item pending']; [reflexivity|].
    destruct max_count; [lia|discriminate].
  - rewrite IH.
    + cbn [option_map]. rewrite Hchunk. unfold pending.
      rewrite skipn_skipn, (Nat.add_comm _ idx). reflexivity.
    + rewrite <- (Nat.add_comm (List.length (row :: chunk))), <- skipn_skipn.
      fold pending. rewrite length_skipn. cbn [List.length] in *. lia.
Qed.

Lemma scan_rows (items : list Item) fuel :
  0 < max_count -> List.length items + 1 < fuel ->
  exists rows,
    scan_items fuel items 0 = Some rows
    /\ List.length rows = List.length items
    /\ forall i, nth_error rows i = option_map (render i) (nth_error items i).
Proof.
  intros Hsize Hfuel. eexists. split; [|split].
  - apply (scan_all_items items Hsize fuel 0). cbn [skipn]. exact Hfuel.
  - cbn [skipn]. clear Hfuel. generalize 0 as idx.
    induction items as [|item rest IH]; intros idx; [reflexivity|].
    cbn [chunk_rows List.length]. f_equal. apply IH.
  - intros i. cbn [skipn]. apply (chunk_rows_nth items 0 i).
Qed.

(** X13: Called until a chunk comes back empty, the loop shared by the table
    functions hands out every element of the bind data exactly once and in
    order, row [i] being element [i], however the rows fall into chunks:
    this needs only a vector with room for one row. *)
Theorem table_scan_returns_every_row (items : list Item) (fuel : nat) :
  0 < max_count -> List.length items + 1 < fuel ->
  exists rows,
    Chunk.scan render max_count fuel items 0 = Some rows
    /\ List.length rows = List.length items
    /\ forall i, nth_error rows i = option_map (render i) (nth_error items i).
Proof. apply scan_rows. Qed.

End ChunkFacts.

Lemma table_scan_returns_every_row_witness :
  exists rows,
    Chunk.scan Api.column_row 2 5 ["a"; "c"; "count(x)"] 0 = Some rows
    /\ List.length rows = 3
    /\ forall i, nth_error rows i
                 = option_map (Api.column_row i) (nth_error ["a"; "c"; "count(x)"] i).
Proof.
  apply (table_scan_returns_every_row _ _ Api.column_row 2 ["a"; "c"; "count(x)"] 5);
    cbn; lia.
Defined.

(** * More on the function extractor *)

Section FunctionMoreFacts.
Import Ast Extract Api.
Local Open Scope list_scope.

Context {Value : Type}.

Lemma extract_functions_node_appends (node : QueryNode Value) fs :
  ExtractFunctionsFromQueryNode node fs
  = fs ++ ExtractFunctionsFromQueryNode node [].
Proof.
  destruct node as [ctes sel from_table wh grp hav|ctes l r];
    cbn [ExtractFunctionsFromQueryNode]; [|now rewrite app_nil_r].
  rewrite !extract_functions_loop.
  rewrite (extract_functions_ptr_appends wh (fs ++ _)).
  rewrite (extract_functions_ptr_appends wh ([] ++ _)).
  cbn [app]. rewrite !app_assoc. reflexivity.
Qed.

Lemma extract_functions_statement_appends (stmt : SQLStatement Value) fs :
  ExtractFunctionsFromStatement stmt fs
  = fs ++ ExtractFunctionsFromStatement stmt [].
Proof.
  destruct stmt as [[[node|]]|type]; cbn; try (now rewrite app_nil_r).
  apply extract_functions_node_appends.
Qed.

Lemma function_ref_kind name is_operator distinct :
  known_kind (function_ref name is_operator distinct).
Proof.
  unfold known_kind, function_ref. cbn [fr_type].
  destruct is_operator; [now left|]. destruct distinct; [right; now left|].
  right. now right.
Qed.

Lemma known_kinds_expression : forall e : ParsedExpression Value,
  Forall known_kind (ExtractFunctionsFromExpression e []).
Proof.
  apply expr_nested_ind. intros e Hchildren.
  destruct e as [a s f o d cs| | | | |]; try (cbn; constructor).
  rewrite extract_functions_call. cbn [app expr_children] in *.
  constructor; [apply function_ref_kind|].
  apply Forall_flat_map. eapply Forall_impl; [|exact Hchildren].
  intros [child|] Hchild; cbn in *; [exact Hchild|constructor].
Qed.

Lemma known_kinds_statement (stmt : SQLStatement Value) :
  Forall known_kind (ExtractFunctionsFromStatement stmt []).
Proof.
  destruct stmt as [[[[ctes sl from_table w groups having|ctes l r]|]]|type];
    cbn [ExtractFunctionsFromStatement]; try constructor.
  rewrite extract_functions_node. cbn [app].
  apply Forall_flat_map, Forall_forall.
  intros [e|] _; cbn; [apply known_kinds_expression|constructor].
Qed.

Lemma functions_of_script (statements : list (SQLStatement Value)) :
  fold_left (fun fs stmt => ExtractFunctionsFromStatement stmt fs) statements []
  = flat_map (fun stmt => ExtractFunctionsFromStatement stmt []) statements.
Proof.
  rewrite (fold_left_appends
             (fun stmt fs => ExtractFunctionsFromStatement stmt fs)
             (fun stmt => ExtractFunctionsFromStatement stmt [])).
  - reflexivity.
  - apply Forall_forall. intros stmt _ acc.
    apply extract_functions_statement_appends.
Qed.

(** X14: Whatever the parser hands over, every row of parse_functions has one
    of the kinds operator, aggregate and scalar, and the functions of a
    script are those of its statements one after the other. *)
Theorem function_kinds_are_known
    (ParseQuery : string -> ParseOutcome Value) (query : string) :
  Forall known_kind (pfb_functions (ParseFunctionsBind ParseQuery query))
  /\ forall statements,
       ParseQuery query = Parsed statements ->
       pfb_functions (ParseFunctionsBind ParseQuery query)
       = flat_map (fun stmt => ExtractFunctionsFromStatement stmt []) statements.
Proof.
  unfold ParseFunctionsBind.
  destruct (ParseQuery query) as [statements|what] eqn:Hq; cbn [pfb_functions].
  - rewrite functions_of_script. split.
    + apply Forall_flat_map, Forall_forall. intros stmt _.
      apply known_kinds_statement.
    + intros other Hother. injection Hother as <-. reflexivity.
  - split; [constructor|discriminate].
Qed.

End FunctionMoreFacts.

(** * The entry points side by side *)

Section ApiFacts.
Import Ast Extract Api.
Local Open Scope list_scope.

Context {Value : Type}.
Variable ParseQuery : string -> ParseOutcome Value.
Variable StatementTypeToString : SQLStatement Value -> string.
Variable STANDARD_VECTOR_SIZE : nat.

Lemma statement_rows_nth : forall (pending : list (SQLStatement Value)) idx i,
  nth_error (Split.statement_rows StatementTypeToString pending idx
               (List.length pending)) i
  = option_map
      (fun stmt => Split.mkRow (Z.of_nat (idx + i))
                     (Some (StatementTypeToString stmt)) None 0)
      (nth_error pending i).
Proof.
  induction pending as [|stmt pending IH]; intros idx i.
  - destruct i; reflexivity.
  - destruct i as [|i]; cbn [List.length Split.statement_rows nth_error option_map].
    + rewrite Nat.add_0_r. reflexivity.
    + rewrite IH, Nat.add_succ_r. reflexivity.
Qed.

Lemma statement_rows_count : forall (pending : list (SQLStatement Value)) idx,
  List.length (Split.statement_rows StatementTypeToString pending idx
                 (List.length pending))
  = List.length pending.
Proof.
  induction pending as [|stmt pending IH]; intros idx; [reflexivity|].
  cbn [List.length Split.statement_rows]. f_equal. apply IH.
Qed.

(** X16: A text the parser accepts: is_valid_sql is true, sql_error_message is
    NULL, and parse_statements hands out as many rows as num_statements
    counts; row [i] carries the index [i], the type of statement [i], a
    NULL error and a parameter count of 0. *)
Theorem accepted_text_rows_are_numbered (query : string)
    (stmts : list (SQLStatement Value)) (fuel : nat) :
  0 < STANDARD_VECTOR_SIZE ->
  ParseQuery query = Parsed stmts ->
  List.length stmts + 1 < fuel ->
  IsValidSqlFunc ParseQuery query = true
  /\ SqlErrorMessageFunc ParseQuery query = None
  /\ exists rows,
       Split.scan StatementTypeToString STANDARD_VECTOR_SIZE fuel
         (Split.ParseStatementsBind ParseQuery query) 0 = Some rows
       /\ Z.of_nat (List.length rows) = NumStatementsFunc ParseQuery query
       /\ forall i,
            nth_error rows i
            = option_map
                (fun stmt => Split.mkRow (Z.of_nat i)
                               (Some (StatementTypeToString stmt)) None 0)
                (nth_error stmts i).
Proof.
  intros Hsize Hq Hfuel.
  unfold IsValidSqlFunc, SqlErrorMessageFunc, NumStatementsFunc,
    Split.ParseStatementsBind.
  rewrite Hq. split; [reflexivity|]. split; [reflexivity|].
  eexists. split; [|split].
  - apply (scan_successful_split StatementTypeToString STANDARD_VECTOR_SIZE
             {| Split.query := query; Split.statements := stmts;
                Split.error := "" |});
      [reflexivity|exact Hsize|exact Hfuel].
  - cbn [Split.statements skipn]. now rewrite statement_rows_count.
  - intros i. cbn [Split.statements skipn]. apply (statement_rows_nth stmts 0 i).
Qed.

Lemma rows_by_position {A B : Type} (f : A -> B) (render : nat -> A -> B)
    (items : list A) (rows : list B) :
  (forall i item, render i item = f item) ->
  (forall i, nth_error rows i = option_map (render i) (nth_error items i)) ->
  rows = map f items.
Proof.
  intros Hrender Hrows. apply nth_error_ext. intros i.
  rewrite Hrows, nth_error_map. destruct (nth_error items i); cbn; [|reflexivity].
  now rewrite Hrender.
Qed.

(** X17: parse_table_names and parse_function_names give the name column of
    the rows parse_tables and parse_functions hand out for the same text,
    in the same order and with the same repetitions. *)
Theorem name_lists_are_name_columns (query : string) (fuel : nat) :
  0 < STANDARD_VECTOR_SIZE ->
  List.length (ptb_tables (ParseTablesBind ParseQuery query)) + 1 < fuel ->
  List.length (pfb_functions (ParseFunctionsBind ParseQuery query)) + 1 < fuel ->
  (exists rows,
     Chunk.scan table_row STANDARD_VECTOR_SIZE fuel
       (ptb_tables (ParseTablesBind ParseQuery query)) 0 = Some rows
     /\ map (fun row => snd (fst row)) rows = ParseTableNamesFunc ParseQuery query)
  /\ (exists rows,
        Chunk.scan function_row STANDARD_VECTOR_SIZE fuel
          (pfb_functions (ParseFunctionsBind ParseQuery query)) 0 = Some rows
        /\ map fst rows = ParseFunctionNamesFunc ParseQuery query).
Proof.
  intros Hsize Htables Hfunctions. split.
  - destruct (scan_rows _ _ table_row STANDARD_VECTOR_SIZE _ fuel Hsize Htables)
      as (rows & Hscan & _ & Hnth).
    exists rows. split; [exact Hscan|].
    rewrite (rows_by_position (table_row 0) table_row _ rows
               (fun _ _ => eq_refl) Hnth).
    rewrite map_map. unfold ParseTableNamesFunc, ParseTablesBind.
    destruct (ParseQuery query); reflexivity.
  - destruct (scan_rows _ _ function_row STANDARD_VECTOR_SIZE _ fuel Hsize Hfunctions)
      as (rows & Hscan & _ & Hnth).
    exists rows. split; [exact Hscan|].
    rewrite (rows_by_position (function_row 0) function_row _ rows
               (fun _ _ => eq_refl) Hnth).
    rewrite map_map. unfold ParseFunctionNamesFunc, ParseFunctionsBind.
    destruct (ParseQuery query); reflexivity.
Qed.

(** X18: parse_columns asked for a statement that is not there, be the index
    negative or past the last statement, finds no column and reports no
    error: the negative index wraps to an unsigned one far past the end. *)
Theorem columns_of_missing_statement (query : string)
    (stmts : list (SQLStatement Value)) (stmt_index : Z) :
  ParseQuery query = Parsed stmts ->
  (Z.of_nat (List.length stmts) < 2 ^ 63)%Z ->
  (- 2 ^ 63 <= stmt_index < 2 ^ 63)%Z ->
  (stmt_index < 0 \/ Z.of_nat (List.length stmts) <= stmt_index)%Z ->
  col_names (ParseColumnsBind ParseQuery query stmt_index) = []
  /\ pcb_error (ParseColumnsBind ParseQuery query stmt_index) = "".
Proof.
  intros Hq Hlen Hrange Hout. unfold ParseColumnsBind. rewrite Hq.
  cbn [col_names pcb_error]. split; [|reflexivity].
  assert (Hidx : (to_idx_t stmt_index <? Z.of_nat (List.length stmts))%Z = false).
  { apply Z.ltb_ge. unfold to_idx_t. destruct Hout as [Hneg|Hpast].
    - replace stmt_index with (stmt_index + 2 ^ 64 + (- 1) * 2 ^ 64)%Z by lia.
      rewrite Z.mod_add by lia. rewrite Z.mod_small by lia. lia.
    - rewrite Z.mod_small by lia. lia. }
  now rewrite Hidx.
Qed.

End ApiFacts.

Lemma accepted_text_rows_are_numbered_witness :
  Api.IsValidSqlFunc Extract.sample_parse Extract.join_query = true
  /\ Api.NumStatementsFunc Extract.sample_parse Extract.join_query = 1%Z.
Proof.
  destruct (accepted_text_rows_are_numbered Extract.sample_parse
              (fun _ => "SELECT") 2048 Extract.join_query [Extract.join_tree] 3
              ltac:(lia) eq_refl ltac:(cbn; lia))
    as (Hvalid & _ & rows & _ & _ & _).
  split; [exact Hvalid|reflexivity].
Defined.

Lemma name_lists_are_name_columns_witness :
  exists rows,
    Chunk.scan Api.table_row 2048 4
      (Extract.ptb_tables (Extract.ParseTablesBind Extract.sample_parse
                             Extract.join_query)) 0 = Some rows
    /\ map (fun row => snd (fst row)) rows
       = Api.ParseTableNamesFunc Extract.sample_parse Extract.join_query.
Proof.
  apply (name_lists_are_name_columns Extract.sample_parse 2048
           Extract.join_query 4); cbn; lia.
Defined.

Lemma columns_of_missing_statement_witness :
  Extract.col_names
    (Extract.ParseColumnsBind Extract.sample_parse Extract.columns_query (-1)) = []
  /\ Extract.pcb_error
       (Extract.ParseColumnsBind Extract.sample_parse Extract.columns_query (-1)) = "".
Proof.
  apply (columns_of_missing_statement Extract.sample_parse Extract.columns_query
           [Extract.columns_tree] (-1)); [reflexivity|cbn; lia|lia|lia].
Defined.

(** * More on the type serializer *)

Section TypeSigMoreFacts.
Import TypeSig.
Local Open Scope list_scope.
Local Open Scope Z_scope.

Lemma len_take (n : Z) (s : string) : 0 <= n -> len (take n s) <= n.
Proof.
  unfold take, len. intros Hn.
  assert (H : (String.length (substring 0 (Z.to_nat n) s) <= Z.to_nat n)%nat).
  { generalize (Z.to_nat n) as m. clear Hn. revert s.
    induction s as [|c s IH]; intros [|m]; cbn; try lia.
    specialize (IH m). lia. }
  lia.
Qed.

(** A write that stays inside the buffer leaves a C string that fits it,
    its terminator included. *)
Lemma snprintf_at_within (buf_size : Z) (b b' : Buf) (text : string) :
  0 < buf_size < 2 ^ 64 ->
  0 <= offset b -> len (content b) < buf_size ->
  snprintf_at buf_size b text = Some b' ->
  0 <= offset b' /\ len (content b') < buf_size.
Proof.
  intros Hsize Hoff Hlen. unfold snprintf_at, size_sub.
  destruct (buf_size <? offset b) eqn:Hout; [discriminate|].
  apply Z.ltb_ge in Hout. rewrite Z.mod_small by lia.
  intros Hb. injection Hb as <-. cbn [offset content].
  pose proof (len_nonneg text) as Htext. split; [lia|].
  destruct (buf_size - offset b =? 0) eqn:Hfull; [exact Hlen|].
  apply Z.eqb_neq in Hfull. rewrite len_append.
  pose proof (len_take (offset b) (content b) Hoff).
  pose proof (len_take (buf_size - offset b - 1) text ltac:(lia)). lia.
Qed.

Lemma snprintf_within (buf_size : Z) (text s : string) :
  0 < buf_size < 2 ^ 64 -> snprintf buf_size text = Some s -> len s < buf_size.
Proof.
  intros Hsize. unfold snprintf.
  destruct (snprintf_at buf_size empty_buf text) as [b|] eqn:Hb; [|discriminate].
  intros H. injection H as <-.
  apply (snprintf_at_within buf_size empty_buf b text); auto; cbn; lia.
Qed.

Lemma members_loop_within (serialize : LogicalType -> Z -> option string)
    (buf_size : Z) :
  0 < buf_size < 2 ^ 64 ->
  forall members i b b',
    0 <= offset b -> len (content b) < buf_size ->
    members_loop serialize buf_size members i b = Some b' ->
    0 <= offset b' /\ len (content b') < buf_size.
Proof.
  intros Hsize. induction members as [|[name child] members IH];
    intros i b b' Hoff Hlen; cbn [members_loop].
  - intros H. injection H as <-. auto.
  - destruct (offset b <? size_sub buf_size 10);
      [|intros H; injection H as <-; auto].
    unfold bind.
    destruct (if 0 <? i then snprintf_at buf_size b ", " else Some b)
      as [b1|] eqn:Hb1; [|discriminate].
    assert (H1 : 0 <= offset b1 /\ len (content b1) < buf_size).
    { destruct (0 <? i).
      - apply (snprintf_at_within buf_size b b1 ", "); auto.
      - injection Hb1 as <-. auto. }
    destruct (serialize child 256) as [child_buf|]; [|discriminate].
    destruct (snprintf_at buf_size b1 (name ++ " " ++ child_buf)%string)
      as [b2|] eqn:Hb2; [|discriminate].
    destruct H1 as [Hoff1 Hlen1].
    destruct (snprintf_at_within buf_size b1 b2 _ Hsize Hoff1 Hlen1 Hb2).
    apply IH; auto.
Qed.

Lemma enum_loop_within (buf_size : Z) :
  0 < buf_size < 2 ^ 64 ->
  forall values i b b',
    0 <= offset b -> len (content b) < buf_size ->
    enum_loop buf_size values i b = Some b' ->
    0 <= offset b' /\ len (content b') < buf_size.
Proof.
  intros Hsize. induction values as [|val values IH];
    intros i b b' Hoff Hlen; cbn [enum_loop].
  - intros H. injection H as <-. auto.
  - destruct ((i <? 10) && (offset b <? size_sub buf_size 20))%bool;
      [|intros H; injection H as <-; auto].
    unfold bind.
    destruct (if 0 <? i then snprintf_at buf_size b ", " else Some b)
      as [b1|] eqn:Hb1; [|discriminate].
    assert (H1 : 0 <= offset b1 /\ len (content b1) < buf_size).
    { destruct (0 <? i).
      - apply (snprintf_at_within buf_size b b1 ", "); auto.
      - injection Hb1 as <-. auto. }
    destruct (snprintf_at buf_size b1 ("'" ++ val ++ "'")%string)
      as [b2|] eqn:Hb2; [|discriminate].
    destruct H1 as [Hoff1 Hlen1].
    destruct (snprintf_at_within buf_size b1 b2 _ Hsize Hoff1 Hlen1 Hb2).
    apply IH; auto.
Qed.

Lemma bracketed_within (buf_size : Z) (opening : string)
    (loop : Buf -> option Buf) (s : string) :
  0 < buf_size < 2 ^ 64 ->
  (forall b b', 0 <= offset b -> len (content b) < buf_size ->
                loop b = Some b' ->
                0 <= offset b' /\ len (content b') < buf_size) ->
  (b0 <- snprintf_at buf_size empty_buf opening ;;
   b1 <- loop b0 ;;
   b2 <- snprintf_at buf_size b1 ")" ;;
   Some (content b2)) = Some s ->
  len s < buf_size.
Proof.
  intros Hsize Hloop. unfold bind.
  destruct (snprintf_at buf_size empty_buf opening) as [b0|] eqn:Hb0; [|discriminate].
  destruct (snprintf_at_within buf_size empty_buf b0 opening Hsize)
    as [Hoff0 Hlen0]; [cbn; lia|cbn; lia|exact Hb0|].
  destruct (loop b0) as [b1|] eqn:Hb1; [|discriminate].
  destruct (Hloop b0 b1 Hoff0 Hlen0 Hb1) as [Hoff1 Hlen1].
  destruct (snprintf_at buf_size b1 ")") as [b2|] eqn:Hb2; [|discriminate].
  destruct (snprintf_at_within buf_size b1 b2 ")" Hsize Hoff1 Hlen1 Hb2)
    as [Hoff2 Hlen2].
  intros Hs. injection Hs as <-. exact Hlen2.
Qed.

(** X19: Whenever the serializer comes back without having written outside a
    buffer, what it leaves in the caller's buffer fits it: the text is
    shorter than the buffer, so that its terminator is inside as well. *)
Theorem serialize_type_output_fits_buffer (type : LogicalType)
    (buf_size : Z) (s : string) :
  0 < buf_size < 2 ^ 64 ->
  SerializeLogicalType type buf_size = Some s ->
  len s < buf_size.
Proof.
  intros Hsize.
  destruct type as [width scale|child|child size|key val|children|members
                   |dictionary|id]; cbn [SerializeLogicalType].
  - apply snprintf_within; exact Hsize.
  - unfold bind. destruct (SerializeLogicalType child 512); [|discriminate].
    apply snprintf_within; exact Hsize.
  - unfold bind. destruct (SerializeLogicalType child 512); [|discriminate].
    apply snprintf_within; exact Hsize.
  - unfold bind. destruct (SerializeLogicalType key 256); [|discriminate].
    destruct (SerializeLogicalType val 256); [|discriminate].
    apply snprintf_within; exact Hsize.
  - apply (bracketed_within buf_size "STRUCT("
             (members_loop SerializeLogicalType buf_size children 0)); auto.
    apply members_loop_within; exact Hsize.
  - apply (bracketed_within buf_size "UNION("
             (members_loop SerializeLogicalType buf_size members 0)); auto.
    apply members_loop_within; exact Hsize.
  - cbv zeta.
    intros H.
    apply (bracketed_within buf_size "ENUM("
             (fun b0 =>
                b1 <- enum_loop buf_size dictionary 0 b0 ;;
                (if 10 <? Z.of_nat (List.length dictionary)
                 then snprintf_at buf_size b1
                        (", ... +" ++ dec (Z.of_nat (List.length dictionary) - 10)
                                   ++ " more")%string
                 else Some b1))); auto.
    + intros b b' Hoff Hlen. unfold bind.
      destruct (enum_loop buf_size dictionary 0 b) as [b1|] eqn:Hb1; [|discriminate].
      destruct (enum_loop_within buf_size Hsize dictionary 0 b b1 Hoff Hlen Hb1)
        as [Hoff1 Hlen1].
      destruct (10 <? Z.of_nat (List.length dictionary)).
      * apply snprintf_at_within; auto.
      * intros E. injection E as <-. auto.
    + revert H. unfold bind.
      destruct (snprintf_at buf_size empty_buf "ENUM(") as [b0|]; [|discriminate].
      destruct (enum_loop buf_size dictionary 0 b0) as [b1|]; [|discriminate].
      auto.
  - apply snprintf_within; exact Hsize.
Qed.

Lemma snprintf_at_inside (buf_size : Z) (b : Buf) (text : string) :
  offset b <= buf_size ->
  exists b', snprintf_at buf_size b text = Some b'
             /\ offset b' = offset b + len text.
Proof.
  intros Hin. unfold snprintf_at.
  replace (buf_size <? offset b) with false by (symmetry; apply Z.ltb_ge; lia).
  eexists. split; reflexivity.
Qed.

Lemma snprintf_at_outside (buf_size : Z) (b : Buf) (text : string) :
  buf_size < offset b -> snprintf_at buf_size b text = None.
Proof.
  intros Hout. unfold snprintf_at.
  replace (buf_size <? offset b) with true by (symmetry; apply Z.ltb_lt; lia).
  reflexivity.
Qed.

(** X20: A STRUCT whose first member, name and type together, is longer than
    what the buffer has left after the opening: the member is written
    cut, the offset moves past the end of the buffer, the loop stops, and
    the closing parenthesis is then written at that offset, outside the
    buffer.  No later member changes this. *)
Theorem serialize_struct_writes_past_buffer (name : string) (child : LogicalType)
    (rest : list (string * LogicalType)) (buf_size : Z) (child_buf : string) :
  17 < buf_size < 2 ^ 64 ->
  SerializeLogicalType child 256 = Some child_buf ->
  buf_size < 8 + len name + len child_buf ->
  SerializeLogicalType (StructType ((name, child) :: rest)) buf_size = None.
Proof.
  intros Hsize Hchild Hlong.
  pose proof (len_nonneg name). pose proof (len_nonneg child_buf).
  cbn [SerializeLogicalType members_loop]. rewrite Hchild.
  destruct (snprintf_at_inside buf_size empty_buf "STRUCT(") as (b0 & Hb0 & Hoff0);
    [cbn; lia|].
  rewrite Hb0. cbn [bind]. change (offset empty_buf + len "STRUCT(") with 7 in Hoff0.
  unfold size_sub. rewrite (Z.mod_small (buf_size - 10)) by lia.
  replace (offset b0 <? buf_size - 10) with true by (symmetry; apply Z.ltb_lt; lia).
  change (0 <? 0) with false. cbn [bind].
  destruct (snprintf_at_inside buf_size b0 (name ++ " " ++ child_buf)%string)
    as (b2 & Hb2 & Hoff2); [lia|].
  rewrite Hb2. cbn [bind].
  rewrite !len_append in Hoff2. change (len " ") with 1 in Hoff2.
  assert (Hloop : members_loop SerializeLogicalType buf_size rest (0 + 1) b2
                  = Some b2).
  { destruct rest as [|[n c] rest]; [reflexivity|]. cbn [members_loop].
    unfold size_sub. rewrite (Z.mod_small (buf_size - 10)) by lia.
    replace (offset b2 <? buf_size - 10) with false
      by (symmetry; apply Z.ltb_ge; lia).
    reflexivity. }
  rewrite Hloop. cbn [bind].
  rewrite snprintf_at_outside by lia. reflexivity.
Qed.

End TypeSigMoreFacts.

Lemma serialize_type_output_fits_buffer_witness :
  (TypeSig.len "STRUCT(a INTEGER, a INTEGER)" < 32)%Z.
Proof.
  apply (serialize_type_output_fits_buffer
           (TypeSig.StructType (repeat ("a", TypeSig.integer) 3)) 32);
    [lia|reflexivity].
Defined.

Lemma serialize_struct_writes_past_buffer_witness :
  TypeSig.SerializeLogicalType
    (TypeSig.StructType [("order_total", TypeSig.integer); ("id", TypeSig.integer)])
    18 = None.
Proof.
  apply (serialize_struct_writes_past_buffer "order_total" TypeSig.integer
           [("id", TypeSig.integer)] 18 "INTEGER");
    [lia|reflexivity|cbn; lia].
Defined.

(** * The WHERE extractor over whole scripts *)

Section WhereMoreFacts.
Import Ast Extract.
Local Open Scope list_scope.

Context {Value : Type}.
Variable Value_ToString : Value -> string.
Variable ToString : ParsedExpression Value -> string.

Local Abbreviation reported := ["="; "!="; "<"; ">"; "<="; ">="; "?"].

Lemma where_operators_expression : forall e : ParsedExpression Value,
  Forall (fun c => In (op c) reported)
         (ExtractWhereConditions Value_ToString ToString e []).
Proof.
  apply expr_nested_ind. intros e Hchildren.
  destruct e as [a s f o d cs|t a l r|t a cs| | |]; try (cbn; constructor).
  - destruct t; cbn; tauto.
  - constructor.
  - rewrite extract_where_conjunction. cbn [app expr_children] in *.
    apply Forall_flat_map. eapply Forall_impl; [|exact Hchildren].
    intros [child|] Hchild; cbn in *; [exact Hchild|constructor].
Qed.

Lemma where_of_statement_appends (stmt : SQLStatement Value) conds :
  where_of_statement Value_ToString ToString stmt conds
  = conds ++ where_of_statement Value_ToString ToString stmt [].
Proof.
  destruct stmt as [[[[ctes sel from_table [w|] grp hav|ctes l r]|]]|type]; cbn;
    try (now rewrite app_nil_r).
  apply extract_where_appends.
Qed.

(** X21: Whatever the parser hands over, the operator of every row of
    parse_where is one of [=], [!=], [<], [>], [<=], [>=] and [?]: the
    entries IN and NOT IN of the operator table are never given, as the
    nodes of these two kinds are operator nodes, not comparison nodes.
    The conditions of a script are those of its statements one after the
    other. *)
Theorem where_operators_are_comparisons
    (ParseQuery : string -> ParseOutcome Value) (query : string) :
  Forall (fun c => In (op c) ["="; "!="; "<"; ">"; "<="; ">="; "?"])
         (pwb_conditions (ParseWhereBind Value_ToString ToString ParseQuery query))
  /\ forall statements,
       ParseQuery query = Parsed statements ->
       pwb_conditions (ParseWhereBind Value_ToString ToString ParseQuery query)
       = flat_map (fun stmt => where_of_statement Value_ToString ToString stmt [])
                  statements.
Proof.
  unfold ParseWhereBind.
  destruct (ParseQuery query) as [statements|what] eqn:Hq; cbn [pwb_conditions].
  - rewrite (fold_left_appends
               (fun stmt cs => where_of_statement Value_ToString ToString stmt cs)
               (fun stmt => where_of_statement Value_ToString ToString stmt []))
      by (apply Forall_forall; intros stmt _ acc; apply where_of_statement_appends).
    cbn [app]. split.
    + apply Forall_flat_map, Forall_forall. intros stmt _.
      destruct stmt as [[[[ctes sel from_table [w|] grp hav|ctes l r]|]]|type];
        cbn [where_of_statement]; try constructor.
      apply where_operators_expression.
    + intros other Hother. injection Hother as <-. reflexivity.
  - split; [constructor|discriminate].
Qed.

End WhereMoreFacts.

(** * The two tokenizer table functions *)

Section CTokensFacts.
Import Tokenizer.
Local Open Scope list_scope.

Variable Tokenize : string -> Outcome (list SimplifiedToken).
Variable max_count : nat.

Lemma chunk_rows_map {A B R : Type} (f : A -> B) (r1 : nat -> B -> R)
    (r2 : nat -> A -> R) :
  forall room l idx,
    Forall (fun a => forall i, r1 i (f a) = r2 i a) l ->
    Chunk.chunk_rows r1 (map f l) idx room = Chunk.chunk_rows r2 l idx room.
Proof.
  induction room as [|room IH]; intros [|a l] idx Hl; try reflexivity.
  cbn [map Chunk.chunk_rows]. inversion Hl as [|? ? Ha Hrest]; subst.
  rewrite Ha, IH by exact Hrest. reflexivity.
Qed.

Lemma forall_skipn {A : Type} (P : A -> Prop) : forall n l,
  Forall P l -> Forall P (skipn n l).
Proof.
  induction n as [|n IH]; intros [|a l] Hl; cbn [skipn]; auto.
  inversion Hl; subst. apply IH. assumption.
Qed.

Lemma to_int32_small (v : Z) : (0 <= v < 2 ^ 31)%Z -> CTokens.to_int32 v = v.
Proof.
  intros Hv. unfold CTokens.to_int32. rewrite Z.mod_small by lia. lia.
Qed.

(** X22: On a text without NUL byte that the lexer takes, whose tokens all
    start below 2^31, the tokenizer table function of the C layer hands
    out, call by call, the very rows of the one of the C++ layer: the
    detour over [tokenize_sql_impl] and [token_type_name] and the narrowing
    of the offset to 32 bits change nothing. *)
Theorem c_tokenizer_rows_match (sql : string) (toks : list SimplifiedToken)
    (current_idx : nat) :
  Strip.nul_free sql = true ->
  Tokenize sql = Returns toks ->
  Forall (fun t => (0 <= st_start t < 2 ^ 31)%Z) toks ->
  exists r,
    CTokens.TokenizeSqlBind Tokenize (Some sql) = Returns r
    /\ CTokens.TokenizeSqlFunc max_count r current_idx
       = Api.TokenizeSqlFunc max_count toks current_idx.
Proof.
  intros Hnul Htoks Hstarts. unfold CTokens.TokenizeSqlBind.
  rewrite (c_str_id sql Hnul). unfold tokenize_sql_impl. rewrite Htoks.
  assert (Hrows : forall items : list SimplifiedToken,
             Forall (fun t => (0 <= st_start t < 2 ^ 31)%Z) items ->
             Chunk.table_func CTokens.token_row max_count (map convert items)
               current_idx
             = Chunk.table_func Api.token_row max_count items current_idx).
  { intros items Hitems. unfold Chunk.table_func. rewrite skipn_map.
    rewrite (chunk_rows_map convert CTokens.token_row Api.token_row);
      [reflexivity|].
    apply forall_skipn. eapply Forall_impl; [|exact Hitems].
    intros t Ht i. unfold CTokens.token_row, Api.token_row.
    destruct (convert_keeps_category t) as [Hname Hstart].
    rewrite Hname, Hstart, to_int32_small by exact Ht. reflexivity. }
  destruct toks as [|t toks].
  - eexists. split; [reflexivity|].
    unfold CTokens.TokenizeSqlFunc, Api.TokenizeSqlFunc.
    apply (Hrows [] Hstarts).
  - replace (Z.of_nat (List.length (t :: toks)) >? 0)%Z with true
      by (symmetry; apply Z.gtb_lt; cbn [List.length]; lia).
    eexists. split; [reflexivity|].
    unfold CTokens.TokenizeSqlFunc, Api.TokenizeSqlFunc.
    cbn [count token_list tokens]. rewrite Nat2Z.id.
    rewrite <- (length_map convert (t :: toks)), firstn_all.
    apply (Hrows (t :: toks) Hstarts).
Qed.

End CTokensFacts.

Lemma c_tokenizer_rows_match_witness :
  exists r,
    CTokens.TokenizeSqlBind (Tokenizer.toy_tokenize_from 0) (Some "a;b?")
    = Tokenizer.Returns r
    /\ CTokens.TokenizeSqlFunc 1 r 1
       = Api.TokenizeSqlFunc 1
           [Tokenizer.mkSimplifiedToken Tokenizer.SIMPLIFIED_TOKEN_OPERATOR 1;
            Tokenizer.mkSimplifiedToken Tokenizer.SIMPLIFIED_TOKEN_ERROR 3] 1.
Proof.
  apply (c_tokenizer_rows_match (Tokenizer.toy_tokenize_from 0) 1 "a;b?");
    [reflexivity|reflexivity|].
  repeat constructor; cbn; lia.
Defined.

(** * The keyword table and the keyword test *)

Section KeywordTableFacts.
Import Keywords KeywordTable.
Local Open Scope list_scope.

Lemma distinct_NoDup : forall l, distinct l = true -> NoDup l.
Proof.
  induction l as [|s rest IH]; cbn [distinct]; intros H; constructor.
  - apply andb_true_iff in H as [H _]. apply negb_true_iff in H.
    intros Hin. assert (Hex : existsb (String.eqb s) rest = true).
    { apply existsb_exists. exists s. split; [exact Hin|apply String.eqb_refl]. }
    congruence.
  - apply IH. apply andb_true_iff in H as [_ H]. exact H.
Qed.

(** X23: Called until a chunk comes back empty, sql_keywords hands out the
    keyword table as it stands, no keyword twice, and is_keyword says yes
    to each of its rows; is_keyword says yes to a text exactly when its
    upper-case form, read up to the first NUL byte, is in that table. *)
Theorem sql_keywords_are_keywords (max_count fuel : nat) :
  0 < max_count -> List.length SQL_KEYWORDS + 1 < fuel ->
  Chunk.scan keyword_row max_count fuel SQL_KEYWORDS 0 = Some SQL_KEYWORDS
  /\ NoDup SQL_KEYWORDS
  /\ Forall (fun keyword => IsKeywordFunction keyword = true) SQL_KEYWORDS
  /\ forall s, IsKeywordFunction s = true
               <-> In (uppercase (GetString s)) SQL_KEYWORDS.
Proof.
  intros Hsize Hfuel. split; [|split; [|split]].
  - destruct (scan_rows _ _ keyword_row max_count SQL_KEYWORDS fuel Hsize Hfuel)
      as (rows & Hscan & _ & Hnth).
    rewrite Hscan. f_equal.
    rewrite (rows_by_position (fun keyword => keyword) keyword_row
               SQL_KEYWORDS rows (fun _ _ => eq_refl) Hnth).
    apply map_id.
  - apply distinct_NoDup. vm_compute. reflexivity.
  - apply Forall_forall. apply forallb_forall. vm_compute. reflexivity.
  - intros s. unfold IsKeywordFunction. rewrite existsb_exists. split.
    + intros (keyword & Hin & Heq). apply String.eqb_eq in Heq. now rewrite Heq.
    + intros Hin. exists (uppercase (GetString s)). split; [exact Hin|].
      apply String.eqb_refl.
Qed.

End KeywordTableFacts.

Lemma sql_keywords_are_keywords_witness :
  Chunk.scan KeywordTable.keyword_row 32 100 Keywords.SQL_KEYWORDS 0
  = Some Keywords.SQL_KEYWORDS.
Proof.
  apply (sql_keywords_are_keywords 32 100); [lia|vm_compute; lia].
Defined.
